(** * mcrouter TkoTracker: the per-destination TKO state machine

    Shallow embedding of [mcrouter/TkoTracker.cpp].  One tracker and the
    global counters it updates are a record of 64-bit words; the member
    functions are computations in a small state monad whose failure is a
    violated [assert] (assertions are taken as enabled).  The
    compare-and-swap loops are run by a single thread: the exchange never
    loses against another writer, but [compare_exchange_weak] may fail
    spuriously, so every operation that contains such a loop takes the number
    of spurious failures it meets. *)

From Stdlib Require Import ZArith List Bool Lia.
From Stdlib Require String FMapList FMapFacts OrderedTypeEx.
Import ListNotations.
Local Open Scope Z_scope.

(** ** Machine words *)

(** [uintptr_t] and [size_t] are 64 bits wide. *)
Definition word_modulus : Z := 2 ^ 64.

(** Unsigned wrap-around of an arithmetic result. *)
Definition wrap (z : Z) : Z := z mod word_modulus.

(** The values a 64-bit unsigned variable can hold. *)
Definition is_word (z : Z) : Prop := 0 <= z < word_modulus.

(** ** Data *)

(** Modelled from the spec: [TkoCounters.h] is missing; the spec gives two
    plain atomic nonnegative counters, and the code uses them as
    [std::atomic<size_t>] ([fetch_sub], [++], [--]). *)
Record TkoCounters : Type := mkTkoCounters {
  softTkos : Z;
  hardTkos : Z
}.

(** [TkoTracker]: the members of one tracker; [globalTkos_] stands for
    [trackerMap_.globalTkos_], the counters reached through the map. *)
Record TkoTracker : Type := mkTkoTracker {
  tkoThreshold_ : Z;
  sumFailures_ : Z;
  consecutiveFailureCount_ : Z;
  globalTkos_ : TkoCounters
}.

Definition set_sumFailures (v : Z) (s : TkoTracker) : TkoTracker :=
  mkTkoTracker (tkoThreshold_ s) v (consecutiveFailureCount_ s) (globalTkos_ s).

Definition set_consecutiveFailureCount (v : Z) (s : TkoTracker) : TkoTracker :=
  mkTkoTracker (tkoThreshold_ s) (sumFailures_ s) v (globalTkos_ s).

Definition set_softTkos (v : Z) (s : TkoTracker) : TkoTracker :=
  mkTkoTracker (tkoThreshold_ s) (sumFailures_ s) (consecutiveFailureCount_ s)
    (mkTkoCounters v (hardTkos (globalTkos_ s))).

Definition set_hardTkos (v : Z) (s : TkoTracker) : TkoTracker :=
  mkTkoTracker (tkoThreshold_ s) (sumFailures_ s) (consecutiveFailureCount_ s)
    (mkTkoCounters (softTkos (globalTkos_ s)) v).

(** Modelled from the spec: the default member initialisers of
    [TkoCounters.h] are missing; the scenarios on a fresh tracker start from
    [soft_tkos = 0] and [hard_tkos = 0]. *)
Definition fresh_counters : TkoCounters := mkTkoCounters 0 0.

(** Modelled from the spec: the constructor stores [tkoThreshold]; the
    default member initialisers of [TkoTracker.h] are missing, and the
    scenarios on a fresh tracker start from [sum_failures = 0] and
    [consecutive_failure_count = 0]. *)
Definition TkoTracker_new (tkoThreshold : Z) (counters : TkoCounters)
  : TkoTracker :=
  mkTkoTracker tkoThreshold 0 0 counters.

(** A new tracker in a new map. *)
Definition fresh (tkoThreshold : Z) : TkoTracker :=
  TkoTracker_new tkoThreshold fresh_counters.

(** ** Observers *)

Definition isHardTko (s : TkoTracker) : bool :=
  let curSumFailures := sumFailures_ s in
  (tkoThreshold_ s <? curSumFailures) && (curSumFailures mod 2 =? 1).

Definition isSoftTko (s : TkoTracker) : bool :=
  let curSumFailures := sumFailures_ s in
  (tkoThreshold_ s <? curSumFailures) && (curSumFailures mod 2 =? 0).

(** Modelled from the spec: [isTko] is defined in the missing header
    [TkoTracker.h]; the spec gives [is_tko() = W > threshold]. *)
Definition isTko (s : TkoTracker) : bool :=
  tkoThreshold_ s <? sumFailures_ s.

(** [~1] converted to [uintptr_t]: every bit set but the lowest. *)
Definition not_one : Z := wrap (Z.lnot 1).

Definition isResponsible (pdstn : Z) (s : TkoTracker) : bool :=
  Z.land (sumFailures_ s) not_one =? pdstn.

(** ** The monad: state, and failure for a violated [assert] *)

Definition M (A : Type) : Type := TkoTracker -> option (A * TkoTracker).

Definition ret {A : Type} (a : A) : M A := fun s => Some (a, s).

Definition bind {A B : Type} (m : M A) (k : A -> M B) : M B :=
  fun s => match m s with
           | Some (a, s') => k a s'
           | None => None
           end.

Definition get : M TkoTracker := fun s => Some (s, s).

Definition modify (f : TkoTracker -> TkoTracker) : M unit :=
  fun s => Some (tt, f s).

Definition assert_ (b : bool) : M unit :=
  fun s => if b then Some (tt, s) else None.

Definition when (b : bool) (m : M unit) : M unit :=
  if b then m else ret tt.

Declare Scope tko_scope.
Delimit Scope tko_scope with tko.
Notation "x <- m ;; k" := (bind m (fun x => k))
  (at level 61, m at next level, right associativity) : tko_scope.
Notation "m ;; k" := (bind m (fun _ => k))
  (at level 61, right associativity) : tko_scope.
Local Open Scope tko_scope.

(** ** Counter helpers *)

Definition incrementSoftTkoCount : M unit :=
  modify (fun s => set_softTkos (wrap (softTkos (globalTkos_ s) + 1)) s).

(** [fetch_sub(1)] followed by [assert(oldSoftTkos != 0)]. *)
Definition decrementSoftTkoCount : M unit :=
  s <- get ;;
  let oldSoftTkos := softTkos (globalTkos_ s) in
  modify (set_softTkos (wrap (oldSoftTkos - 1))) ;;
  assert_ (negb (oldSoftTkos =? 0)).

(** [++trackerMap_.globalTkos_.hardTkos]. *)
Definition incrementHardTkoCount : M unit :=
  modify (fun s => set_hardTkos (wrap (hardTkos (globalTkos_ s) + 1)) s).

(** [--trackerMap_.globalTkos_.hardTkos]: no assertion follows it. *)
Definition decrementHardTkoCount : M unit :=
  modify (fun s => set_hardTkos (wrap (hardTkos (globalTkos_ s) - 1)) s).

(** [++consecutiveFailureCount_]. *)
Definition incrementConsecutiveFailureCount : M unit :=
  modify (fun s =>
    set_consecutiveFailureCount (wrap (consecutiveFailureCount_ s + 1)) s).

(** ** setSumFailures *)

(** One pass of the [do ... while] body for each attempt; [spurious] is the
    number of exchanges that still fail.  A failed exchange reloads
    [curSumFailures] from the word, which no other thread has changed. *)
Fixpoint setSumFailures_loop (spurious : nat) (value curSumFailures : Z)
  : M bool :=
  fun s =>
    if tkoThreshold_ s <? curSumFailures then Some (false, s)
    else match spurious with
         | O => Some (true, set_sumFailures value s)
         | S n => setSumFailures_loop n value (sumFailures_ s) s
         end.

Definition setSumFailures (spurious : nat) (value : Z) : M bool :=
  s <- get ;;
  setSumFailures_loop spurious value (sumFailures_ s).

(** ** recordSoftFailure *)

Fixpoint recordSoftFailure_loop (spurious : nat)
    (pdstnAddr curSumFailures value : Z) : M bool :=
  fun s =>
    let exchange (value : Z) : M bool :=
      match spurious with
      | O => modify (set_sumFailures value) ;; ret (value =? pdstnAddr)
      | S n => s' <- get ;;
               recordSoftFailure_loop n pdstnAddr (sumFailures_ s') value
      end in
    if curSumFailures =? wrap (tkoThreshold_ s - 1) then
      (when (negb (value =? pdstnAddr)) incrementSoftTkoCount ;;
       exchange pdstnAddr) s
    else
      (when (value =? pdstnAddr) decrementSoftTkoCount ;;
       s1 <- get ;;
       if tkoThreshold_ s1 <? curSumFailures then ret false
       else exchange (wrap (curSumFailures + 1))) s.

Definition recordSoftFailure (pdstn : Z) (spurious : nat) : M bool :=
  incrementConsecutiveFailureCount ;;
  s <- get ;;
  if isTko s then ret false
  else recordSoftFailure_loop spurious pdstn (sumFailures_ s) 0.

(** ** recordHardFailure *)

Definition recordHardFailure (pdstn : Z) (spurious : nat) : M bool :=
  incrementConsecutiveFailureCount ;;
  s <- get ;;
  if isHardTko s then ret false
  else if isResponsible pdstn s then
    modify (fun s => set_sumFailures (Z.lor (sumFailures_ s) 1) s) ;;
    decrementSoftTkoCount ;;
    incrementHardTkoCount ;;
    ret false
  else
    success <- setSumFailures spurious (Z.lor pdstn 1) ;;
    when success incrementHardTkoCount ;;
    ret success.

(** ** recordSuccess *)

Definition recordSuccess (pdstn : Z) (spurious : nat) : M bool :=
  s <- get ;;
  if isResponsible pdstn s then
    s1 <- get ;;
    when (isSoftTko s1) decrementSoftTkoCount ;;
    s2 <- get ;;
    when (isHardTko s2) decrementHardTkoCount ;;
    modify (set_sumFailures 0) ;;
    modify (set_consecutiveFailureCount 0) ;;
    ret true
  else
    (if negb (sumFailures_ s =? 0) then
       cleared <- setSumFailures spurious 0 ;;
       when cleared (modify (set_consecutiveFailureCount 0))
     else ret tt) ;;
    ret false.

(** ** removeDestination *)

Definition removeDestination (pdstn : Z) (spurious : nat) : M bool :=
  s <- get ;;
  if isResponsible pdstn s then recordSuccess pdstn spurious
  else ret false.

(** ** Sequential call sequences *)

(** One call on the tracker: the member function, the destination's address
    and the number of spurious exchange failures the call meets. *)
Inductive Call : Type :=
| RecordSoftFailure (pdstn : Z) (spurious : nat)
| RecordHardFailure (pdstn : Z) (spurious : nat)
| RecordSuccess (pdstn : Z) (spurious : nat)
| RemoveDestination (pdstn : Z) (spurious : nat).

Definition call (c : Call) : M bool :=
  match c with
  | RecordSoftFailure pdstn n => recordSoftFailure pdstn n
  | RecordHardFailure pdstn n => recordHardFailure pdstn n
  | RecordSuccess pdstn n => recordSuccess pdstn n
  | RemoveDestination pdstn n => removeDestination pdstn n
  end.

Definition call_pdstn (c : Call) : Z :=
  match c with
  | RecordSoftFailure pdstn _ | RecordHardFailure pdstn _
  | RecordSuccess pdstn _ | RemoveDestination pdstn _ => pdstn
  end.

Definition is_failure_call (c : Call) : bool :=
  match c with
  | RecordSoftFailure _ _ | RecordHardFailure _ _ => true
  | RecordSuccess _ _ | RemoveDestination _ _ => false
  end.

(** What a caller observes of one call: the call, the tracker it found and
    the boolean it got back. *)
Record Event : Type := mkEvent {
  ev_call : Call;
  ev_before : TkoTracker;
  ev_result : bool
}.

(** Runs the calls in order; the log lists them oldest first. *)
Fixpoint run (cs : list Call) : M (list Event) :=
  match cs with
  | [] => ret []
  | c :: rest =>
      s <- get ;;
      r <- call c ;;
      log <- run rest ;;
      ret (mkEvent c s r :: log)
  end.

Definition results (log : list Event) : list bool := map ev_result log.

(** Every member is an unsigned 64-bit word. *)
Definition wf_tracker (s : TkoTracker) : Prop :=
  is_word (tkoThreshold_ s) /\ is_word (sumFailures_ s) /\
  is_word (consecutiveFailureCount_ s) /\
  is_word (softTkos (globalTkos_ s)) /\ is_word (hardTkos (globalTkos_ s)).

(** ** The abstract machine behind the encoding *)

(** A destination address that can be told apart from a failure count: even
    (aligned), above the threshold, and a 64-bit word. *)
Definition valid_token (t d : Z) : Prop :=
  Z.even d = true /\ t < d < word_modulus.

(** What the single word [sumFailures_] stands for. *)
Inductive Phase : Type :=
| Counting (failures : Z)
| SoftTko (owner : Z)
| HardTko (owner : Z).

Definition encode (ph : Phase) : Z :=
  match ph with
  | Counting k => k
  | SoftTko d => d
  | HardTko d => Z.lor d 1
  end.

Definition owner (ph : Phase) : option Z :=
  match ph with
  | Counting _ => None
  | SoftTko d | HardTko d => Some d
  end.

(** One call on the abstract machine: the boolean returned and the next
    phase. *)
Definition phase_step (t : Z) (c : Call) (ph : Phase) : bool * Phase :=
  match c, ph with
  | RecordSoftFailure d _, Counting k =>
      if k =? t - 1 then (true, SoftTko d) else (false, Counting (k + 1))
  | RecordSoftFailure _ _, _ => (false, ph)
  | RecordHardFailure d _, Counting _ => (true, HardTko d)
  | RecordHardFailure d _, SoftTko o =>
      if o =? d then (false, HardTko d) else (false, ph)
  | RecordHardFailure _ _, HardTko _ => (false, ph)
  | RecordSuccess _ _, Counting _ => (false, Counting 0)
  | RecordSuccess d _, SoftTko o | RecordSuccess d _, HardTko o =>
      if o =? d then (true, Counting 0) else (false, ph)
  | RemoveDestination _ _, Counting _ => (false, ph)
  | RemoveDestination d _, SoftTko o | RemoveDestination d _, HardTko o =>
      if o =? d then (true, Counting 0) else (false, ph)
  end.

(** The tracker [s], alone on its counters, is in phase [ph]. *)
Definition represents (t : Z) (ph : Phase) (s : TkoTracker) : Prop :=
  tkoThreshold_ s = t /\
  sumFailures_ s = encode ph /\
  is_word (consecutiveFailureCount_ s) /\
  match ph with
  | Counting k => 0 <= k <= t - 1 /\ globalTkos_ s = mkTkoCounters 0 0
  | SoftTko d => valid_token t d /\ globalTkos_ s = mkTkoCounters 1 0
  | HardTko d => valid_token t d /\ globalTkos_ s = mkTkoCounters 0 1
  end.

(** The destination that entered TKO, read off the log: the destination of
    the latest failure call that returned [true], unless a later success or
    removal returned [true]. *)
Definition tko_owner_step (o : option Z) (e : Event) : option Z :=
  if ev_result e then
    if is_failure_call (ev_call e) then Some (call_pdstn (ev_call e)) else None
  else o.

Definition tko_owner (log : list Event) : option Z :=
  fold_left tko_owner_step log None.

(** Whether a call reset [consecutiveFailureCount_]: a success or removal
    that returned [true], or a success that found a nonzero failure count on
    a tracker not in TKO. *)
Definition counter_cleared (e : Event) : bool :=
  match ev_call e with
  | RecordSuccess _ _ =>
      ev_result e
      || (negb (sumFailures_ (ev_before e) =? 0) && negb (isTko (ev_before e)))
  | RemoveDestination _ _ => ev_result e
  | _ => false
  end.

Definition count_step (n : nat) (e : Event) : nat :=
  if counter_cleared e then O
  else if is_failure_call (ev_call e) then S n else n.

(** The number of failure calls since the latest call that reset the
    counter. *)
Definition failures_since_clear (log : list Event) : nat :=
  fold_left count_step log O.

(** The count as the specification words it: the number of failure calls
    since the latest success (or removal, which runs [recordSuccess]) that
    returned [true]. *)
Definition spec_count_step (n : nat) (e : Event) : nat :=
  if negb (is_failure_call (ev_call e)) && ev_result e then O
  else if is_failure_call (ev_call e) then S n else n.

Definition spec_failures_since_true_success (log : list Event) : nat :=
  fold_left spec_count_step log O.

(** Consecutive [recordSoftFailure] calls, one per destination address and
    number of spurious exchange failures. *)
Definition soft_failures (ds : list (Z * nat)) : list Call :=
  map (fun dn => RecordSoftFailure (fst dn) (snd dn)) ds.

(** How many of the calls are failure calls. *)
Definition failure_calls (cs : list Call) : nat :=
  length (filter is_failure_call cs).

(** The 64-bit counter after the call of event [e]. *)
Definition next_count (e : Event) (count : Z) : Z :=
  if counter_cleared e then 0
  else if is_failure_call (ev_call e) then wrap (count + 1) else count.

(** ** The tokens of the specification's scenarios: A = 0x1000, B = 0x2000 *)

Definition token_A : Z := 4096.
Definition token_B : Z := 8192.

(** The tracker after four soft failures by [A]: soft TKO held by [A]. *)
Definition soft_tko_by_A : TkoTracker :=
  mkTkoTracker 4 token_A 4 (mkTkoCounters 1 0).

(** ** Runs of the abstract machine *)

(** The booleans the abstract machine returns on a sequence of calls, and
    the phase it ends in. *)
Fixpoint phase_run (t : Z) (cs : list Call) (ph : Phase) : list bool * Phase :=
  match cs with
  | [] => ([], ph)
  | c :: rest =>
      let (r, ph1) := phase_step t c ph in
      let (rs, ph2) := phase_run t rest ph1 in
      (r :: rs, ph2)
  end.

(** ** Entries and exits of TKO in a log *)

(** Whether the [true] results of a log pair up: a failure call returns
    [true] only while no destination holds the TKO ([o = None]), a success
    or removal returns [true] only for the destination that holds it. *)
Fixpoint bracketed (o : option Z) (log : list Event) : bool :=
  match log with
  | [] => true
  | e :: rest =>
      let d := call_pdstn (ev_call e) in
      if ev_result e then
        if is_failure_call (ev_call e) then
          match o with
          | None => bracketed (Some d) rest
          | Some _ => false
          end
        else
          match o with
          | Some a => (a =? d) && bracketed None rest
          | None => false
          end
      else bracketed o rest
  end.

(** The tracker after one hard failure by [A]: hard TKO held by [A]. *)
Definition hard_tko_by_A : TkoTracker :=
  mkTkoTracker 4 (Z.lor token_A 1) 1 (mkTkoCounters 0 1).

(** ** The tracker registry: [TkoTrackerMap]

    The registry is run by one thread, so the mutex [mx_] plays no part.  A
    [shared_ptr] or [weak_ptr] to a tracker is the tracker's address; a
    tracker is alive while some destination holds a [shared_ptr] to it, and
    it is destroyed when the last one lets go. *)

Import String.StringSyntax.
Delimit Scope string_scope with string.

Module StringMap := FMapList.Make OrderedTypeEx.String_as_OT.
Module StringMapFacts :=
  FMapFacts.WFacts_fun OrderedTypeEx.String_as_OT StringMap.
Module StringMapProps :=
  FMapFacts.WProperties_fun OrderedTypeEx.String_as_OT StringMap.

Definition address : Type := nat.

(** The members of one [TkoTracker] object beside its reference to the map:
    the three words of the state machine and [key_]. *)
Record TrackerObject : Type := mkTrackerObject {
  obj_tkoThreshold_ : Z;
  obj_sumFailures_ : Z;
  obj_consecutiveFailureCount_ : Z;
  key_ : String.string
}.

(** Modelled from the spec: [TkoTracker.h] and [ProxyDestination.h] are
    missing.  [trackers_] and [reg_globalTkos_] are the members
    [trackers_] and [globalTkos_] of [TkoTrackerMap] as the code uses them;
    [heap] holds the live tracker objects and [next_address] is the address
    the next [new] returns; [owners] lists, for each destination that has
    one, the tracker its member [tracker] points to. *)
Record Process : Type := mkProcess {
  trackers_ : StringMap.t address;
  reg_globalTkos_ : TkoCounters;
  heap : address -> option TrackerObject;
  next_address : address;
  owners : list (Z * address)
}.

Definition set_trackers (m : StringMap.t address) (P : Process) : Process :=
  mkProcess m (reg_globalTkos_ P) (heap P) (next_address P) (owners P).

Definition set_owners (l : list (Z * address)) (P : Process) : Process :=
  mkProcess (trackers_ P) (reg_globalTkos_ P) (heap P) (next_address P) l.

Definition heap_update (a : address) (v : option TrackerObject)
    (h : address -> option TrackerObject) : address -> option TrackerObject :=
  fun a' => if Nat.eqb a' a then v else h a'.

Definition set_heap (h : address -> option TrackerObject) (P : Process)
  : Process :=
  mkProcess (trackers_ P) (reg_globalTkos_ P) h (next_address P) (owners P).

(** A process with an empty registry and no destination. *)
Definition empty_process : Process :=
  mkProcess (StringMap.empty address) fresh_counters (fun _ => None) O [].

(** The tracker a member function sees: the object's words and the map's
    counters. *)
Definition tracker_view (g : TkoCounters) (o : TrackerObject) : TkoTracker :=
  mkTkoTracker (obj_tkoThreshold_ o) (obj_sumFailures_ o)
    (obj_consecutiveFailureCount_ o) g.

Definition object_of (s : TkoTracker) (key : String.string) : TrackerObject :=
  mkTrackerObject (tkoThreshold_ s) (sumFailures_ s)
    (consecutiveFailureCount_ s) key.

(** [pdstn.tracker]. *)
Definition tracker_of (pdstn : Z) (l : list (Z * address)) : option address :=
  match find (fun b => fst b =? pdstn) l with
  | Some b => Some (snd b)
  | None => None
  end.

(** Whether some destination still holds a [shared_ptr] to the tracker. *)
Definition held (a : address) (l : list (Z * address)) : bool :=
  existsb (fun b => Nat.eqb (snd b) a) l.

Definition without_owner (pdstn : Z) (l : list (Z * address))
  : list (Z * address) :=
  filter (fun b => negb (fst b =? pdstn)) l.

(** [unordered_map::emplace]: inserts when the key is absent, and says
    whether it did. *)
Definition emplace {V : Type} (key : String.string) (v : V)
    (m : StringMap.t V) : StringMap.t V * bool :=
  if StringMap.mem key m then (m, false) else (StringMap.add key v m, true).

(** [TkoTrackerMap::removeTracker]. *)
Definition removeTracker (key : String.string) (P : Process) : Process :=
  match StringMap.find key (trackers_ P) with
  | Some _ => set_trackers (StringMap.remove key (trackers_ P)) P
  | None => P
  end.

(** [TkoTracker::~TkoTracker], followed by the release of the object. *)
Definition destroy (a : address) (P : Process) : Process :=
  match heap P a with
  | Some o => set_heap (heap_update a None (heap P)) (removeTracker (key_ o) P)
  | None => P
  end.

(** A [shared_ptr] to the tracker at [a] has gone: the tracker is destroyed
    unless a destination still holds one. *)
Definition drop_reference (a : address) (P : Process) : Process :=
  if held a (owners P) then P else destroy a P.

(** [trackers_.find(key)] followed by [lock()] on the entry found: the
    tracker registered under [key], if there is an entry and its tracker is
    still alive. *)
Definition find_live (key : String.string) (P : Process) : option address :=
  match StringMap.find key (trackers_ P) with
  | Some a => match heap P a with Some _ => Some a | None => None end
  | None => None
  end.

(** [TkoTrackerMap::updateTracker]; [host pdstn] is
    [pdstn.accessPoint()->toHostPortString()]. *)
Definition updateTracker (host : Z -> String.string) (pdstn : Z)
    (tkoThreshold : Z) (P : Process) : Process :=
  let key := host pdstn in
  let (tracker, P1) :=
    match find_live key P with
    | Some a => (a, P)
    | None =>
        let a := next_address P in
        let s := TkoTracker_new tkoThreshold (reg_globalTkos_ P) in
        let (m1, inserted) := emplace key a (trackers_ P) in
        let m2 := if inserted then m1 else StringMap.add key a m1 in
        (a, mkProcess m2 (reg_globalTkos_ P)
              (heap_update a (Some (object_of s key)) (heap P))
              (S a) (owners P))
    end in
  let old := tracker_of pdstn (owners P1) in
  let P2 := set_owners ((pdstn, tracker) :: without_owner pdstn (owners P1)) P1 in
  match old with
  | Some o => drop_reference o P2
  | None => P2
  end.

(** The destination gives up its tracker (its [shared_ptr] member is reset
    or destroyed with it). *)
Definition release (pdstn : Z) (P : Process) : Process :=
  match tracker_of pdstn (owners P) with
  | Some a => drop_reference a (set_owners (without_owner pdstn (owners P)) P)
  | None => P
  end.

(** A member function run on the tracker at [a]; a dangling address, like a
    failed assertion, gives no result. *)
Definition on_tracker (a : address) (m : M bool) (P : Process)
  : option (bool * Process) :=
  match heap P a with
  | None => None
  | Some o =>
      match m (tracker_view (reg_globalTkos_ P) o) with
      | None => None
      | Some (r, s') =>
          Some (r, mkProcess (trackers_ P) (globalTkos_ s')
                     (heap_update a (Some (object_of s' (key_ o))) (heap P))
                     (next_address P) (owners P))
      end
  end.

(** [TkoTrackerMap::foreachTkoTracker]: [func] is called on every entry
    whose [weak_ptr] still locks; the accumulator stands for what the
    callback has captured by reference.  The [shared_ptr]s collected during
    the walk are dropped after it, which changes nothing while destinations
    hold the trackers. *)
Definition foreachTkoTracker {A : Type}
    (func : String.string -> TrackerObject -> A -> A) (P : Process) (init : A)
  : A :=
  fold_left
    (fun acc it =>
       match heap P (snd it) with
       | Some tracker => func (fst it) tracker acc
       | None => acc
       end)
    (StringMap.elements (trackers_ P)) init.

(** [TkoTrackerMap::getSuspectServers]. *)
Definition getSuspectServers (P : Process) : StringMap.t (bool * Z) :=
  foreachTkoTracker
    (fun key tracker result =>
       let failures := obj_consecutiveFailureCount_ tracker in
       if 0 <? failures then
         fst (emplace key
                (isTko (tracker_view (reg_globalTkos_ P) tracker), failures)
                result)
       else result)
    P (StringMap.empty (bool * Z)).

(** [TkoTrackerMap::getSuspectServersCount]. *)
Definition getSuspectServersCount (P : Process) : Z :=
  foreachTkoTracker
    (fun _ tracker result =>
       if 0 <? obj_consecutiveFailureCount_ tracker then wrap (result + 1)
       else result)
    P 0.

(** What [getSuspectServers] reports for the entry whose [weak_ptr] is [a]:
    nothing for an expired entry or a tracker without failures. *)
Definition suspect_entry (P : Process) (a : address) : option (bool * Z) :=
  match heap P a with
  | Some tracker =>
      if 0 <? obj_consecutiveFailureCount_ tracker
      then Some (isTko (tracker_view (reg_globalTkos_ P) tracker),
                 obj_consecutiveFailureCount_ tracker)
      else None
  | None => None
  end.

(** Whether [getSuspectServers] reports the entry [it] of [trackers_]. *)
Definition is_suspect (P : Process) (it : String.string * address) : bool :=
  match suspect_entry P (snd it) with
  | Some _ => true
  | None => false
  end.

(** What a single thread does to the registry: a destination asks for its
    tracker, gives it up, or reports an outcome to it
    ([pdstn.tracker->recordSuccess(&pdstn)] and the like). *)
Inductive RegistryOp : Type :=
| UpdateTracker (pdstn : Z) (tkoThreshold : Z)
| Release (pdstn : Z)
| Report (c : Call).

Definition registry_step (host : Z -> String.string) (op : RegistryOp)
    (P : Process) : option Process :=
  match op with
  | UpdateTracker pdstn tkoThreshold =>
      Some (updateTracker host pdstn tkoThreshold P)
  | Release pdstn => Some (release pdstn P)
  | Report c =>
      match tracker_of (call_pdstn c) (owners P) with
      | Some a =>
          match on_tracker a (call c) P with
          | Some (_, P') => Some P'
          | None => None
          end
      | None => None
      end
  end.

Fixpoint run_registry (host : Z -> String.string) (ops : list RegistryOp)
    (P : Process) : option Process :=
  match ops with
  | [] => Some P
  | op :: rest =>
      match registry_step host op P with
      | Some P' => run_registry host rest P'
      | None => None
      end
  end.

(** The registry between two operations of a single thread: every live
    tracker is registered under its own key, every entry points to a live
    tracker with that key, every destination holds at most one tracker,
    which is alive and of its own host, every live tracker is held, and the
    addresses in use are below the next one. *)
Definition registry_wf (host : Z -> String.string) (P : Process) : Prop :=
  (forall a o, heap P a = Some o ->
     StringMap.find (key_ o) (trackers_ P) = Some a) /\
  (forall k a, StringMap.find k (trackers_ P) = Some a ->
     exists o, heap P a = Some o /\ key_ o = k) /\
  NoDup (map fst (owners P)) /\
  (forall d a, In (d, a) (owners P) ->
     exists o, heap P a = Some o /\ key_ o = host d) /\
  (forall a o, heap P a = Some o -> exists d, In (d, a) (owners P)) /\
  (forall a o, heap P a = Some o -> (a < next_address P)%nat).

(** The hosts of the scenarios: [A] and [B] are two destinations of one
    host, every other destination is of another. *)
Definition scenario_host (pdstn : Z) : String.string :=
  if (pdstn =? token_A) || (pdstn =? token_B) then "cache1:11211"%string
  else "cache2:11211"%string.

(** ** Several trackers on the same counters *)

(** What a tracker in phase [ph] adds to [soft_tkos] and to [hard_tkos]. *)
Definition soft_of (ph : Phase) : Z :=
  match ph with SoftTko _ => 1 | _ => 0 end.

Definition hard_of (ph : Phase) : Z :=
  match ph with HardTko _ => 1 | _ => 0 end.

(** The tracker [s] is in phase [ph] while the other trackers of the map
    account for [bs] soft and [bh] hard TKOs. *)
Definition represents_among (bs bh t : Z) (ph : Phase) (s : TkoTracker)
  : Prop :=
  tkoThreshold_ s = t /\
  sumFailures_ s = encode ph /\
  is_word (consecutiveFailureCount_ s) /\
  match ph with
  | Counting k => 0 <= k <= t - 1
  | SoftTko d | HardTko d => valid_token t d
  end /\
  globalTkos_ s = mkTkoCounters (bs + soft_of ph) (bh + hard_of ph).

(** The tracker with the counters it would have alone. *)
Definition alone (ph : Phase) (s : TkoTracker) : TkoTracker :=
  mkTkoTracker (tkoThreshold_ s) (sumFailures_ s) (consecutiveFailureCount_ s)
    (mkTkoCounters (soft_of ph) (hard_of ph)).

(** The sum of [f] over the addresses below [n]. *)
Fixpoint count_upto (f : address -> Z) (n : nat) : Z :=
  match n with
  | O => 0
  | S m => count_upto f m + f m
  end.

(** 1 for a live tracker that satisfies [pred], 0 otherwise. *)
Definition indicator (pred : TkoTracker -> bool) (g : TkoCounters)
    (v : option TrackerObject) : Z :=
  match v with
  | Some o => if pred (tracker_view g o) then 1 else 0
  | None => 0
  end.

(** The number of live trackers that satisfy [pred]. *)
Definition live_in (pred : TkoTracker -> bool) (P : Process) : Z :=
  count_upto (fun a => indicator pred (reg_globalTkos_ P) (heap P a))
    (next_address P).

(** Sequences in which no destination gives up its tracker and every
    report comes from a destination that has asked for one. *)
Fixpoint scoped (seen : list Z) (ops : list RegistryOp) : bool :=
  match ops with
  | [] => true
  | UpdateTracker d _ :: rest => scoped (d :: seen) rest
  | Release _ :: _ => false
  | Report c :: rest =>
      existsb (Z.eqb (call_pdstn c)) seen && scoped seen rest
  end.

(** Thresholds between 1 and [tmax], and destination addresses that are
    valid tokens for every such threshold. *)
Definition op_valid (tmax : Z) (op : RegistryOp) : Prop :=
  match op with
  | UpdateTracker d t => 1 <= t <= tmax /\ valid_token tmax d
  | Release d => True
  | Report c => valid_token tmax (call_pdstn c)
  end.

(** The words of a tracker object stand for phase [ph]. *)
Definition object_in_phase (tmax : Z) (o : TrackerObject) (ph : Phase)
  : Prop :=
  1 <= obj_tkoThreshold_ o <= tmax /\
  obj_sumFailures_ o = encode ph /\
  is_word (obj_consecutiveFailureCount_ o) /\
  match ph with
  | Counting k => 0 <= k <= obj_tkoThreshold_ o - 1
  | SoftTko d | HardTko d => valid_token (obj_tkoThreshold_ o) d
  end.

(** What the registry keeps when every tracker is used by valid
    destinations: each live tracker is in some phase, and the global
    counters are the numbers of live trackers in soft and in hard TKO. *)
Definition counters_wf (host : Z -> String.string) (tmax : Z) (P : Process)
  : Prop :=
  registry_wf host P /\
  (forall a o, heap P a = Some o -> exists ph, object_in_phase tmax o ph) /\
  softTkos (reg_globalTkos_ P) = live_in isSoftTko P /\
  hardTkos (reg_globalTkos_ P) = live_in isHardTko P.

(** The registries of the scenarios: [A] alone on the tracker of its
    host, then [A] and [B] sharing it. *)
Definition registry_of_A : Process :=
  updateTracker scenario_host token_A 4 empty_process.

Definition registry_of_A_and_B : Process :=
  updateTracker scenario_host token_B 7 registry_of_A.

(** A destination of another host. *)
Definition token_C : Z := 12288.

(** Two hosts, of which the first has seen a failure. *)
Definition registry_with_suspect : Process :=
  match run_registry scenario_host
          [UpdateTracker token_A 4; UpdateTracker token_C 4;
           Report (RecordSoftFailure token_A 0)] empty_process with
  | Some P => P
  | None => empty_process
  end.

(** Three destinations on two hosts: [A] goes into hard TKO, [B] joins the
    tracker of [A], and the other host goes into soft TKO at its fourth
    failure. *)
Definition scenario_two_hosts : list RegistryOp :=
  [UpdateTracker token_A 4; UpdateTracker token_C 4;
   Report (RecordHardFailure token_A 0); UpdateTracker token_B 7;
   Report (RecordSoftFailure token_C 0); Report (RecordSoftFailure token_C 1);
   Report (RecordSoftFailure token_B 0); Report (RecordSoftFailure token_C 0);
   Report (RecordSoftFailure token_C 0); Report (RecordSuccess token_B 0)].

(** * Word arithmetic *)

Ltac word_lia :=
  unfold is_word, wrap, word_modulus in *;
  Z.to_euclidean_division_equations; lia.

Lemma wrap_small (z : Z) : is_word z -> wrap z = z.
Proof. intros Hz. apply Z.mod_small. exact Hz. Qed.

Lemma wrap_is_word (z : Z) : is_word (wrap z).
Proof. apply Z.mod_pos_bound. reflexivity. Qed.

Lemma wrap_add_wrap (a b : Z) : wrap (wrap a + b) = wrap (a + b).
Proof. unfold wrap. apply Z.add_mod_idemp_l. discriminate. Qed.

(** Masking with [~1] clears the low bit. *)
Lemma land_not_one (w : Z) : is_word w -> Z.land w not_one = 2 * (w / 2).
Proof.
  unfold is_word, not_one, wrap, word_modulus. intros Hw.
  rewrite <- Z.land_ones by lia.
  rewrite Z.land_assoc, (Z.land_comm w), <- Z.land_assoc.
  rewrite (Z.land_ones w) by lia.
  rewrite Z.mod_small by lia.
  rewrite Z.land_comm, <- Z.ldiff_land.
  change 1 with (Z.ones 1) at 1.
  rewrite Z.ldiff_ones_r by lia.
  rewrite Z.shiftr_div_pow2, Z.shiftl_mul_pow2 by lia.
  change (2 ^ 1) with 2. lia.
Qed.

(** [| 1] sets the low bit. *)
Lemma lor_one (w : Z) : 0 <= w -> Z.lor w 1 = w + 1 - w mod 2.
Proof.
  intros Hw.
  assert (Hland : Z.land w 1 = w mod 2).
  { change 1 with (Z.ones 1). rewrite Z.land_ones by lia. reflexivity. }
  pose proof (Z.add_lor_land w 1) as H. lia.
Qed.

Lemma even_mod2 (d : Z) : Z.even d = true -> d mod 2 = 0.
Proof.
  intros H. apply Z.even_spec in H. destruct H as [k ->].
  rewrite Z.mul_comm. apply Z.mod_mul. discriminate.
Qed.

Lemma lor_one_even (d : Z) : 0 <= d -> Z.even d = true -> Z.lor d 1 = d + 1.
Proof. intros H0 He. rewrite lor_one by exact H0. rewrite even_mod2; auto; lia. Qed.

(** * The compare-and-swap loops *)

Lemma setSumFailures_loop_stores (n : nat) (value : Z) (s : TkoTracker) :
  sumFailures_ s <= tkoThreshold_ s ->
  setSumFailures_loop n value (sumFailures_ s) s
  = Some (true, set_sumFailures value s).
Proof.
  intros Hle. induction n as [|n IH]; simpl.
  - destruct (Z.ltb_spec (tkoThreshold_ s) (sumFailures_ s)); [lia|reflexivity].
  - destruct (Z.ltb_spec (tkoThreshold_ s) (sumFailures_ s)); [lia|exact IH].
Qed.

Lemma setSumFailures_loop_gives_up (n : nat) (value cur : Z) (s : TkoTracker) :
  tkoThreshold_ s < cur ->
  setSumFailures_loop n value cur s = Some (false, s).
Proof.
  intros Hlt. apply Z.ltb_lt in Hlt. destruct n; simpl; rewrite Hlt; reflexivity.
Qed.

Lemma setSumFailures_not_tko (n : nat) (value : Z) (s : TkoTracker) :
  isTko s = false ->
  setSumFailures n value s = Some (true, set_sumFailures value s).
Proof.
  unfold isTko, setSumFailures, bind, get. intros H. apply Z.ltb_ge in H.
  apply setSumFailures_loop_stores. exact H.
Qed.

Lemma setSumFailures_tko (n : nat) (value : Z) (s : TkoTracker) :
  isTko s = true ->
  setSumFailures n value s = Some (false, s).
Proof.
  unfold isTko, setSumFailures, bind, get. intros H. apply Z.ltb_lt in H.
  apply setSumFailures_loop_gives_up. exact H.
Qed.

(** The loop of [recordSoftFailure] when the word is one failure below the
    limit: the soft counter goes up at most once, whatever the number of
    retries, and the destination's address is stored. *)
Lemma recordSoftFailure_loop_enters (n : nat) (p : Z) :
  forall (value : Z) (s : TkoTracker),
    sumFailures_ s = wrap (tkoThreshold_ s - 1) ->
    recordSoftFailure_loop n p (sumFailures_ s) value s
    = Some (true,
            set_sumFailures p
              (if value =? p then s
               else set_softTkos (wrap (softTkos (globalTkos_ s) + 1)) s)).
Proof.
  induction n as [|n IH]; intros value s Hcur; simpl;
    rewrite Hcur at 1; rewrite Z.eqb_refl;
    unfold bind, when, incrementSoftTkoCount, modify, ret, get;
    destruct (Z.eqb_spec value p) as [->|Hne]; simpl.
  - rewrite Z.eqb_refl. reflexivity.
  - rewrite Z.eqb_refl. reflexivity.
  - rewrite IH by exact Hcur. rewrite Z.eqb_refl. reflexivity.
  - set (s1 := set_softTkos _ s).
    change (sumFailures_ s) with (sumFailures_ s1).
    rewrite IH by exact Hcur. rewrite Z.eqb_refl. reflexivity.
Qed.

(** The loop of [recordSoftFailure] below the limit, for a destination whose
    address is neither the initial [value] nor the incremented count: nothing
    is undone and the count goes up by one. *)
Lemma recordSoftFailure_loop_counts (n : nat) (p : Z) :
  forall (value : Z) (s : TkoTracker),
    sumFailures_ s <> wrap (tkoThreshold_ s - 1) ->
    sumFailures_ s <= tkoThreshold_ s ->
    value <> p ->
    wrap (sumFailures_ s + 1) <> p ->
    recordSoftFailure_loop n p (sumFailures_ s) value s
    = Some (false, set_sumFailures (wrap (sumFailures_ s + 1)) s).
Proof.
  induction n as [|n IH]; intros value s Hcur Hle Hv Hp; simpl;
    (destruct (Z.eqb_spec (sumFailures_ s) (wrap (tkoThreshold_ s - 1)));
       [contradiction|]);
    unfold bind, when, ret, get, modify;
    (destruct (Z.eqb_spec value p); [contradiction|]); simpl;
    (destruct (Z.ltb_spec (tkoThreshold_ s) (sumFailures_ s)); [lia|]).
  - destruct (Z.eqb_spec (wrap (sumFailures_ s + 1)) p); [contradiction|].
    reflexivity.
  - apply IH; assumption.
Qed.

(** * Observers in arithmetic form *)

Lemma isTko_true (s : TkoTracker) :
  isTko s = true <-> tkoThreshold_ s < sumFailures_ s.
Proof. unfold isTko. apply Z.ltb_lt. Qed.

Lemma isTko_false (s : TkoTracker) :
  isTko s = false <-> sumFailures_ s <= tkoThreshold_ s.
Proof. unfold isTko. apply Z.ltb_ge. Qed.

Lemma isSoftTko_true (s : TkoTracker) :
  isSoftTko s = true <->
  tkoThreshold_ s < sumFailures_ s /\ sumFailures_ s mod 2 = 0.
Proof.
  unfold isSoftTko. simpl. rewrite andb_true_iff, Z.ltb_lt, Z.eqb_eq. tauto.
Qed.

Lemma isHardTko_true (s : TkoTracker) :
  isHardTko s = true <->
  tkoThreshold_ s < sumFailures_ s /\ sumFailures_ s mod 2 = 1.
Proof.
  unfold isHardTko. simpl. rewrite andb_true_iff, Z.ltb_lt, Z.eqb_eq. tauto.
Qed.

Lemma isResponsible_true (d : Z) (s : TkoTracker) :
  is_word (sumFailures_ s) ->
  (isResponsible d s = true <-> 2 * (sumFailures_ s / 2) = d).
Proof.
  intros Hw. unfold isResponsible. rewrite land_not_one by exact Hw.
  apply Z.eqb_eq.
Qed.

Lemma soft_excludes_hard (s : TkoTracker) :
  isSoftTko s = true -> isHardTko s = false.
Proof.
  intros H. apply isSoftTko_true in H. destruct H as [_ H].
  unfold isHardTko. simpl. rewrite H. apply andb_false_r.
Qed.

Lemma hard_excludes_soft (s : TkoTracker) :
  isHardTko s = true -> isSoftTko s = false.
Proof.
  intros H. apply isHardTko_true in H. destruct H as [_ H].
  unfold isSoftTko. simpl. rewrite H. apply andb_false_r.
Qed.

Lemma soft_is_tko (s : TkoTracker) : isSoftTko s = true -> isTko s = true.
Proof. rewrite isSoftTko_true, isTko_true. tauto. Qed.

Lemma tko_soft_or_hard (s : TkoTracker) :
  isTko s = true -> isSoftTko s = negb (isHardTko s).
Proof.
  unfold isTko, isSoftTko, isHardTko. simpl. intros ->. simpl.
  assert (H : sumFailures_ s mod 2 = 0 \/ sumFailures_ s mod 2 = 1)
    by (Z.to_euclidean_division_equations; lia).
  destruct H as [-> | ->]; reflexivity.
Qed.

(** * The operations, case by case *)

(** Reduces the projections of an updated tracker, and nothing else. *)
Ltac fields :=
  cbn [tkoThreshold_ sumFailures_ consecutiveFailureCount_ globalTkos_
       softTkos hardTkos set_sumFailures set_consecutiveFailureCount
       set_softTkos set_hardTkos fresh TkoTracker_new fresh_counters] in *.

Ltac run_monad :=
  unfold incrementConsecutiveFailureCount, incrementSoftTkoCount,
    decrementSoftTkoCount, incrementHardTkoCount, decrementHardTkoCount;
  unfold bind, when, ret, get, modify, assert_;
  cbv beta iota.

Lemma recordSoftFailure_when_tko (p : Z) (n : nat) (s : TkoTracker) :
  isTko s = true ->
  recordSoftFailure p n s
  = Some (false,
          set_consecutiveFailureCount
            (wrap (consecutiveFailureCount_ s + 1)) s).
Proof.
  intros H. unfold recordSoftFailure. run_monad.
  set (s1 := set_consecutiveFailureCount _ s).
  change (isTko s1) with (isTko s). rewrite H. reflexivity.
Qed.

Lemma recordSoftFailure_counts (p : Z) (n : nat) (s : TkoTracker) :
  isTko s = false ->
  sumFailures_ s <> wrap (tkoThreshold_ s - 1) ->
  p <> 0 ->
  p <> wrap (sumFailures_ s + 1) ->
  recordSoftFailure p n s
  = Some (false,
          set_sumFailures (wrap (sumFailures_ s + 1))
            (set_consecutiveFailureCount
               (wrap (consecutiveFailureCount_ s + 1)) s)).
Proof.
  intros H Hcur Hp0 Hp. unfold recordSoftFailure. run_monad.
  set (s1 := set_consecutiveFailureCount _ s).
  change (isTko s1) with (isTko s). rewrite H.
  change (sumFailures_ s) with (sumFailures_ s1).
  apply isTko_false in H.
  apply recordSoftFailure_loop_counts; simpl; auto.
Qed.

Lemma recordSoftFailure_enters (p : Z) (n : nat) (s : TkoTracker) :
  isTko s = false ->
  sumFailures_ s = wrap (tkoThreshold_ s - 1) ->
  p <> 0 ->
  recordSoftFailure p n s
  = Some (true,
          set_sumFailures p
            (set_softTkos (wrap (softTkos (globalTkos_ s) + 1))
               (set_consecutiveFailureCount
                  (wrap (consecutiveFailureCount_ s + 1)) s))).
Proof.
  intros H Hcur Hp0. unfold recordSoftFailure. run_monad.
  set (s1 := set_consecutiveFailureCount _ s).
  change (isTko s1) with (isTko s). rewrite H.
  change (sumFailures_ s) with (sumFailures_ s1).
  rewrite recordSoftFailure_loop_enters by exact Hcur.
  destruct (Z.eqb_spec 0 p); [congruence|reflexivity].
Qed.

Lemma recordHardFailure_when_hard (p : Z) (n : nat) (s : TkoTracker) :
  isHardTko s = true ->
  recordHardFailure p n s
  = Some (false,
          set_consecutiveFailureCount
            (wrap (consecutiveFailureCount_ s + 1)) s).
Proof.
  intros H. unfold recordHardFailure. run_monad.
  set (s1 := set_consecutiveFailureCount _ s).
  change (isHardTko s1) with (isHardTko s). rewrite H. reflexivity.
Qed.

Lemma recordHardFailure_upgrades (p : Z) (n : nat) (s : TkoTracker) :
  isHardTko s = false ->
  isResponsible p s = true ->
  softTkos (globalTkos_ s) <> 0 ->
  recordHardFailure p n s
  = Some (false,
          set_hardTkos (wrap (hardTkos (globalTkos_ s) + 1))
            (set_softTkos (wrap (softTkos (globalTkos_ s) - 1))
               (set_sumFailures (Z.lor (sumFailures_ s) 1)
                  (set_consecutiveFailureCount
                     (wrap (consecutiveFailureCount_ s + 1)) s)))).
Proof.
  intros Hh Hr Hs. unfold recordHardFailure. run_monad.
  set (s1 := set_consecutiveFailureCount _ s).
  change (isHardTko s1) with (isHardTko s). rewrite Hh.
  change (isResponsible p s1) with (isResponsible p s). rewrite Hr.
  simpl. destruct (Z.eqb_spec (softTkos (globalTkos_ s)) 0); [contradiction|].
  reflexivity.
Qed.

Lemma recordHardFailure_enters (p : Z) (n : nat) (s : TkoTracker) :
  isTko s = false ->
  isResponsible p s = false ->
  recordHardFailure p n s
  = Some (true,
          set_hardTkos (wrap (hardTkos (globalTkos_ s) + 1))
            (set_sumFailures (Z.lor p 1)
               (set_consecutiveFailureCount
                  (wrap (consecutiveFailureCount_ s + 1)) s))).
Proof.
  intros Ht Hr. unfold recordHardFailure. run_monad.
  set (s1 := set_consecutiveFailureCount _ s).
  assert (Hh : isHardTko s1 = false).
  { unfold isHardTko, isTko in *. simpl. rewrite Ht. reflexivity. }
  rewrite Hh.
  change (isResponsible p s1) with (isResponsible p s). rewrite Hr.
  rewrite setSumFailures_not_tko by exact Ht. reflexivity.
Qed.

Lemma recordHardFailure_refused (p : Z) (n : nat) (s : TkoTracker) :
  isSoftTko s = true ->
  isResponsible p s = false ->
  recordHardFailure p n s
  = Some (false,
          set_consecutiveFailureCount
            (wrap (consecutiveFailureCount_ s + 1)) s).
Proof.
  intros Hs Hr. unfold recordHardFailure. run_monad.
  set (s1 := set_consecutiveFailureCount _ s).
  change (isHardTko s1) with (isHardTko s).
  rewrite (soft_excludes_hard s Hs).
  change (isResponsible p s1) with (isResponsible p s). rewrite Hr.
  rewrite setSumFailures_tko by (apply soft_is_tko; exact Hs). reflexivity.
Qed.

Lemma recordSuccess_responsible (p : Z) (n : nat) (s : TkoTracker) :
  isResponsible p s = true ->
  (isSoftTko s = true -> softTkos (globalTkos_ s) <> 0) ->
  recordSuccess p n s
  = Some (true,
          mkTkoTracker (tkoThreshold_ s) 0 0
            (mkTkoCounters
               (if isSoftTko s then wrap (softTkos (globalTkos_ s) - 1)
                else softTkos (globalTkos_ s))
               (if isHardTko s then wrap (hardTkos (globalTkos_ s) - 1)
                else hardTkos (globalTkos_ s)))).
Proof.
  intros Hr Hs. unfold recordSuccess. run_monad. rewrite Hr.
  destruct (isSoftTko s) eqn:Hsoft.
  - specialize (Hs eq_refl). simpl.
    destruct (Z.eqb_spec (softTkos (globalTkos_ s)) 0); [contradiction|].
    simpl. set (s1 := set_softTkos _ s).
    change (isHardTko s1) with (isHardTko s).
    rewrite (soft_excludes_hard s Hsoft). reflexivity.
  - destruct (isHardTko s); destruct s as [t w c [so ha]]; reflexivity.
Qed.

Lemma recordSuccess_not_responsible (p : Z) (n : nat) (s : TkoTracker) :
  isResponsible p s = false ->
  recordSuccess p n s
  = Some (false,
          if negb (sumFailures_ s =? 0) && negb (isTko s)
          then set_consecutiveFailureCount 0 (set_sumFailures 0 s)
          else s).
Proof.
  intros Hr. unfold recordSuccess. run_monad. rewrite Hr.
  destruct (sumFailures_ s =? 0); simpl; [reflexivity|].
  destruct (isTko s) eqn:Ht; simpl.
  - rewrite setSumFailures_tko by exact Ht. reflexivity.
  - rewrite setSumFailures_not_tko by exact Ht. reflexivity.
Qed.

Lemma removeDestination_responsible (p : Z) (n : nat) (s : TkoTracker) :
  isResponsible p s = true ->
  removeDestination p n s = recordSuccess p n s.
Proof. intros Hr. unfold removeDestination, bind, get. rewrite Hr. reflexivity. Qed.

Lemma removeDestination_not_responsible (p : Z) (n : nat) (s : TkoTracker) :
  isResponsible p s = false ->
  removeDestination p n s = Some (false, s).
Proof. intros Hr. unfold removeDestination, bind, get. rewrite Hr. reflexivity. Qed.

(** * Claims about a single call *)

(** C2.  In every TKO state in which [d] is responsible (with the soft
    counter accounting for the soft TKO), [recordSuccess d] returns [true],
    decrements [soft_tkos] if the tracker was in soft TKO and [hard_tkos] if
    it was in hard TKO, and stores [sum_failures = 0] and
    [consecutive_failure_count = 0]; the tracker is then out of TKO.  Applied
    to the soft TKO entered by [A], this leaves [soft_tkos = 0]. *)
Theorem recordSuccess_clears_tko :
  forall (d : Z) (n : nat) (s : TkoTracker),
    wf_tracker s ->
    isTko s = true ->
    isResponsible d s = true ->
    (isSoftTko s = true -> softTkos (globalTkos_ s) <> 0) ->
    exists s',
      recordSuccess d n s = Some (true, s') /\
      softTkos (globalTkos_ s')
      = (if isSoftTko s then softTkos (globalTkos_ s) - 1
         else softTkos (globalTkos_ s)) /\
      hardTkos (globalTkos_ s')
      = (if isHardTko s then wrap (hardTkos (globalTkos_ s) - 1)
         else hardTkos (globalTkos_ s)) /\
      sumFailures_ s' = 0 /\
      consecutiveFailureCount_ s' = 0 /\
      tkoThreshold_ s' = tkoThreshold_ s /\
      isTko s' = false.
Proof.
  intros d n s (Ht & Hw & Hc & Hso & Hha) Htko Hr Hsoft.
  eexists. split; [apply recordSuccess_responsible; assumption|].
  fields. repeat split.
  - destruct (isSoftTko s) eqn:E; [|reflexivity].
    specialize (Hsoft eq_refl). apply wrap_small. word_lia.
  - apply isTko_false. fields. word_lia.
Qed.

(** C3.  In soft TKO with [d] responsible, [recordHardFailure d] upgrades in
    place: the low bit of [sum_failures] is set, [soft_tkos] goes down by one,
    [hard_tkos] up by one, and the call returns [false]; afterwards the
    tracker is in hard TKO, not in soft TKO, and [d] is still responsible. *)
Theorem recordHardFailure_upgrades_in_place :
  forall (d : Z) (n : nat) (s : TkoTracker),
    wf_tracker s ->
    isSoftTko s = true ->
    isResponsible d s = true ->
    softTkos (globalTkos_ s) <> 0 ->
    exists s',
      recordHardFailure d n s = Some (false, s') /\
      sumFailures_ s' = Z.lor (sumFailures_ s) 1 /\
      Z.testbit (sumFailures_ s') 0 = true /\
      softTkos (globalTkos_ s') = softTkos (globalTkos_ s) - 1 /\
      hardTkos (globalTkos_ s') = wrap (hardTkos (globalTkos_ s) + 1) /\
      isHardTko s' = true /\
      isSoftTko s' = false /\
      isResponsible d s' = true.
Proof.
  intros d n s (Ht & Hw & Hc & Hso & Hha) Hsoft Hr Hne.
  pose proof (soft_excludes_hard s Hsoft) as Hnh.
  apply isSoftTko_true in Hsoft. destruct Hsoft as [Hlt Heven].
  apply isResponsible_true in Hr; [|exact Hw].
  assert (Hlor : Z.lor (sumFailures_ s) 1 = sumFailures_ s + 1).
  { rewrite lor_one by word_lia. lia. }
  assert (Hhard' : forall s', tkoThreshold_ s' = tkoThreshold_ s ->
            sumFailures_ s' = Z.lor (sumFailures_ s) 1 -> isHardTko s' = true).
  { intros s' Et Es. apply isHardTko_true. rewrite Et, Es, Hlor. word_lia. }
  eexists. split.
  { apply recordHardFailure_upgrades; [exact Hnh| |exact Hne].
    apply isResponsible_true; assumption. }
  fields. repeat split.
  - rewrite Z.lor_spec. apply orb_true_r.
  - apply wrap_small. word_lia.
  - apply Hhard'; reflexivity.
  - apply hard_excludes_soft. apply Hhard'; reflexivity.
  - apply isResponsible_true; fields; rewrite Hlor; word_lia.
Qed.

(** C5.  On a fresh tracker a single [recordHardFailure A] returns [true]
    whatever the threshold below the destination's address; afterwards the
    tracker is in hard TKO with [A] responsible, [hard_tkos = 1] and
    [soft_tkos = 0]. *)
Theorem recordHardFailure_bypasses_threshold :
  forall (t A : Z) (n : nat),
    0 <= t ->
    Z.even A = true ->
    t < A < word_modulus ->
    exists s',
      recordHardFailure A n (fresh t) = Some (true, s') /\
      isHardTko s' = true /\
      isResponsible A s' = true /\
      hardTkos (globalTkos_ s') = 1 /\
      softTkos (globalTkos_ s') = 0.
Proof.
  intros t A n Ht He HA.
  assert (Hlor : Z.lor A 1 = A + 1) by (apply lor_one_even; [lia|exact He]).
  pose proof (even_mod2 A He) as Hmod.
  eexists. split.
  { apply recordHardFailure_enters.
    - apply isTko_false. fields. exact Ht.
    - unfold isResponsible. fields. rewrite Z.land_0_l. apply Z.eqb_neq. lia. }
  fields. repeat split.
  - apply isHardTko_true. fields. rewrite Hlor. word_lia.
  - apply isResponsible_true; fields; rewrite Hlor; word_lia.
Qed.

(** A threshold at or above the destination's address is outside the
    encoding: the hard failure is still recorded and counted, but the tracker
    does not read as TKO. *)
Remark recordHardFailure_threshold_above_token :
  exists s',
    recordHardFailure token_A 0 (fresh token_B) = Some (true, s') /\
    hardTkos (globalTkos_ s') = 1 /\
    isHardTko s' = false /\
    isTko s' = false.
Proof. eexists. split; [vm_compute; reflexivity|]. repeat split. Qed.

(** * The code simulates the abstract machine *)

Section Simulation.

Variable t : Z.
Hypothesis Ht : 1 <= t < word_modulus.

Lemma counting_observed (k : Z) (s : TkoTracker) :
  represents t (Counting k) s ->
  isTko s = false /\ isHardTko s = false /\ isSoftTko s = false /\
  forall p, valid_token t p -> isResponsible p s = false.
Proof using Ht.
  intros (Et & Es & _ & Hk & _). cbn [encode] in Es.
  assert (Htko : isTko s = false) by (apply isTko_false; lia).
  repeat split.
  - exact Htko.
  - unfold isHardTko, isTko in *. cbv zeta. rewrite Htko. reflexivity.
  - unfold isSoftTko, isTko in *. cbv zeta. rewrite Htko. reflexivity.
  - intros p (_ & Hp). unfold isResponsible.
    rewrite land_not_one by (rewrite Es; word_lia).
    apply Z.eqb_neq. rewrite Es. word_lia.
Qed.

Lemma soft_observed (d : Z) (s : TkoTracker) :
  represents t (SoftTko d) s ->
  isSoftTko s = true /\ isHardTko s = false /\ isTko s = true /\
  forall p, isResponsible p s = (d =? p).
Proof using Ht.
  intros (Et & Es & _ & (He & Hd) & _). cbn [encode] in Es.
  pose proof (even_mod2 d He) as Hmod.
  assert (Hsoft : isSoftTko s = true).
  { apply isSoftTko_true. rewrite Et, Es. split; [lia|exact Hmod]. }
  repeat split.
  - exact Hsoft.
  - apply soft_excludes_hard. exact Hsoft.
  - apply soft_is_tko. exact Hsoft.
  - intros p. unfold isResponsible.
    rewrite land_not_one by (rewrite Es; word_lia).
    rewrite Es. f_equal. word_lia.
Qed.

Lemma hard_observed (d : Z) (s : TkoTracker) :
  represents t (HardTko d) s ->
  isHardTko s = true /\ isSoftTko s = false /\ isTko s = true /\
  forall p, isResponsible p s = (d =? p).
Proof using Ht.
  intros (Et & Es & _ & (He & Hd) & _). cbn [encode] in Es.
  rewrite lor_one_even in Es by (assumption || lia).
  pose proof (even_mod2 d He) as Hmod.
  assert (Hhard : isHardTko s = true).
  { apply isHardTko_true. rewrite Et, Es. split; [lia|word_lia]. }
  repeat split.
  - exact Hhard.
  - apply hard_excludes_soft. exact Hhard.
  - apply isTko_true. rewrite Et, Es. lia.
  - intros p. unfold isResponsible.
    rewrite land_not_one by (rewrite Es; word_lia).
    rewrite Es. f_equal. word_lia.
Qed.

Ltac rep_finish :=
  repeat split; auto; try apply wrap_is_word;
  unfold is_word, valid_token in *; intuition lia.

Ltac log_fields :=
  unfold next_count, counter_cleared;
  cbn [ev_call ev_result ev_before is_failure_call negb andb orb].

Lemma recordSoftFailure_simulates (p : Z) (n : nat) (ph : Phase)
    (s : TkoTracker) :
  let c := RecordSoftFailure p n in
  represents t ph s ->
  valid_token t p ->
  exists s',
    call c s = Some (fst (phase_step t c ph), s') /\
    represents t (snd (phase_step t c ph)) s' /\
    consecutiveFailureCount_ s'
    = next_count (mkEvent c s (fst (phase_step t c ph)))
        (consecutiveFailureCount_ s).
Proof using Ht.
  intros c Hrep Hval. subst c. cbn [call].
  pose proof Hval as (He & Hp).
  destruct ph as [k|d|d].
  - destruct (counting_observed k s Hrep) as (Htko & _ & _ & _).
    destruct Hrep as (Et & Es & Hc & Hk & Hg). cbn [encode] in Es.
    cbn [phase_step]. destruct (Z.eqb_spec k (t - 1)) as [Ek|Ek]; cbn [fst snd].
    + eexists. split; [|split].
      * apply recordSoftFailure_enters; [exact Htko| |lia].
        rewrite Et, Es, Ek. symmetry. apply wrap_small. word_lia.
      * unfold represents. fields. rewrite Hg. fields.
        repeat split; auto; try apply wrap_is_word; lia.
      * log_fields. reflexivity.
    + eexists. split; [|split].
      * apply recordSoftFailure_counts; [exact Htko| |lia|].
        -- rewrite Et, Es. rewrite wrap_small by word_lia. exact Ek.
        -- rewrite Es. rewrite wrap_small by word_lia. lia.
      * unfold represents. fields. rewrite Es.
        rewrite (wrap_small (k + 1)) by word_lia. cbn [encode].
        repeat split; auto; try apply wrap_is_word; lia.
      * log_fields. reflexivity.
  - destruct (soft_observed d s Hrep) as (_ & _ & Htko & _).
    cbn [phase_step fst snd]. eexists. split; [|split].
    + apply recordSoftFailure_when_tko. exact Htko.
    + destruct Hrep as (Et & Es & Hc & Hk & Hg).
      unfold represents. fields. repeat split; auto; try apply wrap_is_word;
        apply Hk.
    + log_fields. reflexivity.
  - destruct (hard_observed d s Hrep) as (_ & _ & Htko & _).
    cbn [phase_step fst snd]. eexists. split; [|split].
    + apply recordSoftFailure_when_tko. exact Htko.
    + destruct Hrep as (Et & Es & Hc & Hk & Hg).
      unfold represents. fields. repeat split; auto; try apply wrap_is_word;
        apply Hk.
    + log_fields. reflexivity.
Qed.

Lemma recordHardFailure_simulates (p : Z) (n : nat) (ph : Phase)
    (s : TkoTracker) :
  let c := RecordHardFailure p n in
  represents t ph s ->
  valid_token t p ->
  exists s',
    call c s = Some (fst (phase_step t c ph), s') /\
    represents t (snd (phase_step t c ph)) s' /\
    consecutiveFailureCount_ s'
    = next_count (mkEvent c s (fst (phase_step t c ph)))
        (consecutiveFailureCount_ s).
Proof using Ht.
  intros c Hrep Hval. subst c. cbn [call].
  destruct ph as [k|d|d].
  - destruct (counting_observed k s Hrep) as (Htko & _ & _ & Hresp).
    destruct Hrep as (Et & Es & Hc & Hk & Hg).
    cbn [phase_step fst snd]. eexists. split; [|split].
    + apply recordHardFailure_enters; [exact Htko|apply Hresp; exact Hval].
    + unfold represents. fields. rewrite Hg. fields.
      rep_finish.
    + log_fields. reflexivity.
  - destruct (soft_observed d s Hrep) as (Hsoft & Hhard & Htko & Hresp).
    destruct Hrep as (Et & Es & Hc & Hk & Hg). cbn [encode] in Es.
    cbn [phase_step]. destruct (Z.eqb_spec d p) as [Edp|Edp]; cbn [fst snd].
    + eexists. split; [|split].
      * apply recordHardFailure_upgrades; [exact Hhard| |].
        -- rewrite Hresp. apply Z.eqb_eq. exact Edp.
        -- rewrite Hg. discriminate.
      * unfold represents. fields. rewrite Hg, Es, Edp. fields.
        rep_finish.
      * log_fields. reflexivity.
    + eexists. split; [|split].
      * apply recordHardFailure_refused; [exact Hsoft|].
        rewrite Hresp. apply Z.eqb_neq. exact Edp.
      * unfold represents. fields.
        rep_finish.
      * log_fields. reflexivity.
  - destruct (hard_observed d s Hrep) as (Hhard & _ & _ & _).
    destruct Hrep as (Et & Es & Hc & Hk & Hg).
    cbn [phase_step fst snd]. eexists. split; [|split].
    + apply recordHardFailure_when_hard. exact Hhard.
    + unfold represents. fields.
      rep_finish.
    + log_fields. reflexivity.
Qed.

Lemma recordSuccess_simulates (p : Z) (n : nat) (ph : Phase)
    (s : TkoTracker) :
  let c := RecordSuccess p n in
  represents t ph s ->
  valid_token t p ->
  exists s',
    call c s = Some (fst (phase_step t c ph), s') /\
    represents t (snd (phase_step t c ph)) s' /\
    consecutiveFailureCount_ s'
    = next_count (mkEvent c s (fst (phase_step t c ph)))
        (consecutiveFailureCount_ s).
Proof using Ht.
  intros c Hrep Hval. subst c. cbn [call].
  destruct ph as [k|d|d].
  - destruct (counting_observed k s Hrep) as (Htko & _ & _ & Hresp).
    destruct Hrep as (Et & Es & Hc & Hk & Hg). cbn [encode] in Es.
    cbn [phase_step fst snd]. eexists. split; [|split].
    + apply recordSuccess_not_responsible. apply Hresp. exact Hval.
    + rewrite Htko. cbn [negb]. rewrite andb_true_r.
      destruct (Z.eqb_spec (sumFailures_ s) 0) as [E0|E0]; cbn [negb].
      * unfold represents. rewrite E0. cbn [encode].
        rep_finish.
      * unfold represents. fields. cbn [encode].
        rep_finish.
    + log_fields. rewrite Htko. cbn [negb]. rewrite andb_true_r.
      destruct (sumFailures_ s =? 0); reflexivity.
  - destruct (soft_observed d s Hrep) as (Hsoft & Hhard & Htko & Hresp).
    destruct Hrep as (Et & Es & Hc & Hk & Hg). cbn [encode] in Es.
    cbn [phase_step]. destruct (Z.eqb_spec d p) as [Edp|Edp]; cbn [fst snd].
    + eexists. split; [|split].
      * apply recordSuccess_responsible.
        -- rewrite Hresp. apply Z.eqb_eq. exact Edp.
        -- intros _. rewrite Hg. discriminate.
      * rewrite Hsoft, Hhard, Hg. unfold represents. fields. cbn [encode].
        rep_finish.
      * log_fields. reflexivity.
    + eexists. split; [|split].
      * apply recordSuccess_not_responsible.
        rewrite Hresp. apply Z.eqb_neq. exact Edp.
      * rewrite Htko. cbn [negb]. rewrite andb_false_r.
        unfold represents. rep_finish.
      * log_fields. rewrite Htko. cbn [negb]. rewrite andb_false_r.
        reflexivity.
  - destruct (hard_observed d s Hrep) as (Hhard & Hsoft & Htko & Hresp).
    destruct Hrep as (Et & Es & Hc & Hk & Hg).
    cbn [phase_step]. destruct (Z.eqb_spec d p) as [Edp|Edp]; cbn [fst snd].
    + eexists. split; [|split].
      * apply recordSuccess_responsible.
        -- rewrite Hresp. apply Z.eqb_eq. exact Edp.
        -- rewrite Hsoft. discriminate.
      * rewrite Hsoft, Hhard, Hg. unfold represents. fields. cbn [encode].
        rep_finish.
      * log_fields. reflexivity.
    + eexists. split; [|split].
      * apply recordSuccess_not_responsible.
        rewrite Hresp. apply Z.eqb_neq. exact Edp.
      * rewrite Htko. cbn [negb]. rewrite andb_false_r.
        unfold represents. rep_finish.
      * log_fields. rewrite Htko. cbn [negb]. rewrite andb_false_r.
        reflexivity.
Qed.

Lemma removeDestination_simulates (p : Z) (n : nat) (ph : Phase)
    (s : TkoTracker) :
  let c := RemoveDestination p n in
  represents t ph s ->
  valid_token t p ->
  exists s',
    call c s = Some (fst (phase_step t c ph), s') /\
    represents t (snd (phase_step t c ph)) s' /\
    consecutiveFailureCount_ s'
    = next_count (mkEvent c s (fst (phase_step t c ph)))
        (consecutiveFailureCount_ s).
Proof using Ht.
  intros c Hrep Hval. subst c. cbn [call].
  assert (Htko_case : forall d,
            owner ph = Some d ->
            (forall q, isResponsible q s = (d =? q)) ->
            phase_step t (RemoveDestination p n) ph
            = phase_step t (RecordSuccess p n) ph ->
            exists s',
              removeDestination p n s
              = Some (fst (phase_step t (RemoveDestination p n) ph), s') /\
              represents t (snd (phase_step t (RemoveDestination p n) ph)) s' /\
              consecutiveFailureCount_ s'
              = next_count
                  (mkEvent (RemoveDestination p n) s
                     (fst (phase_step t (RemoveDestination p n) ph)))
                  (consecutiveFailureCount_ s)).
  { intros d Hown Hresp Hsame.
    destruct (recordSuccess_simulates p n ph s Hrep Hval) as (s' & Hcall & Hrep' & Hcount).
    cbn [call] in Hcall. rewrite Hsame.
    destruct (Z.eqb_spec d p) as [Edp|Edp].
    - exists s'. split; [|split].
      + rewrite removeDestination_responsible; [exact Hcall|].
        rewrite Hresp. apply Z.eqb_eq. exact Edp.
      + exact Hrep'.
      + rewrite Hcount. subst d.
        destruct ph as [k|o|o]; try discriminate;
          injection Hown as ->; cbn [phase_step]; rewrite Z.eqb_refl;
          reflexivity.
    - exists s. split; [|split].
      + rewrite removeDestination_not_responsible.
        * destruct ph as [k|o|o]; try discriminate;
            injection Hown as ->; cbn [phase_step];
            destruct (Z.eqb_spec d p); [contradiction|reflexivity|contradiction|reflexivity].
        * rewrite Hresp. apply Z.eqb_neq. exact Edp.
      + destruct ph as [k|o|o]; try discriminate;
          injection Hown as ->; cbn [phase_step];
          destruct (Z.eqb_spec d p); try contradiction; exact Hrep.
      + destruct ph as [k|o|o]; try discriminate;
          injection Hown as ->; cbn [phase_step];
          destruct (Z.eqb_spec d p); try contradiction; reflexivity. }
  destruct ph as [k|d|d].
  - destruct (counting_observed k s Hrep) as (_ & _ & _ & Hresp).
    cbn [phase_step fst snd]. exists s. split; [|split].
    + apply removeDestination_not_responsible. apply Hresp. exact Hval.
    + exact Hrep.
    + reflexivity.
  - apply (Htko_case d); [reflexivity| |reflexivity].
    apply (soft_observed d s Hrep).
  - apply (Htko_case d); [reflexivity| |reflexivity].
    apply (hard_observed d s Hrep).
Qed.

Lemma call_simulates (c : Call) (ph : Phase) (s : TkoTracker) :
  represents t ph s ->
  valid_token t (call_pdstn c) ->
  exists s',
    call c s = Some (fst (phase_step t c ph), s') /\
    represents t (snd (phase_step t c ph)) s' /\
    consecutiveFailureCount_ s'
    = next_count (mkEvent c s (fst (phase_step t c ph)))
        (consecutiveFailureCount_ s).
Proof using Ht.
  destruct c as [p n|p n|p n|p n]; cbn [call_pdstn].
  - apply recordSoftFailure_simulates.
  - apply recordHardFailure_simulates.
  - apply recordSuccess_simulates.
  - apply removeDestination_simulates.
Qed.

End Simulation.

(** * Call sequences *)

Lemma run_app (cs1 cs2 : list Call) (s : TkoTracker) :
  run (cs1 ++ cs2) s
  = match run cs1 s with
    | Some (log1, s1) =>
        match run cs2 s1 with
        | Some (log2, s2) => Some (log1 ++ log2, s2)
        | None => None
        end
    | None => None
    end.
Proof.
  revert s. induction cs1 as [|c cs1 IH]; intros s; cbn [run app].
  - unfold ret. destruct (run cs2 s) as [[log2 s2]|]; reflexivity.
  - unfold bind, get, ret. destruct (call c s) as [[r s1]|]; [|reflexivity].
    rewrite IH. destruct (run cs1 s1) as [[log1 s2]|]; [|reflexivity].
    destruct (run cs2 s2) as [[log2 s3]|]; reflexivity.
Qed.

Lemma run_cons (c : Call) (cs : list Call) (s : TkoTracker) :
  run (c :: cs) s
  = match call c s with
    | Some (r, s1) =>
        match run cs s1 with
        | Some (log, s2) => Some (mkEvent c s r :: log, s2)
        | None => None
        end
    | None => None
    end.
Proof. reflexivity. Qed.

Lemma next_count_of_nat (e : Event) (n : nat) :
  next_count e (wrap (Z.of_nat n)) = wrap (Z.of_nat (count_step n e)).
Proof.
  unfold next_count, count_step.
  destruct (counter_cleared e); [reflexivity|].
  destruct (is_failure_call (ev_call e)); [|reflexivity].
  rewrite wrap_add_wrap, Nat2Z.inj_succ. reflexivity.
Qed.

Lemma count_step_bound (log : list Event) :
  forall n, (fold_left count_step log n <= n + length log)%nat.
Proof.
  induction log as [|e log IH]; intros n; cbn [fold_left length]; [lia|].
  specialize (IH (count_step n e)).
  assert (count_step n e <= S n)%nat.
  { unfold count_step. destruct (counter_cleared e); [lia|].
    destruct (is_failure_call (ev_call e)); lia. }
  lia.
Qed.

Lemma phase_step_owner (t : Z) (c : Call) (ph : Phase) (s : TkoTracker) :
  owner (snd (phase_step t c ph))
  = tko_owner_step (owner ph) (mkEvent c s (fst (phase_step t c ph))).
Proof.
  unfold tko_owner_step. cbn [ev_call ev_result].
  destruct c as [p n|p n|p n|p n]; destruct ph as [k|d|d];
    cbn [phase_step is_failure_call call_pdstn owner fst snd];
    try reflexivity;
    match goal with
    | |- context [?a =? ?b] =>
        destruct (Z.eqb_spec a b); subst; reflexivity
    end.
Qed.

Section Sequences.

Variable t : Z.
Hypothesis Ht : 1 <= t < word_modulus.

Lemma fresh_represents : represents t (Counting 0) (fresh t).
Proof using Ht.
  unfold represents. fields. cbn [encode].
  repeat split; auto; unfold is_word in *; lia.
Qed.

(** Every sequence of calls by valid destinations runs to completion, and
    the tracker follows the abstract machine. *)
Lemma run_simulates (cs : list Call) :
  forall (ph : Phase) (s : TkoTracker),
    represents t ph s ->
    Forall (fun c => valid_token t (call_pdstn c)) cs ->
    exists log s' ph',
      run cs s = Some (log, s') /\
      map ev_call log = cs /\
      represents t ph' s' /\
      owner ph' = fold_left tko_owner_step log (owner ph) /\
      forall n,
        consecutiveFailureCount_ s = wrap (Z.of_nat n) ->
        consecutiveFailureCount_ s'
        = wrap (Z.of_nat (fold_left count_step log n)).
Proof using Ht.
  induction cs as [|c cs IH]; intros ph s Hrep Hall.
  - exists [], s, ph. cbn [run fold_left map]. unfold ret. auto.
  - inversion Hall as [|c' cs' Hc Hcs]; subst.
    destruct (call_simulates t Ht c ph s Hrep Hc) as (s1 & Hcall & Hrep1 & Hcount).
    destruct (IH _ _ Hrep1 Hcs) as (log & s2 & ph2 & Hrun & Hmap & Hrep2 & Hown & Hcnt).
    exists (mkEvent c s (fst (phase_step t c ph)) :: log), s2, ph2.
    rewrite run_cons, Hcall, Hrun. cbn [map fold_left ev_call].
    split; [reflexivity|]. split; [rewrite Hmap; reflexivity|].
    split; [exact Hrep2|]. split.
    + rewrite Hown. f_equal. apply phase_step_owner.
    + intros n Hn. apply Hcnt. rewrite Hcount, Hn. apply next_count_of_nat.
Qed.

Lemma run_soft_failures_counting (ds : list (Z * nat)) :
  forall (k : Z) (s : TkoTracker),
    represents t (Counting k) s ->
    Forall (fun dn => valid_token t (fst dn)) ds ->
    k + Z.of_nat (length ds) <= t - 1 ->
    exists log s',
      run (soft_failures ds) s = Some (log, s') /\
      results log = repeat false (length ds) /\
      represents t (Counting (k + Z.of_nat (length ds))) s' /\
      consecutiveFailureCount_ s'
      = wrap (consecutiveFailureCount_ s + Z.of_nat (length ds)).
Proof using Ht.
  induction ds as [|[d n] ds IH]; intros k s Hrep Hall Hlen.
  - exists [], s. cbn [soft_failures map run length repeat results].
    unfold ret. rewrite !Z.add_0_r.
    split; [reflexivity|]. split; [reflexivity|]. split; [exact Hrep|].
    symmetry. apply wrap_small. apply Hrep.
  - inversion Hall as [|x xs Hd Hds]; subst. cbn [fst] in Hd.
    cbn [length] in Hlen. rewrite Nat2Z.inj_succ in Hlen.
    destruct (call_simulates t Ht (RecordSoftFailure d n) (Counting k) s Hrep Hd)
      as (s1 & Hcall & Hrep1 & Hcount).
    cbn [phase_step] in Hcall, Hrep1, Hcount.
    destruct (Z.eqb_spec k (t - 1)) as [Ek|Ek]; [lia|].
    cbn [fst snd] in Hcall, Hrep1, Hcount.
    destruct (IH (k + 1) s1 Hrep1 Hds ltac:(lia)) as (log & s2 & Hrun & Hres & Hrep2 & Hcnt).
    exists (mkEvent (RecordSoftFailure d n) s false :: log), s2.
    cbn [soft_failures map fst snd]. fold (soft_failures ds).
    rewrite run_cons, Hcall, Hrun.
    cbn [results map ev_result length repeat]. fold (results log).
    rewrite Hres, Nat2Z.inj_succ.
    replace (k + Z.succ (Z.of_nat (length ds)))
      with (k + 1 + Z.of_nat (length ds)) by lia.
    split; [reflexivity|]. split; [reflexivity|]. split; [exact Hrep2|].
    rewrite Hcnt, Hcount. unfold next_count, counter_cleared.
    cbn [ev_call is_failure_call]. rewrite wrap_add_wrap. f_equal. lia.
Qed.

(** After [t - 1] soft failures the next one enters soft TKO. *)
Lemma soft_tko_entry (ds : list (Z * nat)) (A : Z) (n : nat) :
  Z.of_nat (length ds) = t - 1 ->
  Forall (fun dn => valid_token t (fst dn)) ds ->
  valid_token t A ->
  exists log s,
    run (soft_failures ds ++ [RecordSoftFailure A n]) (fresh t)
    = Some (log, s) /\
    results log = repeat false (length ds) ++ [true] /\
    represents t (SoftTko A) s /\
    consecutiveFailureCount_ s = t.
Proof using Ht.
  intros Hlen Hall HA.
  destruct (run_soft_failures_counting ds 0 (fresh t) fresh_represents Hall
              ltac:(lia)) as (log & s1 & Hrun & Hres & Hrep1 & Hcnt).
  rewrite Z.add_0_l, Hlen in Hrep1.
  destruct (call_simulates t Ht (RecordSoftFailure A n) _ s1 Hrep1 HA)
    as (s2 & Hcall & Hrep2 & Hcount).
  cbn [phase_step] in Hcall, Hrep2, Hcount. rewrite Z.eqb_refl in *.
  cbn [fst snd] in Hcall, Hrep2, Hcount.
  exists (log ++ [mkEvent (RecordSoftFailure A n) s1 true]), s2.
  rewrite run_app, Hrun, run_cons, Hcall. cbn [run]. unfold ret.
  unfold results in *. rewrite map_app, Hres. cbn [map ev_result].
  split; [reflexivity|]. split; [reflexivity|]. split; [exact Hrep2|].
  rewrite Hcount, Hcnt. unfold next_count, counter_cleared.
  cbn [ev_call is_failure_call]. fields. rewrite wrap_add_wrap, Hlen.
  replace (0 + (t - 1) + 1) with t by lia.
  apply wrap_small. unfold is_word. lia.
Qed.

End Sequences.

(** * Claims about call sequences *)

Lemma represents_soft_facts (t A : Z) (s : TkoTracker) :
  1 <= t < word_modulus ->
  represents t (SoftTko A) s ->
  isSoftTko s = true /\ isTko s = true /\ isResponsible A s = true /\
  sumFailures_ s = A /\
  softTkos (globalTkos_ s) = 1 /\ hardTkos (globalTkos_ s) = 0.
Proof.
  intros Ht Hrep.
  destruct (soft_observed t Ht A s Hrep) as (Hsoft & _ & Htko & Hresp).
  destruct Hrep as (_ & Es & _ & _ & Hg).
  rewrite Hresp, Z.eqb_refl, Hg. auto 10.
Qed.

(** C1.  On a fresh tracker with threshold [t >= 1], after [t - 1] soft
    failures (by any valid destinations, each returning [false]) the [t]-th
    consecutive soft failure, by [A], returns [true] and enters soft TKO:
    afterwards [isSoftTko] holds, [A] is responsible, [soft_tkos = 1],
    [hard_tkos = 0] and [consecutive_failure_count = t].  With [t = 4] and
    the four calls by [A] the returns are false, false, false, true. *)
Theorem soft_tko_entered_on_threshold_th_failure :
  forall (t : Z) (earlier : list (Z * nat)) (A : Z) (n : nat),
    1 <= t < word_modulus ->
    Z.of_nat (length earlier) = t - 1 ->
    Forall (fun dn => valid_token t (fst dn)) earlier ->
    valid_token t A ->
    exists log s,
      run (soft_failures earlier ++ [RecordSoftFailure A n]) (fresh t)
      = Some (log, s) /\
      results log = repeat false (length earlier) ++ [true] /\
      isSoftTko s = true /\
      isResponsible A s = true /\
      softTkos (globalTkos_ s) = 1 /\
      hardTkos (globalTkos_ s) = 0 /\
      consecutiveFailureCount_ s = t.
Proof.
  intros t earlier A n Ht Hlen Hall HA.
  destruct (soft_tko_entry t Ht earlier A n Hlen Hall HA)
    as (log & s & Hrun & Hres & Hrep & Hcnt).
  destruct (represents_soft_facts t A s Ht Hrep)
    as (Hsoft & _ & Hresp & _ & Hso & Hha).
  exists log, s. auto 10.
Qed.

Lemma results_before_threshold (t : Z) (m : nat) :
  Z.of_nat m < t ->
  map (fun i => Z.of_nat (S i) =? t) (seq 0 m) = repeat false m.
Proof.
  induction m as [|m IH]; intros Hm; [reflexivity|].
  rewrite seq_S, map_app, IH by lia. cbn [map Nat.add].
  destruct (Z.eqb_spec (Z.of_nat (S m)) t); [lia|].
  change [false] with (repeat false 1). rewrite <- repeat_app.
  f_equal. lia.
Qed.

(** C6, amended.  For every threshold [t >= 1], among the first [t]
    consecutive soft failures on a fresh tracker the [k]-th call returns
    [true] exactly when [k = t], and the tracker is in soft TKO after
    [k] calls exactly when [k = t]: soft TKO is entered on the [t]-th
    failure, not earlier and not one later. *)
Theorem soft_tko_entered_exactly_at_threshold :
  forall (t : Z) (ds : list (Z * nat)),
    1 <= t < word_modulus ->
    Forall (fun dn => valid_token t (fst dn)) ds ->
    Z.of_nat (length ds) <= t ->
    exists log s,
      run (soft_failures ds) (fresh t) = Some (log, s) /\
      results log = map (fun i => Z.of_nat (S i) =? t) (seq 0 (length ds)) /\
      isSoftTko s = (Z.of_nat (length ds) =? t).
Proof.
  intros t ds Ht Hall Hlen.
  destruct (Z.eqb_spec (Z.of_nat (length ds)) t) as [Et|Et].
  - assert (Hne : ds <> []) by (intros ->; cbn [length] in Et; lia).
    destruct (exists_last Hne) as (ds' & [A n] & ->).
    rewrite length_app in *. cbn [length] in *.
    apply Forall_app in Hall. destruct Hall as [Hall HA].
    pose proof (Forall_inv HA) as HA'. cbn [fst] in HA'.
    destruct (soft_tko_entry t Ht ds' A n ltac:(lia) Hall HA')
      as (log & s & Hrun & Hres & Hrep & _).
    exists log, s. unfold soft_failures in *. rewrite map_app. cbn [map fst snd].
    split; [exact Hrun|]. split.
    + rewrite Hres, Nat.add_1_r, seq_S, map_app.
      rewrite results_before_threshold by lia. cbn [map Nat.add].
      destruct (Z.eqb_spec (Z.of_nat (S (length ds'))) t); [reflexivity|lia].
    + apply (represents_soft_facts t A s Ht Hrep).
  - destruct (run_soft_failures_counting t Ht ds 0 (fresh t)
                (fresh_represents t Ht) Hall ltac:(lia))
      as (log & s & Hrun & Hres & Hrep & _).
    exists log, s. split; [exact Hrun|]. split.
    + rewrite Hres. symmetry. apply results_before_threshold. lia.
    + apply (counting_observed t Ht _ s Hrep).
Qed.

(** C7, amended.  After every sequence of calls by valid destinations on a
    fresh tracker, [consecutive_failure_count] equals the number of failure
    calls made since the latest call that reset it: a [recordSuccess] or
    [removeDestination] that returned [true], or a [recordSuccess] that
    returned [false] after finding a nonzero failure count on a tracker not
    in TKO. *)
Theorem consecutiveFailureCount_counts_since_clear :
  forall (t : Z) (cs : list Call),
    1 <= t < word_modulus ->
    Forall (fun c => valid_token t (call_pdstn c)) cs ->
    Z.of_nat (length cs) < word_modulus ->
    exists log s,
      run cs (fresh t) = Some (log, s) /\
      map ev_call log = cs /\
      consecutiveFailureCount_ s = Z.of_nat (failures_since_clear log).
Proof.
  intros t cs Ht Hall Hlen.
  destruct (run_simulates t Ht cs (Counting 0) (fresh t)
              (fresh_represents t Ht) Hall)
    as (log & s & ph & Hrun & Hmap & _ & _ & Hcnt).
  exists log, s. split; [exact Hrun|]. split; [exact Hmap|].
  rewrite (Hcnt O) by reflexivity.
  apply wrap_small. unfold failures_since_clear.
  pose proof (count_step_bound log O) as Hb.
  assert (length log = length cs)
    by (rewrite <- Hmap; symmetry; apply length_map).
  unfold is_word. lia.
Qed.

(** C10.  For a threshold [t >= 1] and destinations whose addresses are
    even and greater than [t + 1], after every sequence of calls on a fresh
    tracker [sum_failures] is a failure count in [0 .. t - 1] when no
    destination holds the TKO, and otherwise the address of the destination
    that entered TKO, possibly with the low bit set; the value [t] is never
    stored, and in TKO the responsible address is [sum_failures] with the
    low bit cleared. *)
Theorem sumFailures_encoding_valid :
  forall (t : Z) (cs : list Call),
    1 <= t < word_modulus ->
    Forall (fun c => Z.even (call_pdstn c) = true /\
                     t + 1 < call_pdstn c < word_modulus) cs ->
    exists log s,
      run cs (fresh t) = Some (log, s) /\
      map ev_call log = cs /\
      sumFailures_ s <> t /\
      match tko_owner log with
      | None => 0 <= sumFailures_ s <= t - 1 /\ isTko s = false
      | Some d =>
          (sumFailures_ s = d \/ sumFailures_ s = Z.lor d 1) /\
          isTko s = true /\
          isResponsible d s = true /\
          Z.land (sumFailures_ s) not_one = d
      end.
Proof.
  intros t cs Ht Hall.
  assert (Hvalid : Forall (fun c => valid_token t (call_pdstn c)) cs).
  { eapply Forall_impl; [|exact Hall]. cbv beta. unfold valid_token.
    intros c (He & Hc). split; [exact He|lia]. }
  destruct (run_simulates t Ht cs (Counting 0) (fresh t)
              (fresh_represents t Ht) Hvalid)
    as (log & s & ph & Hrun & Hmap & Hrep & Hown & _).
  exists log, s. split; [exact Hrun|]. split; [exact Hmap|].
  unfold tko_owner. cbn [owner] in Hown. rewrite <- Hown.
  destruct ph as [k|d|d]; cbn [owner].
  - destruct (counting_observed t Ht k s Hrep) as (Htko & _).
    destruct Hrep as (_ & Es & _ & Hk & _). cbn [encode] in Es.
    rewrite Es. repeat split; try lia. exact Htko.
  - destruct (soft_observed t Ht d s Hrep) as (_ & _ & Htko & Hresp).
    specialize (Hresp d). rewrite Z.eqb_refl in Hresp.
    pose proof Hresp as Hland. unfold isResponsible in Hland.
    apply Z.eqb_eq in Hland.
    destruct Hrep as (_ & Es & _ & (_ & Hd) & _). cbn [encode] in Es.
    split; [rewrite Es; lia|]. auto.
  - destruct (hard_observed t Ht d s Hrep) as (_ & _ & Htko & Hresp).
    specialize (Hresp d). rewrite Z.eqb_refl in Hresp.
    pose proof Hresp as Hland. unfold isResponsible in Hland.
    apply Z.eqb_eq in Hland.
    destruct Hrep as (_ & Es & _ & (He & Hd) & _). cbn [encode] in Es.
    split; [|auto].
    rewrite Es, lor_one_even by (assumption || lia). lia.
Qed.

(** * Calls by a destination that is not responsible *)

Lemma call_by_other_destination (A : Z) (c : Call) (s : TkoTracker) :
  isSoftTko s = true ->
  isResponsible A s = true ->
  call_pdstn c <> A ->
  call c s
  = Some (false,
          if is_failure_call c
          then set_consecutiveFailureCount
                 (wrap (consecutiveFailureCount_ s + 1)) s
          else s).
Proof.
  intros Hsoft HA Hne.
  assert (Hresp : isResponsible (call_pdstn c) s = false).
  { unfold isResponsible in *. apply Z.eqb_eq in HA. rewrite HA.
    apply Z.eqb_neq. congruence. }
  pose proof (soft_is_tko s Hsoft) as Htko.
  destruct c as [p n|p n|p n|p n]; cbn [call call_pdstn is_failure_call] in *.
  - apply recordSoftFailure_when_tko. exact Htko.
  - apply recordHardFailure_refused; assumption.
  - rewrite recordSuccess_not_responsible by exact Hresp.
    rewrite Htko. cbn [negb]. rewrite andb_false_r. reflexivity.
  - apply removeDestination_not_responsible. exact Hresp.
Qed.

(** C4, amended.  While the tracker is in soft TKO with [A] responsible,
    calls by destinations other than [A] all return [false] and leave
    [sum_failures], the threshold and both global counters unchanged, so the
    tracker stays in soft TKO with [A] responsible; the failure calls among
    them still increment [consecutive_failure_count], one each. *)
Theorem other_destinations_cannot_steal_tko :
  forall (A : Z) (cs : list Call) (s : TkoTracker),
    is_word (consecutiveFailureCount_ s) ->
    isSoftTko s = true ->
    isResponsible A s = true ->
    Forall (fun c => call_pdstn c <> A) cs ->
    exists log s',
      run cs s = Some (log, s') /\
      results log = repeat false (length cs) /\
      tkoThreshold_ s' = tkoThreshold_ s /\
      sumFailures_ s' = sumFailures_ s /\
      globalTkos_ s' = globalTkos_ s /\
      consecutiveFailureCount_ s'
      = wrap (consecutiveFailureCount_ s + Z.of_nat (failure_calls cs)) /\
      isSoftTko s' = true /\
      isResponsible A s' = true.
Proof.
  intros A cs. induction cs as [|c cs IH]; intros s Hc Hsoft HA Hall.
  - exists [], s. cbn [run]. unfold ret, failure_calls. cbn [filter length].
    rewrite Z.add_0_r, wrap_small by exact Hc. auto 10.
  - pose proof (Forall_inv Hall) as Hne.
    pose proof (Forall_inv_tail Hall) as Hrest.
    pose proof (call_by_other_destination A c s Hsoft HA Hne) as Hcall.
    set (s1 := if is_failure_call c
               then set_consecutiveFailureCount
                      (wrap (consecutiveFailureCount_ s + 1)) s
               else s) in Hcall.
    assert (Hs1 : tkoThreshold_ s1 = tkoThreshold_ s /\
                  sumFailures_ s1 = sumFailures_ s /\
                  globalTkos_ s1 = globalTkos_ s /\
                  is_word (consecutiveFailureCount_ s1) /\
                  isSoftTko s1 = true /\ isResponsible A s1 = true).
    { subst s1. destruct (is_failure_call c); [|auto 10].
      split; [reflexivity|]. split; [reflexivity|]. split; [reflexivity|].
      split; [apply wrap_is_word|]. split; [exact Hsoft|exact HA]. }
    destruct Hs1 as (Et & Es & Eg & Hc1 & Hsoft1 & HA1).
    destruct (IH s1 Hc1 Hsoft1 HA1 Hrest)
      as (log & s' & Hrun & Hres & Et' & Es' & Eg' & Hcnt & Hsoft' & HA').
    exists (mkEvent c s false :: log), s'.
    rewrite run_cons, Hcall, Hrun.
    cbn [results map ev_result length repeat]. fold (results log).
    rewrite Hres.
    split; [reflexivity|]. split; [reflexivity|].
    split; [congruence|]. split; [congruence|]. split; [congruence|].
    split; [|auto].
    rewrite Hcnt. unfold failure_calls. cbn [filter]. subst s1.
    destruct (is_failure_call c); cbn [length]; fields.
    + rewrite wrap_add_wrap, Nat2Z.inj_succ. f_equal. lia.
    + reflexivity.
Qed.

(** * Threshold zero *)

(** C8, amended.  With [tkoThreshold = 0] the first [recordSoftFailure d]
    on a fresh tracker does not enter soft TKO: it returns [false], stores
    [sum_failures = 1] and leaves both global counters at zero; the tracker
    then reads as TKO and as hard TKO, not as soft TKO, and [d] is not
    responsible. *)
Theorem threshold_zero_first_failure :
  forall (d : Z) (n : nat),
    1 < d < word_modulus ->
    exists s,
      recordSoftFailure d n (fresh 0) = Some (false, s) /\
      sumFailures_ s = 1 /\
      consecutiveFailureCount_ s = 1 /\
      globalTkos_ s = fresh_counters /\
      isTko s = true /\
      isHardTko s = true /\
      isSoftTko s = false /\
      isResponsible d s = false.
Proof.
  intros d n Hd. eexists. split.
  { apply recordSoftFailure_counts.
    - reflexivity.
    - discriminate.
    - lia.
    - fields. change (wrap (0 + 1)) with 1. lia. }
  fields. change (wrap (0 + 1)) with 1.
  repeat split.
  unfold isResponsible. fields. apply Z.eqb_neq.
  change (Z.land 1 not_one) with 0. lia.
Qed.

(** * The decrements of the global counters *)



(** * The scenarios of the specification, at threshold 4 *)

Lemma valid_token_A : valid_token 4 token_A.
Proof. split; [reflexivity|unfold token_A, word_modulus; lia]. Qed.

Lemma valid_token_B : valid_token 4 token_B.
Proof. split; [reflexivity|unfold token_B, word_modulus; lia]. Qed.

Lemma threshold_four : 1 <= 4 < word_modulus.
Proof. unfold word_modulus. lia. Qed.

(** [soft_tko_by_A] is the tracker scenario 1 ends in. *)
Example soft_tko_by_A_reached :
  exists log,
    run (repeat (RecordSoftFailure token_A 0) 4) (fresh 4)
    = Some (log, soft_tko_by_A).
Proof. eexists. vm_compute. reflexivity. Qed.

(** Scenario 1: four soft failures by [A] return false, false, false, true
    and leave soft TKO held by [A]. *)
Lemma scenario_linear_soft_tko_entry :
  exists log s,
    run [RecordSoftFailure token_A 0; RecordSoftFailure token_A 0;
         RecordSoftFailure token_A 0; RecordSoftFailure token_A 0] (fresh 4)
    = Some (log, s) /\
    results log = [false; false; false; true] /\
    isSoftTko s = true /\
    isResponsible token_A s = true /\
    softTkos (globalTkos_ s) = 1 /\
    hardTkos (globalTkos_ s) = 0 /\
    consecutiveFailureCount_ s = 4.
Proof.
  exact (soft_tko_entered_on_threshold_th_failure 4
           [(token_A, O); (token_A, O); (token_A, O)] token_A O
           threshold_four eq_refl
           ltac:(repeat apply Forall_cons; try apply Forall_nil;
                 exact valid_token_A)
           valid_token_A).
Defined.

(** Scenario 2: from soft TKO held by [A], [recordSuccess A] returns [true]
    and clears everything. *)
Lemma scenario_success_clears_tko :
  exists s',
    recordSuccess token_A 0 soft_tko_by_A = Some (true, s') /\
    softTkos (globalTkos_ s') = 0 /\
    hardTkos (globalTkos_ s') = 0 /\
    sumFailures_ s' = 0 /\
    consecutiveFailureCount_ s' = 0 /\
    tkoThreshold_ s' = 4 /\
    isTko s' = false.
Proof.
  apply (recordSuccess_clears_tko token_A 0 soft_tko_by_A).
  - unfold wf_tracker, is_word, word_modulus, soft_tko_by_A, token_A.
    cbn. lia.
  - reflexivity.
  - reflexivity.
  - discriminate.
Defined.

(** Scenario 5: from soft TKO held by [A], [recordHardFailure A] returns
    [false] and upgrades to hard TKO. *)
Lemma scenario_soft_to_hard_upgrade :
  exists s',
    recordHardFailure token_A 0 soft_tko_by_A = Some (false, s') /\
    sumFailures_ s' = 4097 /\
    Z.testbit (sumFailures_ s') 0 = true /\
    softTkos (globalTkos_ s') = 0 /\
    hardTkos (globalTkos_ s') = 1 /\
    isHardTko s' = true /\
    isSoftTko s' = false /\
    isResponsible token_A s' = true.
Proof.
  apply (recordHardFailure_upgrades_in_place token_A 0 soft_tko_by_A).
  - unfold wf_tracker, is_word, word_modulus, soft_tko_by_A, token_A.
    cbn. lia.
  - reflexivity.
  - reflexivity.
  - discriminate.
Defined.

(** Scenario 4: on a fresh tracker one hard failure enters hard TKO. *)
Lemma scenario_hard_tko_bypasses_threshold :
  exists s',
    recordHardFailure token_A 0 (fresh 4) = Some (true, s') /\
    isHardTko s' = true /\
    isResponsible token_A s' = true /\
    hardTkos (globalTkos_ s') = 1 /\
    softTkos (globalTkos_ s') = 0.
Proof.
  apply (recordHardFailure_bypasses_threshold 4 token_A 0).
  - lia.
  - reflexivity.
  - unfold token_A, word_modulus. lia.
Defined.

(** Scenario 6: [B] cannot steal the TKO held by [A]; its two failure calls
    still raise the failure count from 4 to 6. *)
Lemma scenario_second_writer_cannot_steal :
  exists log s',
    run [RecordSoftFailure token_B 0; RecordHardFailure token_B 0;
         RecordSuccess token_B 0] soft_tko_by_A = Some (log, s') /\
    results log = [false; false; false] /\
    tkoThreshold_ s' = 4 /\
    sumFailures_ s' = token_A /\
    globalTkos_ s' = mkTkoCounters 1 0 /\
    consecutiveFailureCount_ s' = 6 /\
    isSoftTko s' = true /\
    isResponsible token_A s' = true.
Proof.
  apply (other_destinations_cannot_steal_tko token_A
           [RecordSoftFailure token_B 0; RecordHardFailure token_B 0;
            RecordSuccess token_B 0] soft_tko_by_A).
  - unfold is_word, word_modulus. cbn. lia.
  - reflexivity.
  - reflexivity.
  - repeat constructor; discriminate.
Defined.

(** C4 as stated fails: a soft failure by [B] on the tracker held by [A]
    returns [false] but changes the tracker, whose failure count goes from 4
    to 5. *)
Lemma failure_by_other_destination_changes_tracker :
  exists s',
    isSoftTko soft_tko_by_A = true /\
    isResponsible token_A soft_tko_by_A = true /\
    recordSoftFailure token_B 0 soft_tko_by_A = Some (false, s') /\
    consecutiveFailureCount_ soft_tko_by_A = 4 /\
    consecutiveFailureCount_ s' = 5 /\
    s' <> soft_tko_by_A.
Proof.
  eexists. split; [reflexivity|]. split; [reflexivity|].
  split; [vm_compute; reflexivity|]. split; [reflexivity|].
  split; [reflexivity|]. discriminate.
Qed.

(** The amended C6 at threshold 4. *)
Lemma scenario_entry_exactly_at_fourth_failure :
  exists log s,
    run [RecordSoftFailure token_A 0; RecordSoftFailure token_B 1;
         RecordSoftFailure token_A 2; RecordSoftFailure token_B 3] (fresh 4)
    = Some (log, s) /\
    results log = [false; false; false; true] /\
    isSoftTko s = true.
Proof.
  exact (soft_tko_entered_exactly_at_threshold 4
           [(token_A, 0%nat); (token_B, 1%nat); (token_A, 2%nat);
            (token_B, 3%nat)]
           threshold_four
           ltac:(repeat apply Forall_cons; try apply Forall_nil;
                 first [exact valid_token_A | exact valid_token_B])
           ltac:(cbn; lia)).
Defined.

(** C6 as stated fails: with threshold 4 the fourth soft failure already
    returns [true] and leaves the tracker in soft TKO, and the fifth, the
    [(t+1)]-th, returns [false]. *)
Lemma soft_tko_not_entered_on_failure_after_threshold :
  (exists log s,
     run (repeat (RecordSoftFailure token_A 0) 4) (fresh 4) = Some (log, s) /\
     results log = [false; false; false; true] /\
     isSoftTko s = true) /\
  (exists log s,
     run (repeat (RecordSoftFailure token_A 0) 5) (fresh 4) = Some (log, s) /\
     results log = [false; false; false; true; false]).
Proof.
  split; eexists; eexists; (split; [vm_compute; reflexivity|]);
    repeat split; reflexivity.
Qed.

(** The amended C7 on a sequence in which a success by [B] resets the
    count. *)
Lemma scenario_count_since_clear :
  exists log s,
    run [RecordSoftFailure token_A 0; RecordSuccess token_B 0;
         RecordHardFailure token_A 1; RecordSoftFailure token_B 0] (fresh 4)
    = Some (log, s) /\
    map ev_call log
    = [RecordSoftFailure token_A 0; RecordSuccess token_B 0;
       RecordHardFailure token_A 1; RecordSoftFailure token_B 0] /\
    consecutiveFailureCount_ s = Z.of_nat (failures_since_clear log).
Proof.
  apply (consecutiveFailureCount_counts_since_clear 4).
  - exact threshold_four.
  - repeat constructor; unfold token_A, token_B, word_modulus; cbn; lia.
  - unfold word_modulus. cbn. lia.
Defined.

(** C7 as stated fails: after one soft failure by [A], [recordSuccess B]
    returns [false] and still resets the count to zero, although one failure
    call was made and no success has returned [true]. *)
Lemma count_cleared_by_success_returning_false :
  exists log s,
    run [RecordSoftFailure token_A 0; RecordSuccess token_B 0] (fresh 4)
    = Some (log, s) /\
    results log = [false; false] /\
    spec_failures_since_true_success log = 1%nat /\
    consecutiveFailureCount_ s = 0 /\
    consecutiveFailureCount_ s
    <> Z.of_nat (spec_failures_since_true_success log).
Proof.
  eexists. eexists. split; [vm_compute; reflexivity|].
  repeat split; try reflexivity. discriminate.
Qed.

(** The amended C8 for [A]. *)
Lemma scenario_threshold_zero :
  exists s,
    recordSoftFailure token_A 0 (fresh 0) = Some (false, s) /\
    sumFailures_ s = 1 /\
    consecutiveFailureCount_ s = 1 /\
    globalTkos_ s = fresh_counters /\
    isTko s = true /\
    isHardTko s = true /\
    isSoftTko s = false /\
    isResponsible token_A s = false.
Proof.
  apply (threshold_zero_first_failure token_A 0).
  unfold token_A, word_modulus. lia.
Defined.

(** C8 as stated fails: with threshold 0 the first soft failure returns
    [false], the tracker is not in soft TKO and the caller is not
    responsible. *)
Lemma threshold_zero_does_not_enter_soft_tko :
  exists log s,
    run [RecordSoftFailure token_A 0] (fresh 0) = Some (log, s) /\
    results log = [false] /\
    isSoftTko s = false /\
    isResponsible token_A s = false /\
    softTkos (globalTkos_ s) = 0.
Proof.
  eexists. eexists. split; [vm_compute; reflexivity|].
  repeat split; reflexivity.
Qed.

(** C10 on scenario 1 followed by the upgrade to hard TKO. *)
Lemma scenario_encoding_valid :
  exists log s,
    run [RecordSoftFailure token_A 0; RecordSoftFailure token_B 0;
         RecordSoftFailure token_B 0; RecordSoftFailure token_A 0;
         RecordHardFailure token_A 0] (fresh 4) = Some (log, s) /\
    map ev_call log
    = [RecordSoftFailure token_A 0; RecordSoftFailure token_B 0;
       RecordSoftFailure token_B 0; RecordSoftFailure token_A 0;
       RecordHardFailure token_A 0] /\
    sumFailures_ s <> 4 /\
    match tko_owner log with
    | None => 0 <= sumFailures_ s <= 4 - 1 /\ isTko s = false
    | Some d =>
        (sumFailures_ s = d \/ sumFailures_ s = Z.lor d 1) /\
        isTko s = true /\
        isResponsible d s = true /\
        Z.land (sumFailures_ s) not_one = d
    end.
Proof.
  apply (sumFailures_encoding_valid 4).
  - exact threshold_four.
  - repeat constructor; unfold token_A, token_B, word_modulus; cbn; lia.
Defined.


(** * Further properties of the tracker *)

(** [setSumFailures] never fails and does not depend on the number of
    spurious exchange failures: it returns [true] and stores the value
    exactly when the tracker is not in TKO, and otherwise leaves it alone. *)
Theorem setSumFailures_outcome :
  forall (n : nat) (value : Z) (s : TkoTracker),
    setSumFailures n value s
    = Some (negb (isTko s),
            if isTko s then s else set_sumFailures value s).
Proof.
  intros n value s. destruct (isTko s) eqn:Htko; cbn [negb].
  - apply setSumFailures_tko. exact Htko.
  - apply setSumFailures_not_tko. exact Htko.
Qed.

(** For a destination whose address is neither null nor the incremented
    failure count, [recordSoftFailure] does not depend on the number of
    spurious exchange failures: it never fails an assertion, and the soft
    counter goes up by one exactly when the call returns [true]. *)
Theorem recordSoftFailure_ignores_spurious_failures :
  forall (p : Z) (n : nat) (s : TkoTracker),
    p <> 0 ->
    p <> wrap (sumFailures_ s + 1) ->
    recordSoftFailure p n s = recordSoftFailure p 0 s /\
    exists r s',
      recordSoftFailure p n s = Some (r, s') /\
      softTkos (globalTkos_ s')
      = (if r then wrap (softTkos (globalTkos_ s) + 1)
         else softTkos (globalTkos_ s)) /\
      hardTkos (globalTkos_ s') = hardTkos (globalTkos_ s).
Proof.
  intros p n s Hp0 Hp.
  destruct (isTko s) eqn:Htko.
  - rewrite !recordSoftFailure_when_tko by exact Htko.
    split; [reflexivity|]. eexists. eexists. split; [reflexivity|].
    split; reflexivity.
  - destruct (Z.eq_dec (sumFailures_ s) (wrap (tkoThreshold_ s - 1)))
      as [Hcur|Hcur].
    + rewrite !recordSoftFailure_enters by assumption.
      split; [reflexivity|]. eexists. eexists. split; [reflexivity|].
      split; reflexivity.
    + rewrite !recordSoftFailure_counts by assumption.
      split; [reflexivity|]. eexists. eexists. split; [reflexivity|].
      split; reflexivity.
Qed.

Lemma recordSoftFailure_ignores_spurious_failures_on_fresh :
  recordSoftFailure token_A 3 (fresh 4) = recordSoftFailure token_A 0 (fresh 4) /\
  exists r s',
    recordSoftFailure token_A 3 (fresh 4) = Some (r, s') /\
    softTkos (globalTkos_ s')
    = (if r then wrap (softTkos (globalTkos_ (fresh 4)) + 1)
       else softTkos (globalTkos_ (fresh 4))) /\
    hardTkos (globalTkos_ s') = hardTkos (globalTkos_ (fresh 4)).
Proof.
  apply (recordSoftFailure_ignores_spurious_failures token_A 3 (fresh 4)).
  - discriminate.
  - discriminate.
Defined.


(** The initial [value = 0] of the loop in [recordSoftFailure] is also the
    null address.  Called for the null destination on a tracker not in TKO,
    the loop takes its undo branch at once: away from the entry point, with
    [soft_tkos = 0], the assertion of [decrementSoftTkoCount] fails; at the
    entry point the call returns [true] but stores [sum_failures = 0] and
    leaves [soft_tkos] as it was. *)
Theorem recordSoftFailure_null_destination :
  forall (n : nat) (s : TkoTracker),
    isTko s = false ->
    (sumFailures_ s <> wrap (tkoThreshold_ s - 1) ->
     softTkos (globalTkos_ s) = 0 ->
     recordSoftFailure 0 n s = None) /\
    (sumFailures_ s = wrap (tkoThreshold_ s - 1) ->
     recordSoftFailure 0 n s
     = Some (true,
             set_sumFailures 0
               (set_consecutiveFailureCount
                  (wrap (consecutiveFailureCount_ s + 1)) s))).
Proof.
  intros n s Htko. split.
  - intros Hcur Hsoft. unfold recordSoftFailure. run_monad.
    set (s1 := set_consecutiveFailureCount _ s).
    change (isTko s1) with (isTko s). rewrite Htko.
    assert (Hcur1 : (sumFailures_ s1 =? wrap (tkoThreshold_ s1 - 1)) = false)
      by (apply Z.eqb_neq; exact Hcur).
    assert (Hsoft1 : softTkos (globalTkos_ s1) = 0) by exact Hsoft.
    destruct n; cbn [recordSoftFailure_loop]; rewrite Hcur1; run_monad;
      rewrite Z.eqb_refl; rewrite Hsoft1; reflexivity.
  - intros Hcur. unfold recordSoftFailure. run_monad.
    set (s1 := set_consecutiveFailureCount _ s).
    change (isTko s1) with (isTko s). rewrite Htko.
    change (sumFailures_ s) with (sumFailures_ s1).
    rewrite recordSoftFailure_loop_enters by exact Hcur.
    rewrite Z.eqb_refl. reflexivity.
Qed.

Lemma recordSoftFailure_null_destination_on_fresh :
  recordSoftFailure 0 2 (fresh 4) = None.
Proof.
  apply (proj1 (recordSoftFailure_null_destination 2 (fresh 4) eq_refl)).
  - discriminate.
  - reflexivity.
Defined.

Lemma success_on_zero_word (c : Call) (s : TkoTracker) :
  sumFailures_ s = 0 ->
  is_failure_call c = false ->
  call_pdstn c <> 0 ->
  call c s = Some (false, s).
Proof.
  intros Hs Hc Hp.
  assert (Hresp : isResponsible (call_pdstn c) s = false).
  { unfold isResponsible. rewrite Hs, Z.land_0_l. apply Z.eqb_neq. congruence. }
  destruct c as [p n|p n|p n|p n]; try discriminate;
    cbn [call call_pdstn] in *.
  - rewrite recordSuccess_not_responsible by exact Hresp.
    rewrite Hs. reflexivity.
  - apply removeDestination_not_responsible. exact Hresp.
Qed.

(** Successes are free on a clean tracker: while [sum_failures = 0], every
    [recordSuccess] and [removeDestination] by a non-null destination returns
    [false] and writes nothing, whatever the threshold and the counters. *)
Theorem successes_leave_clean_tracker :
  forall (cs : list Call) (s : TkoTracker),
    sumFailures_ s = 0 ->
    Forall (fun c => is_failure_call c = false /\ call_pdstn c <> 0) cs ->
    exists log,
      run cs s = Some (log, s) /\
      results log = repeat false (length cs).
Proof.
  induction cs as [|c cs IH]; intros s Hs Hall.
  - exists []. split; reflexivity.
  - destruct (Forall_inv Hall) as [Hc Hp].
    destruct (IH s Hs (Forall_inv_tail Hall)) as (log & Hrun & Hres).
    exists (mkEvent c s false :: log).
    rewrite run_cons, (success_on_zero_word c s Hs Hc Hp), Hrun.
    split; [reflexivity|].
    cbn [results map ev_result length repeat]. fold (results log).
    rewrite Hres. reflexivity.
Qed.

Lemma successes_leave_fresh_tracker :
  exists log,
    run [RecordSuccess token_B 0; RemoveDestination token_A 1;
         RecordSuccess token_A 2] (fresh 4) = Some (log, fresh 4) /\
    results log = [false; false; false].
Proof.
  apply (successes_leave_clean_tracker
           [RecordSuccess token_B 0; RemoveDestination token_A 1;
            RecordSuccess token_A 2] (fresh 4)).
  - reflexivity.
  - repeat constructor; discriminate.
Defined.

Lemma call_in_hard_tko (A : Z) (c : Call) (s : TkoTracker) :
  isHardTko s = true ->
  isResponsible A s = true ->
  is_failure_call c = true \/ call_pdstn c <> A ->
  call c s
  = Some (false,
          if is_failure_call c
          then set_consecutiveFailureCount
                 (wrap (consecutiveFailureCount_ s + 1)) s
          else s).
Proof.
  intros Hhard HA Hc.
  assert (Htko : isTko s = true).
  { apply isTko_true. apply isHardTko_true in Hhard. apply Hhard. }
  assert (Hresp : is_failure_call c = false ->
                  isResponsible (call_pdstn c) s = false).
  { intros Hf. destruct Hc as [Hc|Hc]; [congruence|].
    unfold isResponsible in *. apply Z.eqb_eq in HA. rewrite HA.
    apply Z.eqb_neq. congruence. }
  destruct c as [p n|p n|p n|p n]; cbn [call call_pdstn is_failure_call] in *.
  - apply recordSoftFailure_when_tko. exact Htko.
  - apply recordHardFailure_when_hard. exact Hhard.
  - rewrite recordSuccess_not_responsible by (apply Hresp; reflexivity).
    rewrite Htko. cbn [negb]. rewrite andb_false_r. reflexivity.
  - apply removeDestination_not_responsible. apply Hresp. reflexivity.
Qed.

(** Hard TKO is held until its owner succeeds: while the tracker is in hard
    TKO with [A] responsible, every failure call (by [A] too) and every
    success or removal by another destination returns [false] and leaves
    [sum_failures] and both counters unchanged; only the failure calls move
    [consecutive_failure_count], by one each. *)
Theorem hard_tko_held_until_owner_succeeds :
  forall (A : Z) (cs : list Call) (s : TkoTracker),
    is_word (consecutiveFailureCount_ s) ->
    isHardTko s = true ->
    isResponsible A s = true ->
    Forall (fun c => is_failure_call c = true \/ call_pdstn c <> A) cs ->
    exists log s',
      run cs s = Some (log, s') /\
      results log = repeat false (length cs) /\
      tkoThreshold_ s' = tkoThreshold_ s /\
      sumFailures_ s' = sumFailures_ s /\
      globalTkos_ s' = globalTkos_ s /\
      consecutiveFailureCount_ s'
      = wrap (consecutiveFailureCount_ s + Z.of_nat (failure_calls cs)) /\
      isHardTko s' = true /\
      isResponsible A s' = true.
Proof.
  intros A cs. induction cs as [|c cs IH]; intros s Hc Hhard HA Hall.
  - exists [], s. cbn [run]. unfold ret, failure_calls. cbn [filter length].
    rewrite Z.add_0_r, wrap_small by exact Hc. auto 10.
  - pose proof (call_in_hard_tko A c s Hhard HA (Forall_inv Hall)) as Hcall.
    set (s1 := if is_failure_call c
               then set_consecutiveFailureCount
                      (wrap (consecutiveFailureCount_ s + 1)) s
               else s) in Hcall.
    assert (Hs1 : tkoThreshold_ s1 = tkoThreshold_ s /\
                  sumFailures_ s1 = sumFailures_ s /\
                  globalTkos_ s1 = globalTkos_ s /\
                  is_word (consecutiveFailureCount_ s1) /\
                  isHardTko s1 = true /\ isResponsible A s1 = true).
    { subst s1. destruct (is_failure_call c); [|auto 10].
      split; [reflexivity|]. split; [reflexivity|]. split; [reflexivity|].
      split; [apply wrap_is_word|]. split; [exact Hhard|exact HA]. }
    destruct Hs1 as (Et & Es & Eg & Hc1 & Hhard1 & HA1).
    destruct (IH s1 Hc1 Hhard1 HA1 (Forall_inv_tail Hall))
      as (log & s' & Hrun & Hres & Et' & Es' & Eg' & Hcnt & Hhard' & HA').
    exists (mkEvent c s false :: log), s'.
    rewrite run_cons, Hcall, Hrun.
    cbn [results map ev_result length repeat]. fold (results log).
    rewrite Hres.
    split; [reflexivity|]. split; [reflexivity|].
    split; [congruence|]. split; [congruence|]. split; [congruence|].
    split; [|auto].
    rewrite Hcnt. unfold failure_calls. cbn [filter]. subst s1.
    destruct (is_failure_call c); cbn [length]; fields.
    + rewrite wrap_add_wrap, Nat2Z.inj_succ. f_equal. lia.
    + reflexivity.
Qed.

Lemma hard_tko_by_A_is_held :
  exists log s',
    run [RecordSoftFailure token_A 0; RecordHardFailure token_A 1;
         RecordHardFailure token_B 0; RecordSuccess token_B 0;
         RemoveDestination token_B 0] hard_tko_by_A = Some (log, s') /\
    results log = [false; false; false; false; false] /\
    tkoThreshold_ s' = 4 /\
    sumFailures_ s' = 4097 /\
    globalTkos_ s' = mkTkoCounters 0 1 /\
    consecutiveFailureCount_ s' = 4 /\
    isHardTko s' = true /\
    isResponsible token_A s' = true.
Proof.
  apply (hard_tko_held_until_owner_succeeds token_A
           [RecordSoftFailure token_A 0; RecordHardFailure token_A 1;
            RecordHardFailure token_B 0; RecordSuccess token_B 0;
            RemoveDestination token_B 0] hard_tko_by_A).
  - unfold is_word, word_modulus. cbn. lia.
  - reflexivity.
  - reflexivity.
  - repeat (apply Forall_cons;
            [first [left; reflexivity | right; discriminate]|]).
    apply Forall_nil.
Defined.

(** * Further properties of call sequences *)

Lemma run_follows_phase_run (t : Z) (Ht : 1 <= t < word_modulus)
    (cs : list Call) :
  forall (ph : Phase) (s : TkoTracker),
    represents t ph s ->
    Forall (fun c => valid_token t (call_pdstn c)) cs ->
    exists log s',
      run cs s = Some (log, s') /\
      map ev_call log = cs /\
      results log = fst (phase_run t cs ph) /\
      represents t (snd (phase_run t cs ph)) s' /\
      bracketed (owner ph) log = true.
Proof.
  induction cs as [|c cs IH]; intros ph s Hrep Hall.
  - exists [], s. cbn. unfold ret. auto.
  - destruct (call_simulates t Ht c ph s Hrep (Forall_inv Hall))
      as (s1 & Hcall & Hrep1 & _).
    destruct (IH _ _ Hrep1 (Forall_inv_tail Hall))
      as (log & s2 & Hrun & Hmap & Hres & Hrep2 & Hbr).
    exists (mkEvent c s (fst (phase_step t c ph)) :: log), s2.
    rewrite run_cons, Hcall, Hrun. cbn [phase_run].
    destruct (phase_step t c ph) as [r ph1] eqn:Hstep. cbn [fst snd] in *.
    destruct (phase_run t cs ph1) as [rs ph2] eqn:Hphases. cbn [fst snd] in *.
    split; [reflexivity|].
    split; [cbn [map ev_call]; rewrite Hmap; reflexivity|].
    split; [cbn [results map ev_result]; fold (results log);
            rewrite Hres; reflexivity|].
    split; [exact Hrep2|].
    cbn [bracketed ev_call ev_result].
    destruct c as [p n|p n|p n|p n]; destruct ph as [k|o|o];
      cbn [phase_step is_failure_call call_pdstn owner] in *;
      repeat match goal with
             | H : context [?a =? ?b] |- _ => destruct (Z.eqb_spec a b)
             end;
      injection Hstep as <- <-; cbn [owner] in Hbr; subst;
      rewrite ?Z.eqb_refl; exact Hbr.
Qed.

(** The tagged word implements a three-phase machine: on a fresh tracker
    every sequence of calls by valid destinations runs without a failed
    assertion, returns the booleans of the abstract machine ([phase_run]),
    and ends in the tracker that encodes the machine's final phase. *)
Theorem run_refines_phase_machine :
  forall (t : Z) (cs : list Call),
    1 <= t < word_modulus ->
    Forall (fun c => valid_token t (call_pdstn c)) cs ->
    exists log s,
      run cs (fresh t) = Some (log, s) /\
      map ev_call log = cs /\
      results log = fst (phase_run t cs (Counting 0)) /\
      represents t (snd (phase_run t cs (Counting 0))) s.
Proof.
  intros t cs Ht Hall.
  destruct (run_follows_phase_run t Ht cs (Counting 0) (fresh t)
              (fresh_represents t Ht) Hall)
    as (log & s & Hrun & Hmap & Hres & Hrep & _).
  exists log, s. auto.
Qed.

(** The [true] results of a log pair up: a failure call returns [true] only
    while no destination holds the TKO, and a success or removal returns
    [true] only for the destination whose failure call entered it; so each
    entry into TKO is reported once, and each exit at most once. *)
Theorem tko_entries_and_exits_alternate :
  forall (t : Z) (cs : list Call),
    1 <= t < word_modulus ->
    Forall (fun c => valid_token t (call_pdstn c)) cs ->
    exists log s,
      run cs (fresh t) = Some (log, s) /\
      map ev_call log = cs /\
      bracketed None log = true.
Proof.
  intros t cs Ht Hall.
  destruct (run_follows_phase_run t Ht cs (Counting 0) (fresh t)
              (fresh_represents t Ht) Hall)
    as (log & s & Hrun & Hmap & _ & _ & Hbr).
  exists log, s. auto.
Qed.

(** After every sequence of calls by valid destinations on a fresh tracker
    in a fresh map, the global counters say what the tracker is in:
    [soft_tkos] is 1 in soft TKO and 0 otherwise, [hard_tkos] is 1 in hard
    TKO and 0 otherwise, and the tracker is never in both. *)
Theorem counters_match_tko_state :
  forall (t : Z) (cs : list Call),
    1 <= t < word_modulus ->
    Forall (fun c => valid_token t (call_pdstn c)) cs ->
    exists log s,
      run cs (fresh t) = Some (log, s) /\
      softTkos (globalTkos_ s) = (if isSoftTko s then 1 else 0) /\
      hardTkos (globalTkos_ s) = (if isHardTko s then 1 else 0) /\
      isSoftTko s && isHardTko s = false.
Proof.
  intros t cs Ht Hall.
  destruct (run_simulates t Ht cs (Counting 0) (fresh t)
              (fresh_represents t Ht) Hall)
    as (log & s & ph & Hrun & _ & Hrep & _ & _).
  exists log, s. split; [exact Hrun|].
  destruct ph as [k|d|d].
  - destruct (counting_observed t Ht k s Hrep) as (_ & Hh & Hs & _).
    destruct Hrep as (_ & _ & _ & _ & Hg). rewrite Hh, Hs, Hg. auto.
  - destruct (soft_observed t Ht d s Hrep) as (Hs & Hh & _ & _).
    destruct Hrep as (_ & _ & _ & _ & Hg). rewrite Hh, Hs, Hg. auto.
  - destruct (hard_observed t Ht d s Hrep) as (Hh & Hs & _ & _).
    destruct Hrep as (_ & _ & _ & _ & Hg). rewrite Hh, Hs, Hg. auto.
Qed.

Lemma counting_zero_is_fresh (t : Z) (s : TkoTracker) :
  represents t (Counting 0) s ->
  consecutiveFailureCount_ s = 0 ->
  s = fresh t.
Proof.
  destruct s as [t' w c g]. unfold represents, fresh, TkoTracker_new.
  cbn [tkoThreshold_ sumFailures_ consecutiveFailureCount_ globalTkos_ encode].
  intros (-> & -> & _ & _ & ->) ->. reflexivity.
Qed.

(** Clearing is a round trip.  After every sequence of calls by valid
    destinations on a fresh tracker, [recordSuccess d] and
    [removeDestination d] return [true] exactly when [d] is the destination
    that entered the TKO, and then the tracker is back to the fresh one
    (same threshold, all words and counters zero); [removeDestination] by
    any other destination changes nothing. *)
Theorem owner_clears_tko_to_fresh :
  forall (t : Z) (cs : list Call) (d : Z) (n : nat),
    1 <= t < word_modulus ->
    Forall (fun c => valid_token t (call_pdstn c)) cs ->
    valid_token t d ->
    exists log s s',
      run cs (fresh t) = Some (log, s) /\
      let held := match tko_owner log with
                  | Some o => o =? d
                  | None => false
                  end in
      removeDestination d n s = Some (held, if held then fresh t else s) /\
      recordSuccess d n s = Some (held, s') /\
      (held = true -> s' = fresh t).
Proof.
  intros t cs d n Ht Hall Hd.
  destruct (run_simulates t Ht cs (Counting 0) (fresh t)
              (fresh_represents t Ht) Hall)
    as (log & s & ph & Hrun & _ & Hrep & Hown & _).
  destruct (recordSuccess_simulates t Ht d n ph s Hrep Hd)
    as (s' & Hcall & Hrep' & Hcount).
  cbn [call] in Hcall.
  exists log, s, s'. split; [exact Hrun|].
  unfold tko_owner. cbn [owner] in Hown. rewrite <- Hown. cbv zeta.
  assert (Hresp : forall o, owner ph = Some o ->
                            isResponsible d s = (o =? d)).
  { intros o Ho. destruct ph as [k|a|a]; try discriminate;
      injection Ho as ->.
    - apply (soft_observed t Ht o s Hrep).
    - apply (hard_observed t Ht o s Hrep). }
  assert (Hstep : phase_step t (RecordSuccess d n) ph
                  = match owner ph with
                    | Some o => if o =? d then (true, Counting 0)
                                else (false, ph)
                    | None => (false, Counting 0)
                    end).
  { destruct ph; reflexivity. }
  rewrite Hstep in Hcall, Hrep', Hcount.
  destruct (owner ph) as [o|] eqn:Ho.
  - specialize (Hresp o eq_refl).
    destruct (o =? d) eqn:Hod; cbn [fst snd] in *.
    + assert (Hs' : s' = fresh t).
      { apply counting_zero_is_fresh; [exact Hrep'|]. rewrite Hcount.
        reflexivity. }
      split; [|split; [exact Hcall|intros _; exact Hs']].
      rewrite removeDestination_responsible by exact Hresp.
      rewrite Hcall, Hs'. reflexivity.
    + split; [|split; [exact Hcall|discriminate]].
      apply removeDestination_not_responsible. exact Hresp.
  - cbn [fst snd] in *.
    split; [|split; [exact Hcall|discriminate]].
    apply removeDestination_not_responsible.
    destruct ph as [k|a|a]; try discriminate.
    apply (counting_observed t Ht k s Hrep). exact Hd.
Qed.

(** Scenario 7 and more: [A] enters hard TKO, [B] fails against it, and
    [A]'s removal clears everything. *)
Lemma scenario_teardown_of_responsible_destination :
  exists log s s',
    run [RecordHardFailure token_A 0; RecordSoftFailure token_B 0]
      (fresh 4) = Some (log, s) /\
    let held := match tko_owner log with
                | Some o => o =? token_A
                | None => false
                end in
    removeDestination token_A 0 s = Some (held, if held then fresh 4 else s) /\
    recordSuccess token_A 0 s = Some (held, s') /\
    (held = true -> s' = fresh 4).
Proof.
  apply (owner_clears_tko_to_fresh 4
           [RecordHardFailure token_A 0; RecordSoftFailure token_B 0]
           token_A 0).
  - exact threshold_four.
  - repeat apply Forall_cons; try apply Forall_nil;
      first [exact valid_token_A | exact valid_token_B].
  - exact valid_token_A.
Defined.

(** Soft failures must be consecutive: a [recordSuccess] by any valid
    destination between two runs of fewer than [t] soft failures resets the
    failure count, so that the tracker is not in TKO afterwards although
    up to [2 t - 2] soft failures were recorded; [sum_failures] and
    [consecutive_failure_count] then hold the length of the second run. *)
Theorem intervening_success_resets_failures :
  forall (t : Z) (before after : list (Z * nat)) (B : Z) (n : nat),
    1 <= t < word_modulus ->
    Forall (fun dn => valid_token t (fst dn)) before ->
    Forall (fun dn => valid_token t (fst dn)) after ->
    valid_token t B ->
    Z.of_nat (length before) < t ->
    Z.of_nat (length after) < t ->
    exists log s,
      run (soft_failures before ++ RecordSuccess B n :: soft_failures after)
        (fresh t) = Some (log, s) /\
      results log = repeat false (length before + 1 + length after) /\
      isTko s = false /\
      sumFailures_ s = Z.of_nat (length after) /\
      consecutiveFailureCount_ s = Z.of_nat (length after) /\
      globalTkos_ s = fresh_counters.
Proof.
  intros t before after B n Ht Hb Ha HB Hlb Hla.
  destruct (run_soft_failures_counting t Ht before 0 (fresh t)
              (fresh_represents t Ht) Hb ltac:(lia))
    as (log1 & s1 & Hrun1 & Hres1 & Hrep1 & Hcnt1).
  destruct (recordSuccess_simulates t Ht B n _ s1 Hrep1 HB)
    as (s2 & Hcall & Hrep2 & Hcount2).
  cbn [phase_step fst snd] in Hcall, Hrep2, Hcount2.
  assert (Hzero : consecutiveFailureCount_ s2 = 0).
  { rewrite Hcount2. unfold next_count, counter_cleared.
    cbn [ev_call ev_result ev_before is_failure_call orb].
    destruct (negb (sumFailures_ s1 =? 0) && negb (isTko s1)) eqn:Hb1;
      [reflexivity|].
    destruct (counting_observed t Ht _ s1 Hrep1) as (Htko & _).
    rewrite Htko in Hb1. cbn [negb] in Hb1. rewrite andb_true_r in Hb1.
    apply negb_false_iff, Z.eqb_eq in Hb1.
    destruct Hrep1 as (_ & Es & _). cbn [encode] in Es.
    rewrite Hcnt1. fields.
    replace (Z.of_nat (length before)) with 0 by lia. reflexivity. }
  destruct (run_soft_failures_counting t Ht after 0 s2 Hrep2 Ha ltac:(lia))
    as (log3 & s3 & Hrun3 & Hres3 & Hrep3 & Hcnt3).
  exists (log1 ++ mkEvent (RecordSuccess B n) s1 false :: log3), s3.
  rewrite run_app, Hrun1, run_cons, Hcall, Hrun3.
  split; [reflexivity|].
  unfold results in *. rewrite map_app. cbn [map ev_result].
  rewrite Hres1, Hres3.
  split.
  { rewrite <- Nat.add_assoc, repeat_app. reflexivity. }
  rewrite Z.add_0_l in Hrep3.
  destruct (counting_observed t Ht _ s3 Hrep3) as (Htko3 & _).
  destruct Hrep3 as (_ & Es3 & _ & _ & Hg3). cbn [encode] in Es3.
  split; [exact Htko3|]. split; [exact Es3|]. split; [|exact Hg3].
  rewrite Hcnt3, Hzero, Z.add_0_l. apply wrap_small. unfold is_word. lia.
Qed.

Lemma scenario_intervening_success :
  exists log s,
    run [RecordSoftFailure token_A 0; RecordSoftFailure token_A 0;
         RecordSoftFailure token_A 0; RecordSuccess token_B 0;
         RecordSoftFailure token_A 0; RecordSoftFailure token_A 0]
      (fresh 4) = Some (log, s) /\
    results log = [false; false; false; false; false; false] /\
    isTko s = false /\
    sumFailures_ s = 2 /\
    consecutiveFailureCount_ s = 2 /\
    globalTkos_ s = fresh_counters.
Proof.
  exact (intervening_success_resets_failures 4
           [(token_A, O); (token_A, O); (token_A, O)]
           [(token_A, O); (token_A, O)] token_B O
           threshold_four
           ltac:(repeat apply Forall_cons; try apply Forall_nil;
                 exact valid_token_A)
           ltac:(repeat apply Forall_cons; try apply Forall_nil;
                 exact valid_token_A)
           valid_token_B
           ltac:(cbn; lia) ltac:(cbn; lia)).
Defined.

Lemma scenario_refines_phase_machine :
  exists log s,
    run [RecordSoftFailure token_A 0; RecordHardFailure token_B 1;
         RecordSoftFailure token_A 0; RecordSuccess token_A 0;
         RecordSuccess token_B 2; RecordSoftFailure token_A 0]
      (fresh 4) = Some (log, s) /\
    map ev_call log
    = [RecordSoftFailure token_A 0; RecordHardFailure token_B 1;
       RecordSoftFailure token_A 0; RecordSuccess token_A 0;
       RecordSuccess token_B 2; RecordSoftFailure token_A 0] /\
    results log = [false; true; false; false; true; false] /\
    represents 4 (Counting 1) s.
Proof.
  apply (run_refines_phase_machine 4).
  - exact threshold_four.
  - repeat apply Forall_cons; try apply Forall_nil;
      first [exact valid_token_A | exact valid_token_B].
Defined.

Lemma scenario_entries_and_exits_alternate :
  exists log s,
    run [RecordHardFailure token_A 0; RecordHardFailure token_B 0;
         RemoveDestination token_A 0; RecordHardFailure token_B 0]
      (fresh 4) = Some (log, s) /\
    map ev_call log
    = [RecordHardFailure token_A 0; RecordHardFailure token_B 0;
       RemoveDestination token_A 0; RecordHardFailure token_B 0] /\
    bracketed None log = true.
Proof.
  apply (tko_entries_and_exits_alternate 4).
  - exact threshold_four.
  - repeat apply Forall_cons; try apply Forall_nil;
      first [exact valid_token_A | exact valid_token_B].
Defined.

Lemma scenario_counters_match_tko_state :
  exists log s,
    run [RecordSoftFailure token_A 0; RecordHardFailure token_B 0;
         RecordHardFailure token_A 0] (fresh 4) = Some (log, s) /\
    softTkos (globalTkos_ s) = (if isSoftTko s then 1 else 0) /\
    hardTkos (globalTkos_ s) = (if isHardTko s then 1 else 0) /\
    isSoftTko s && isHardTko s = false.
Proof.
  apply (counters_match_tko_state 4).
  - exact threshold_four.
  - repeat apply Forall_cons; try apply Forall_nil;
      first [exact valid_token_A | exact valid_token_B].
Defined.

(** * The registry: walking the map *)

Lemma elements_keys_nodup {V : Type} (m : StringMap.t V) :
  NoDup (map fst (StringMap.elements m)).
Proof.
  pose proof (StringMap.elements_3w m) as H.
  induction H as [|[k v] l Hnin Hnd IH]; cbn [map fst]; constructor.
  - intros Hin. apply Hnin. apply in_map_iff in Hin.
    destruct Hin as ([k' v'] & Hk & Hin). cbn [fst] in Hk. subst k'.
    apply SetoidList.InA_alt. exists (k, v'). split; [reflexivity|exact Hin].
  - exact IH.
Qed.

Lemma findA_eqb_not_in {V : Type} (k : String.string)
    (l : list (String.string * V)) :
  ~ In k (map fst l) -> SetoidList.findA (StringMapFacts.eqb k) l = None.
Proof.
  induction l as [|[k' v] l IH]; intros Hnin; cbn [SetoidList.findA]; [reflexivity|].
  unfold StringMapFacts.eqb at 1.
  destruct (OrderedTypeEx.String_as_OT.eq_dec k k') as [->|Hne].
  - exfalso. apply Hnin. left. reflexivity.
  - apply IH. intros Hin. apply Hnin. right. exact Hin.
Qed.

Lemma emplace_absent {V : Type} (k : String.string) (v : V)
    (m : StringMap.t V) :
  StringMap.find k m = None ->
  fst (emplace k v m) = StringMap.add k v m.
Proof.
  intros H. unfold emplace. rewrite StringMapFacts.mem_find_b, H. reflexivity.
Qed.

Lemma suspects_fold_find (P : Process) (k : String.string)
    (l : list (String.string * address)) :
  forall acc : StringMap.t (bool * Z),
    NoDup (map fst l) ->
    (forall k', In k' (map fst l) -> StringMap.find k' acc = None) ->
    StringMap.find k
      (fold_left
         (fun acc it =>
            match heap P (snd it) with
            | Some tracker =>
                let failures := obj_consecutiveFailureCount_ tracker in
                if 0 <? failures then
                  fst (emplace (fst it)
                         (isTko (tracker_view (reg_globalTkos_ P) tracker),
                          failures) acc)
                else acc
            | None => acc
            end) l acc)
    = match SetoidList.findA (StringMapFacts.eqb k) l with
      | Some a => suspect_entry P a
      | None => StringMap.find k acc
      end.
Proof.
  induction l as [|[k' a] l IH]; intros acc Hnd Hfresh; cbn [fold_left SetoidList.findA];
    [reflexivity|].
  cbn [map fst] in Hnd, Hfresh. inversion Hnd as [|x xs Hnin Hnd']; subst.
  cbn [fst snd]. unfold StringMapFacts.eqb at 1.
  assert (Hk' : StringMap.find k' acc = None) by (apply Hfresh; left; reflexivity).
  set (acc' := match heap P a with
               | Some tracker => _
               | None => acc
               end).
  assert (Hacc' : forall y,
            StringMap.find y acc'
            = if OrderedTypeEx.String_as_OT.eq_dec k' y
              then match suspect_entry P a with
                   | Some v => Some v
                   | None => StringMap.find y acc
                   end
              else StringMap.find y acc).
  { intros y. subst acc'. unfold suspect_entry.
    destruct (heap P a) as [tracker|].
    - cbv zeta. destruct (0 <? obj_consecutiveFailureCount_ tracker).
      + rewrite emplace_absent by exact Hk'. apply StringMapFacts.add_o.
      + destruct (OrderedTypeEx.String_as_OT.eq_dec k' y); reflexivity.
    - destruct (OrderedTypeEx.String_as_OT.eq_dec k' y); reflexivity. }
  rewrite IH.
  - destruct (OrderedTypeEx.String_as_OT.eq_dec k k') as [->|Hne].
    + rewrite findA_eqb_not_in by exact Hnin. rewrite Hacc'.
      destruct (OrderedTypeEx.String_as_OT.eq_dec k' k') as [_|Hc];
        [|contradiction].
      rewrite Hk'. destruct (suspect_entry P a); reflexivity.
    + destruct (SetoidList.findA (StringMapFacts.eqb k) l); [reflexivity|].
      rewrite Hacc'.
      destruct (OrderedTypeEx.String_as_OT.eq_dec k' k) as [Hc|_];
        [symmetry in Hc; contradiction|reflexivity].
  - exact Hnd'.
  - intros y Hy. rewrite Hacc'.
    destruct (OrderedTypeEx.String_as_OT.eq_dec k' y) as [<-|_];
      [contradiction|].
    apply Hfresh. right. exact Hy.
Qed.

(** [getSuspectServers] reports exactly the registered live trackers with a
    nonzero failure count, each under its key with its TKO flag and its
    count; expired entries, clean trackers and unregistered keys are not
    reported. *)
Theorem getSuspectServers_lookup :
  forall (P : Process) (k : String.string),
    StringMap.find k (getSuspectServers P)
    = match StringMap.find k (trackers_ P) with
      | Some a => suspect_entry P a
      | None => None
      end.
Proof.
  intros P k. unfold getSuspectServers, foreachTkoTracker.
  rewrite suspects_fold_find.
  - rewrite StringMapFacts.empty_o, StringMapFacts.elements_o.
    destruct (SetoidList.findA (StringMapFacts.eqb k) (StringMap.elements (trackers_ P)));
      reflexivity.
  - apply elements_keys_nodup.
  - intros k' _. apply StringMapFacts.empty_o.
Qed.

Lemma suspects_fold_cardinal (P : Process)
    (l : list (String.string * address)) :
  forall acc : StringMap.t (bool * Z),
    NoDup (map fst l) ->
    (forall k', In k' (map fst l) -> StringMap.find k' acc = None) ->
    StringMap.cardinal
      (fold_left
         (fun acc it =>
            match heap P (snd it) with
            | Some tracker =>
                let failures := obj_consecutiveFailureCount_ tracker in
                if 0 <? failures then
                  fst (emplace (fst it)
                         (isTko (tracker_view (reg_globalTkos_ P) tracker),
                          failures) acc)
                else acc
            | None => acc
            end) l acc)
    = (StringMap.cardinal acc + length (filter (is_suspect P) l))%nat.
Proof.
  induction l as [|[k' a] l IH]; intros acc Hnd Hfresh;
    cbn [fold_left filter length]; [lia|].
  cbn [map fst] in Hnd, Hfresh. inversion Hnd as [|x xs Hnin Hnd']; subst.
  cbn [fst snd]. unfold is_suspect at 1, suspect_entry. cbn [snd].
  assert (Hk' : StringMap.find k' acc = None)
    by (apply Hfresh; left; reflexivity).
  assert (Hrest : forall y, In y (map fst l) -> k' <> y)
    by (intros y Hy ->; contradiction).
  destruct (heap P a) as [tracker|]; cbv zeta.
  - destruct (0 <? obj_consecutiveFailureCount_ tracker).
    + rewrite emplace_absent by exact Hk'. rewrite IH.
      * rewrite (StringMapProps.cardinal_2 (m := acc) (x := k')
                   (e := (isTko (tracker_view (reg_globalTkos_ P) tracker),
                          obj_consecutiveFailureCount_ tracker))).
        -- cbn [length]. lia.
        -- apply StringMapFacts.not_find_in_iff. exact Hk'.
        -- intros y. reflexivity.
      * exact Hnd'.
      * intros y Hy. rewrite StringMapFacts.add_neq_o by (apply Hrest; exact Hy).
        apply Hfresh. right. exact Hy.
    + apply IH; [exact Hnd'|]. intros y Hy. apply Hfresh. right. exact Hy.
  - apply IH; [exact Hnd'|]. intros y Hy. apply Hfresh. right. exact Hy.
Qed.

Lemma suspects_fold_count (P : Process)
    (l : list (String.string * address)) :
  forall c : Z,
    fold_left
      (fun acc it =>
         match heap P (snd it) with
         | Some tracker =>
             if 0 <? obj_consecutiveFailureCount_ tracker
             then wrap (acc + 1) else acc
         | None => acc
         end) l (wrap c)
    = wrap (c + Z.of_nat (length (filter (is_suspect P) l))).
Proof.
  induction l as [|[k' a] l IH]; intros c; cbn [fold_left filter length].
  - rewrite Z.add_0_r. reflexivity.
  - unfold is_suspect at 1, suspect_entry. cbn [snd].
    destruct (heap P a) as [tracker|]; [|apply IH].
    destruct (0 <? obj_consecutiveFailureCount_ tracker); [|apply IH].
    rewrite wrap_add_wrap, IH. cbn [length]. f_equal. lia.
Qed.

(** [getSuspectServersCount] is the number of entries of
    [getSuspectServers], as long as the registry holds fewer than [2^64]
    trackers. *)
Theorem getSuspectServersCount_is_cardinal :
  forall P : Process,
    Z.of_nat (StringMap.cardinal (trackers_ P)) < word_modulus ->
    getSuspectServersCount P
    = Z.of_nat (StringMap.cardinal (getSuspectServers P)).
Proof.
  intros P Hsize. unfold getSuspectServersCount, getSuspectServers,
    foreachTkoTracker.
  pose proof (suspects_fold_count P (StringMap.elements (trackers_ P)) 0)
    as Hcount.
  change (wrap 0) with 0 in Hcount. rewrite Hcount.
  rewrite suspects_fold_cardinal.
  - assert (Hempty : StringMap.cardinal (StringMap.empty (bool * Z)) = O).
    { apply StringMapProps.cardinal_1. apply StringMap.empty_1. }
    rewrite Hempty, Z.add_0_l, Nat.add_0_l.
    apply wrap_small.
    pose proof (filter_length_le (is_suspect P)
                  (StringMap.elements (trackers_ P))) as Hle.
    rewrite StringMap.cardinal_1 in Hsize. apply Nat2Z.inj_le in Hle.
    split; [apply Nat2Z.is_nonneg|].
    eapply Z.le_lt_trans; [exact Hle|exact Hsize].
  - apply elements_keys_nodup.
  - intros k' _. apply StringMapFacts.empty_o.
Qed.

(** * The registry: destinations and their trackers *)

Lemma tracker_of_in (d : Z) (a : address) (l : list (Z * address)) :
  tracker_of d l = Some a -> In (d, a) l.
Proof.
  unfold tracker_of. destruct (find _ l) as [[d' a']|] eqn:Hf; [|discriminate].
  intros [= <-]. apply find_some in Hf. destruct Hf as [Hin Heq].
  cbn [fst] in Heq. apply Z.eqb_eq in Heq. subst d'. exact Hin.
Qed.

Lemma in_tracker_of (d : Z) (a : address) (l : list (Z * address)) :
  NoDup (map fst l) -> In (d, a) l -> tracker_of d l = Some a.
Proof.
  unfold tracker_of. induction l as [|[d' a'] l IH]; intros Hnd Hin;
    [contradiction|].
  cbn [map fst] in Hnd. inversion Hnd as [|x xs Hnin Hnd']; subst.
  cbn [find fst]. destruct (Z.eqb_spec d' d) as [->|Hne].
  - destruct Hin as [[= ->]|Hin]; [reflexivity|].
    exfalso. apply Hnin. apply in_map_iff. exists (d, a). auto.
  - destruct Hin as [[= -> _]|Hin]; [contradiction|]. apply IH; assumption.
Qed.

Lemma tracker_of_none (d : Z) (l : list (Z * address)) :
  tracker_of d l = None -> forall a, ~ In (d, a) l.
Proof.
  unfold tracker_of. destruct (find _ l) as [b|] eqn:Hf; [discriminate|].
  intros _ a Hin. pose proof (find_none _ _ Hf _ Hin) as H.
  cbn [fst] in H. rewrite Z.eqb_refl in H. discriminate.
Qed.

Lemma held_true (a : address) (l : list (Z * address)) :
  held a l = true <-> exists d, In (d, a) l.
Proof.
  unfold held. rewrite existsb_exists. split.
  - intros ([d a'] & Hin & Heq). cbn [snd] in Heq.
    apply Nat.eqb_eq in Heq. subst a'. exists d. exact Hin.
  - intros (d & Hin). exists (d, a). split; [exact Hin|]. cbn [snd].
    apply Nat.eqb_refl.
Qed.

Lemma in_without_owner (d d' : Z) (a : address) (l : list (Z * address)) :
  In (d', a) (without_owner d l) <-> In (d', a) l /\ d' <> d.
Proof.
  unfold without_owner. rewrite filter_In. cbn [fst].
  rewrite negb_true_iff, Z.eqb_neq. reflexivity.
Qed.

Lemma without_owner_nodup (d : Z) (l : list (Z * address)) :
  NoDup (map fst l) -> NoDup (d :: map fst (without_owner d l)).
Proof.
  intros Hnd. constructor.
  - intros Hin. apply in_map_iff in Hin. destruct Hin as ([d' a] & Hd & Hin).
    cbn [fst] in Hd. subst d'. apply in_without_owner in Hin. tauto.
  - unfold without_owner. induction l as [|[d' a] l IH]; [constructor|].
    cbn [map fst] in Hnd. inversion Hnd as [|x xs Hnin Hnd']; subst.
    cbn [filter fst]. destruct (negb (d' =? d)); [|apply IH; exact Hnd'].
    cbn [map fst]. constructor; [|apply IH; exact Hnd'].
    intros Hin. apply Hnin. apply in_map_iff in Hin.
    destruct Hin as (b & Hb & Hin). apply filter_In in Hin.
    apply in_map_iff. exists b. tauto.
Qed.

Lemma heap_update_same (a : address) (v : option TrackerObject)
    (h : address -> option TrackerObject) :
  heap_update a v h a = v.
Proof. unfold heap_update. rewrite Nat.eqb_refl. reflexivity. Qed.

Lemma heap_update_other (a b : address) (v : option TrackerObject)
    (h : address -> option TrackerObject) :
  b <> a -> heap_update a v h b = h b.
Proof.
  intros Hne. unfold heap_update.
  destruct (Nat.eqb_spec b a); [contradiction|reflexivity].
Qed.

Lemma find_live_some (host : Z -> String.string) (k : String.string)
    (a : address) (P : Process) :
  registry_wf host P ->
  (find_live k P = Some a <-> StringMap.find k (trackers_ P) = Some a).
Proof.
  intros (_ & Hentry & _). unfold find_live. split.
  - destruct (StringMap.find k (trackers_ P)) as [a'|]; [|discriminate].
    destruct (heap P a'); [|discriminate]. exact (fun H => H).
  - intros Hf. rewrite Hf. destruct (Hentry k a Hf) as (o & -> & _).
    reflexivity.
Qed.

Lemma tracker_of_without_owner (d pdstn : Z) (l : list (Z * address)) :
  d <> pdstn ->
  tracker_of d (without_owner pdstn l) = tracker_of d l.
Proof.
  intros Hd. unfold tracker_of, without_owner.
  induction l as [|[d' a'] l IH]; [reflexivity|].
  cbn [filter find fst].
  destruct (Z.eqb_spec d' pdstn) as [->|Hne]; cbn [negb find fst].
  - destruct (Z.eqb_spec pdstn d) as [->|_]; [contradiction Hd; reflexivity|].
    exact IH.
  - destruct (d' =? d); [reflexivity|exact IH].
Qed.

(* With a live tracker under the host's key, [updateTracker] only changes
   who holds what. *)
Lemma updateTracker_adopt_explicit :
  forall (host : Z -> String.string) (pdstn tkoThreshold : Z) (P : Process)
         (a : address),
    registry_wf host P ->
    StringMap.find (host pdstn) (trackers_ P) = Some a ->
    updateTracker host pdstn tkoThreshold P
    = set_owners ((pdstn, a) :: without_owner pdstn (owners P)) P /\
    tracker_of pdstn (owners (updateTracker host pdstn tkoThreshold P))
    = Some a.
Proof.
  intros host pdstn t P a Hwf Hfind.
  assert (Hlive : find_live (host pdstn) P = Some a)
    by (apply (find_live_some host); assumption).
  destruct Hwf as (Hreg & Hentry & Hnd & Hown & Hheld & Hnext).
  assert (Hupd : updateTracker host pdstn t P
                 = set_owners ((pdstn, a) :: without_owner pdstn (owners P)) P).
  { unfold updateTracker. rewrite Hlive.
    destruct (tracker_of pdstn (owners P)) as [a'|] eqn:Hold; [|reflexivity].
    destruct (Hown pdstn a' (tracker_of_in _ _ _ Hold)) as (o' & Ho' & Hk').
    pose proof (Hreg a' o' Ho') as Hr. rewrite Hk', Hfind in Hr.
    injection Hr as ->.
    unfold drop_reference, set_owners. cbn [owners held existsb snd].
    rewrite Nat.eqb_refl. reflexivity. }
  split; [exact Hupd|]. rewrite Hupd. unfold set_owners, tracker_of.
  cbn [owners find fst snd]. rewrite Z.eqb_refl. reflexivity.
Qed.

(** A destination of a host that has a live tracker adopts that tracker: the
    registry, every tracker's words (the threshold too: the argument
    [tkoThreshold] is ignored), the counters and the trackers held by the
    other destinations are left as they were. *)
Theorem updateTracker_adopts_live_tracker :
  forall (host : Z -> String.string) (pdstn tkoThreshold : Z) (P : Process)
         (a : address),
    registry_wf host P ->
    StringMap.find (host pdstn) (trackers_ P) = Some a ->
    let P' := updateTracker host pdstn tkoThreshold P in
    tracker_of pdstn (owners P') = Some a /\
    trackers_ P' = trackers_ P /\
    heap P' = heap P /\
    reg_globalTkos_ P' = reg_globalTkos_ P /\
    next_address P' = next_address P /\
    (forall d, d <> pdstn ->
       tracker_of d (owners P') = tracker_of d (owners P)).
Proof.
  intros host pdstn t P a Hwf Hfind P'. subst P'.
  destruct (updateTracker_adopt_explicit host pdstn t P a Hwf Hfind)
    as [Hupd Hnew].
  split; [exact Hnew|]. rewrite Hupd. unfold set_owners.
  cbn [trackers_ heap reg_globalTkos_ next_address owners].
  repeat (split; [reflexivity|]).
  intros d Hd. unfold tracker_of. cbn [find fst].
  destruct (Z.eqb_spec pdstn d) as [->|_]; [contradiction Hd; reflexivity|].
  apply (tracker_of_without_owner d pdstn (owners P) Hd).
Qed.

(** A destination that holds no tracker, of a host without a live tracker
    (no entry, or an expired one), gets a new tracker at the next address,
    with the threshold asked for and every word at zero, registered under
    the host's key; the other entries, trackers and the counters are left as
    they were. *)
Theorem updateTracker_registers_new_tracker :
  forall (host : Z -> String.string) (pdstn tkoThreshold : Z) (P : Process),
    find_live (host pdstn) P = None ->
    tracker_of pdstn (owners P) = None ->
    let P' := updateTracker host pdstn tkoThreshold P in
    tracker_of pdstn (owners P') = Some (next_address P) /\
    StringMap.find (host pdstn) (trackers_ P') = Some (next_address P) /\
    heap P' (next_address P)
    = Some (mkTrackerObject tkoThreshold 0 0 (host pdstn)) /\
    (forall k, k <> host pdstn ->
       StringMap.find k (trackers_ P') = StringMap.find k (trackers_ P)) /\
    (forall a, a <> next_address P -> heap P' a = heap P a) /\
    reg_globalTkos_ P' = reg_globalTkos_ P /\
    next_address P' = S (next_address P).
Proof.
  intros host pdstn t P Hlive Hold P'. subst P'.
  unfold updateTracker. rewrite Hlive.
  assert (Hmap : forall m1 inserted,
            emplace (host pdstn) (next_address P) (trackers_ P)
            = (m1, inserted) ->
            forall k,
              StringMap.find k
                (if inserted then m1
                 else StringMap.add (host pdstn) (next_address P) m1)
              = StringMap.find k
                  (StringMap.add (host pdstn) (next_address P) (trackers_ P))).
  { unfold emplace. intros m1 inserted.
    destruct (StringMap.mem (host pdstn) (trackers_ P));
      intros [= <- <-] k; reflexivity. }
  destruct (emplace (host pdstn) (next_address P) (trackers_ P))
    as [m1 inserted] eqn:Hemp.
  specialize (Hmap m1 inserted eq_refl).
  cbn [owners]. rewrite Hold. unfold set_owners.
  cbn [owners trackers_ heap reg_globalTkos_ next_address].
  split.
  { unfold tracker_of. cbn [find fst snd]. rewrite Z.eqb_refl. reflexivity. }
  split.
  { rewrite Hmap. apply StringMapFacts.add_eq_o. reflexivity. }
  split; [apply heap_update_same|].
  split.
  { intros k Hk. rewrite Hmap. apply StringMapFacts.add_neq_o. congruence. }
  split; [|split; reflexivity].
  intros a Ha. apply heap_update_other. exact Ha.
Qed.

(** * The registry: what every sequence of operations keeps *)

Lemma registry_wf_empty (host : Z -> String.string) :
  registry_wf host empty_process.
Proof.
  unfold registry_wf, empty_process. cbn [heap trackers_ owners map].
  split; [discriminate|]. split.
  { intros k a H. rewrite StringMapFacts.empty_o in H. discriminate. }
  split; [constructor|]. split; [intros d a []|].
  split; discriminate.
Qed.

Lemma updateTracker_new_explicit (host : Z -> String.string)
    (pdstn tkoThreshold : Z) (P : Process) :
  find_live (host pdstn) P = None ->
  tracker_of pdstn (owners P) = None ->
  let P' := updateTracker host pdstn tkoThreshold P in
  owners P' = (pdstn, next_address P) :: without_owner pdstn (owners P) /\
  heap P'
  = heap_update (next_address P)
      (Some (mkTrackerObject tkoThreshold 0 0 (host pdstn))) (heap P) /\
  (forall k,
     StringMap.find k (trackers_ P')
     = StringMap.find k
         (StringMap.add (host pdstn) (next_address P) (trackers_ P))) /\
  reg_globalTkos_ P' = reg_globalTkos_ P /\
  next_address P' = S (next_address P).
Proof.
  intros Hlive Hold P'. subst P'. unfold updateTracker. rewrite Hlive.
  assert (Hmap : forall m1 inserted,
            emplace (host pdstn) (next_address P) (trackers_ P)
            = (m1, inserted) ->
            forall k,
              StringMap.find k
                (if inserted then m1
                 else StringMap.add (host pdstn) (next_address P) m1)
              = StringMap.find k
                  (StringMap.add (host pdstn) (next_address P) (trackers_ P))).
  { unfold emplace. intros m1 inserted.
    destruct (StringMap.mem (host pdstn) (trackers_ P));
      intros [= <- <-] k; reflexivity. }
  destruct (emplace (host pdstn) (next_address P) (trackers_ P))
    as [m1 inserted] eqn:Hemp.
  specialize (Hmap m1 inserted eq_refl).
  cbn [owners]. rewrite Hold. unfold set_owners.
  cbn [owners trackers_ heap reg_globalTkos_ next_address].
  split; [reflexivity|]. split; [reflexivity|]. split; [exact Hmap|].
  split; reflexivity.
Qed.

Lemma registry_wf_no_tracker (host : Z -> String.string) (pdstn : Z)
    (P : Process) :
  registry_wf host P ->
  find_live (host pdstn) P = None ->
  StringMap.find (host pdstn) (trackers_ P) = None /\
  tracker_of pdstn (owners P) = None.
Proof.
  intros Hwf Hlive.
  assert (Hfind : StringMap.find (host pdstn) (trackers_ P) = None).
  { destruct (StringMap.find (host pdstn) (trackers_ P)) as [a|] eqn:Hf;
      [|reflexivity].
    apply (find_live_some host _ _ _ Hwf) in Hf. congruence. }
  split; [exact Hfind|].
  destruct Hwf as (Hreg & _ & _ & Hown & _).
  destruct (tracker_of pdstn (owners P)) as [a|] eqn:Hold; [|reflexivity].
  destruct (Hown pdstn a (tracker_of_in _ _ _ Hold)) as (o & Ho & Hk).
  pose proof (Hreg a o Ho) as Hr. rewrite Hk, Hfind in Hr. discriminate.
Qed.

Lemma registry_wf_updateTracker (host : Z -> String.string)
    (pdstn tkoThreshold : Z) (P : Process) :
  registry_wf host P ->
  registry_wf host (updateTracker host pdstn tkoThreshold P).
Proof.
  intros Hwf. destruct (find_live (host pdstn) P) as [a|] eqn:Hlive.
  - apply (find_live_some host _ _ _ Hwf) in Hlive.
    destruct (updateTracker_adopt_explicit host pdstn tkoThreshold P a
                Hwf Hlive) as [-> _].
    destruct Hwf as (Hreg & Hentry & Hnd & Hown & Hheld & Hnext).
    unfold registry_wf, set_owners.
    cbn [heap trackers_ owners next_address map fst].
    split; [exact Hreg|]. split; [exact Hentry|].
    split; [apply without_owner_nodup; exact Hnd|].
    split; [|split; [|exact Hnext]].
    + intros d a0 [[= <- <-]|Hin].
      * destruct (Hentry _ _ Hlive) as (o & Ho & Hk). exists o. auto.
      * apply in_without_owner in Hin. apply Hown. apply Hin.
    + intros a0 o0 Ho0. destruct (Hheld a0 o0 Ho0) as (d & Hin).
      destruct (Z.eq_dec d pdstn) as [->|Hne].
      * destruct (Hown pdstn a0 Hin) as (o' & Ho' & Hk').
        pose proof (Hreg a0 o' Ho') as Hr. rewrite Hk', Hlive in Hr.
        injection Hr as ->. exists pdstn. left. reflexivity.
      * exists d. right. apply in_without_owner. auto.
  - destruct (registry_wf_no_tracker host pdstn P Hwf Hlive) as [Hfind Hold].
    destruct (updateTracker_new_explicit host pdstn tkoThreshold P Hlive Hold)
      as (Eown & Eheap & Emap & _ & Enext).
    destruct Hwf as (Hreg & Hentry & Hnd & Hown & Hheld & Hnext).
    unfold registry_wf. rewrite Eown, Eheap, Enext. cbn [map fst].
    assert (Hfresh : forall a o, heap P a = Some o -> a <> next_address P).
    { intros a o Ho. specialize (Hnext a o Ho). lia. }
    split; [|split; [|split; [|split; [|split]]]].
    + intros a o Ho. rewrite Emap. unfold heap_update in Ho.
      destruct (Nat.eqb_spec a (next_address P)) as [->|Hne].
      * injection Ho as <-. cbn [key_].
        apply StringMapFacts.add_eq_o. reflexivity.
      * pose proof (Hreg a o Ho) as Hr.
        rewrite StringMapFacts.add_neq_o; [exact Hr|]. congruence.
    + intros k a Hk. rewrite Emap, StringMapFacts.add_o in Hk.
      destruct (OrderedTypeEx.String_as_OT.eq_dec (host pdstn) k) as [<-|Hne].
      * injection Hk as <-. rewrite heap_update_same. eexists. split;
          reflexivity.
      * destruct (Hentry k a Hk) as (o & Ho & Hko).
        rewrite heap_update_other by (eapply Hfresh; exact Ho).
        exists o. auto.
    + apply without_owner_nodup. exact Hnd.
    + intros d a [[= <- <-]|Hin].
      * rewrite heap_update_same. eexists. split; reflexivity.
      * apply in_without_owner in Hin. destruct Hin as [Hin _].
        destruct (Hown d a Hin) as (o & Ho & Hko).
        rewrite heap_update_other by (eapply Hfresh; exact Ho).
        exists o. auto.
    + intros a o Ho. unfold heap_update in Ho.
      destruct (Nat.eqb_spec a (next_address P)) as [->|Hne].
      * exists pdstn. left. reflexivity.
      * destruct (Hheld a o Ho) as (d & Hin). exists d. right.
        apply in_without_owner. split; [exact Hin|].
        intros ->. exact (tracker_of_none _ _ Hold _ Hin).
    + intros a o Ho. unfold heap_update in Ho.
      destruct (Nat.eqb_spec a (next_address P)) as [->|Hne]; [lia|].
      specialize (Hnext a o Ho). lia.
Qed.

Lemma release_explicit (host : Z -> String.string) (pdstn : Z) (a : address)
    (P : Process) :
  registry_wf host P ->
  tracker_of pdstn (owners P) = Some a ->
  exists o,
    heap P a = Some o /\ key_ o = host pdstn /\
    release pdstn P
    = if held a (without_owner pdstn (owners P))
      then set_owners (without_owner pdstn (owners P)) P
      else mkProcess (StringMap.remove (host pdstn) (trackers_ P))
             (reg_globalTkos_ P) (heap_update a None (heap P))
             (next_address P) (without_owner pdstn (owners P)).
Proof.
  intros (Hreg & _ & _ & Hown & _) Hold.
  destruct (Hown pdstn a (tracker_of_in _ _ _ Hold)) as (o & Ho & Hk).
  exists o. split; [exact Ho|]. split; [exact Hk|].
  unfold release. rewrite Hold. unfold drop_reference, set_owners.
  cbn [owners].
  destruct (held a (without_owner pdstn (owners P))); [reflexivity|].
  unfold destroy. cbn [heap]. rewrite Ho. unfold removeTracker.
  cbn [trackers_]. rewrite (Hreg a o Ho). rewrite Hk. reflexivity.
Qed.

Lemma registry_wf_release (host : Z -> String.string) (pdstn : Z)
    (P : Process) :
  registry_wf host P -> registry_wf host (release pdstn P).
Proof.
  intros Hwf. destruct (tracker_of pdstn (owners P)) as [a|] eqn:Hold.
  2:{ unfold release. rewrite Hold. exact Hwf. }
  destruct (release_explicit host pdstn a P Hwf Hold) as (o & Ho & Hk & ->).
  destruct Hwf as (Hreg & Hentry & Hnd & Hown & Hheld & Hnext).
  pose proof (tracker_of_in _ _ _ Hold) as Hin_a.
  assert (Hnd' : NoDup (map fst (without_owner pdstn (owners P)))).
  { pose proof (without_owner_nodup pdstn _ Hnd) as H.
    inversion H; assumption. }
  assert (Hsame : forall a', In (pdstn, a') (owners P) -> a' = a).
  { intros a' Hin. pose proof (in_tracker_of _ _ _ Hnd Hin) as H.
    congruence. }
  destruct (held a (without_owner pdstn (owners P))) eqn:Hheld_a.
  - apply held_true in Hheld_a. destruct Hheld_a as (d0 & Hd0).
    unfold registry_wf, set_owners. cbn [heap trackers_ owners next_address].
    split; [exact Hreg|]. split; [exact Hentry|]. split; [exact Hnd'|].
    split; [|split; [|exact Hnext]].
    + intros d a0 Hin. apply in_without_owner in Hin. apply Hown. apply Hin.
    + intros a0 o0 Ho0. destruct (Hheld a0 o0 Ho0) as (d & Hin).
      destruct (Z.eq_dec d pdstn) as [->|Hne].
      * rewrite (Hsame a0 Hin). exists d0. exact Hd0.
      * exists d. apply in_without_owner. auto.
  - assert (Hnot : forall d, ~ In (d, a) (without_owner pdstn (owners P))).
    { intros d Hin. assert (H : held a (without_owner pdstn (owners P)) = true)
        by (apply held_true; exists d; exact Hin). congruence. }
    unfold registry_wf. cbn [heap trackers_ owners next_address].
    split; [|split; [|split; [exact Hnd'|split; [|split]]]].
    + intros a0 o0 Ho0. unfold heap_update in Ho0.
      destruct (Nat.eqb_spec a0 a) as [->|Hne]; [discriminate|].
      pose proof (Hreg a0 o0 Ho0) as Hr.
      rewrite StringMapFacts.remove_neq_o; [exact Hr|].
      intros Heq. rewrite <- Heq, <- Hk, (Hreg a o Ho) in Hr. congruence.
    + intros k a0 Hf. rewrite StringMapFacts.remove_o in Hf.
      destruct (OrderedTypeEx.String_as_OT.eq_dec (host pdstn) k) as [|Hne];
        [discriminate|].
      destruct (Hentry k a0 Hf) as (o0 & Ho0 & Hk0).
      exists o0. split; [|exact Hk0].
      rewrite heap_update_other; [exact Ho0|].
      intros ->. rewrite Ho in Ho0. injection Ho0 as <-. congruence.
    + intros d a0 Hin. pose proof Hin as Hin'.
      apply in_without_owner in Hin. destruct Hin as [Hin Hd].
      destruct (Hown d a0 Hin) as (o0 & Ho0 & Hk0).
      exists o0. split; [|exact Hk0].
      rewrite heap_update_other; [exact Ho0|].
      intros ->. exact (Hnot d Hin').
    + intros a0 o0 Ho0. unfold heap_update in Ho0.
      destruct (Nat.eqb_spec a0 a) as [->|Hne]; [discriminate|].
      destruct (Hheld a0 o0 Ho0) as (d & Hin).
      exists d. apply in_without_owner. split; [exact Hin|].
      intros ->. apply Hne. apply Hsame. exact Hin.
    + intros a0 o0 Ho0. unfold heap_update in Ho0.
      destruct (Nat.eqb_spec a0 a) as [->|Hne]; [discriminate|].
      exact (Hnext a0 o0 Ho0).
Qed.

Lemma registry_wf_on_tracker (host : Z -> String.string) (a : address)
    (m : M bool) (P P' : Process) (r : bool) :
  registry_wf host P ->
  on_tracker a m P = Some (r, P') ->
  registry_wf host P'.
Proof.
  intros (Hreg & Hentry & Hnd & Hown & Hheld & Hnext). unfold on_tracker.
  destruct (heap P a) as [o|] eqn:Ho; [|discriminate].
  destruct (m (tracker_view (reg_globalTkos_ P) o)) as [[r' s']|];
    [|discriminate].
  intros [= <- <-]. unfold registry_wf.
  cbn [heap trackers_ owners next_address].
  assert (Hobj : forall a0 o0,
            heap_update a (Some (object_of s' (key_ o))) (heap P) a0 = Some o0 ->
            exists o1, heap P a0 = Some o1 /\ key_ o1 = key_ o0).
  { intros a0 o0 H. unfold heap_update in H.
    destruct (Nat.eqb_spec a0 a) as [->|Hne].
    - injection H as <-. exists o. auto.
    - exists o0. auto. }
  assert (Hback : forall a0 o1,
            heap P a0 = Some o1 ->
            exists o0,
              heap_update a (Some (object_of s' (key_ o))) (heap P) a0
              = Some o0 /\ key_ o0 = key_ o1).
  { intros a0 o1 H. unfold heap_update.
    destruct (Nat.eqb_spec a0 a) as [->|Hne].
    - rewrite Ho in H. injection H as <-. eexists. split; reflexivity.
    - exists o1. auto. }
  split; [|split; [|split; [exact Hnd|split; [|split]]]].
  - intros a0 o0 H. destruct (Hobj a0 o0 H) as (o1 & Ho1 & <-).
    apply Hreg. exact Ho1.
  - intros k a0 Hf. destruct (Hentry k a0 Hf) as (o1 & Ho1 & Hk1).
    destruct (Hback a0 o1 Ho1) as (o0 & Ho0 & Hk0). exists o0.
    split; [exact Ho0|congruence].
  - intros d a0 Hin. destruct (Hown d a0 Hin) as (o1 & Ho1 & Hk1).
    destruct (Hback a0 o1 Ho1) as (o0 & Ho0 & Hk0). exists o0.
    split; [exact Ho0|congruence].
  - intros a0 o0 H. destruct (Hobj a0 o0 H) as (o1 & Ho1 & _).
    apply (Hheld a0 o1 Ho1).
  - intros a0 o0 H. destruct (Hobj a0 o0 H) as (o1 & Ho1 & _).
    apply (Hnext a0 o1 Ho1).
Qed.

Lemma registry_wf_step (host : Z -> String.string) (op : RegistryOp)
    (P P' : Process) :
  registry_wf host P ->
  registry_step host op P = Some P' ->
  registry_wf host P'.
Proof.
  intros Hwf. destruct op as [pdstn t|pdstn|c]; cbn [registry_step].
  - intros [= <-]. apply registry_wf_updateTracker. exact Hwf.
  - intros [= <-]. apply registry_wf_release. exact Hwf.
  - destruct (tracker_of (call_pdstn c) (owners P)) as [a|]; [|discriminate].
    destruct (on_tracker a (call c) P) as [[r P1]|] eqn:Hon; [|discriminate].
    intros [= <-]. eapply registry_wf_on_tracker; eassumption.
Qed.

Lemma registry_wf_run (host : Z -> String.string) (ops : list RegistryOp) :
  forall P P',
    registry_wf host P ->
    run_registry host ops P = Some P' ->
    registry_wf host P'.
Proof.
  induction ops as [|op ops IH]; intros P P' Hwf; cbn [run_registry].
  - intros [= <-]. exact Hwf.
  - destruct (registry_step host op P) as [P1|] eqn:Hstep; [|discriminate].
    apply IH. eapply registry_wf_step; eassumption.
Qed.

(** Destinations of one host share one tracker.  After every sequence of
    registry operations that runs to completion from the empty registry,
    the tracker a destination holds is the one registered under its host's
    key, so two destinations of the same host hold the same tracker. *)
Theorem same_host_same_tracker :
  forall (host : Z -> String.string) (ops : list RegistryOp) (P : Process)
         (d1 d2 : Z) (a1 a2 : address),
    run_registry host ops empty_process = Some P ->
    tracker_of d1 (owners P) = Some a1 ->
    tracker_of d2 (owners P) = Some a2 ->
    host d1 = host d2 ->
    StringMap.find (host d1) (trackers_ P) = Some a1 /\ a1 = a2.
Proof.
  intros host ops P d1 d2 a1 a2 Hrun H1 H2 Hhost.
  pose proof (registry_wf_run host ops _ _ (registry_wf_empty host) Hrun)
    as (Hreg & _ & _ & Hown & _).
  destruct (Hown d1 a1 (tracker_of_in _ _ _ H1)) as (o1 & Ho1 & Hk1).
  destruct (Hown d2 a2 (tracker_of_in _ _ _ H2)) as (o2 & Ho2 & Hk2).
  pose proof (Hreg a1 o1 Ho1) as Hr1. pose proof (Hreg a2 o2 Ho2) as Hr2.
  rewrite Hk1 in Hr1. rewrite Hk2, <- Hhost in Hr2.
  split; [exact Hr1|congruence].
Qed.

(** The map holds no expired entry and no abandoned key.  After every
    sequence of registry operations that runs to completion from the empty
    registry, every entry of [trackers_] locks to a live tracker whose
    [key_] is the entry's key and which some destination of that host
    holds; so a key that no destination holds a tracker for is not in the
    map. *)
Theorem entries_are_live_and_held :
  forall (host : Z -> String.string) (ops : list RegistryOp) (P : Process)
         (k : String.string),
    run_registry host ops empty_process = Some P ->
    (forall a, StringMap.find k (trackers_ P) = Some a ->
       exists o d,
         heap P a = Some o /\ key_ o = k /\
         tracker_of d (owners P) = Some a /\ host d = k) /\
    ((forall d, host d = k -> tracker_of d (owners P) = None) ->
     StringMap.find k (trackers_ P) = None).
Proof.
  intros host ops P k Hrun.
  pose proof (registry_wf_run host ops _ _ (registry_wf_empty host) Hrun)
    as (Hreg & Hentry & Hnd & Hown & Hheld & _).
  assert (Hlive : forall a, StringMap.find k (trackers_ P) = Some a ->
            exists o d,
              heap P a = Some o /\ key_ o = k /\
              tracker_of d (owners P) = Some a /\ host d = k).
  { intros a Hf. destruct (Hentry k a Hf) as (o & Ho & Hk).
    destruct (Hheld a o Ho) as (d & Hin).
    destruct (Hown d a Hin) as (o' & Ho' & Hk').
    exists o, d. split; [exact Ho|]. split; [exact Hk|].
    split; [apply in_tracker_of; assumption|]. congruence. }
  split; [exact Hlive|].
  intros Hnone. destruct (StringMap.find k (trackers_ P)) as [a|] eqn:Hf;
    [|reflexivity].
  destruct (Hlive a eq_refl) as (o & d & _ & _ & Hd & Hk).
  rewrite (Hnone d Hk) in Hd. discriminate.
Qed.

(** Giving up a tracker.  In a well-formed registry, when a destination
    releases its tracker while another destination still holds it, only the
    destination's reference goes; when it was the last holder, the tracker
    is destroyed and its destructor erases the host's entry, leaving the
    other entries and trackers alone.  The global counters are never
    touched. *)
Theorem release_last_holder_erases_entry :
  forall (host : Z -> String.string) (pdstn : Z) (a : address) (P : Process),
    registry_wf host P ->
    tracker_of pdstn (owners P) = Some a ->
    let P' := release pdstn P in
    tracker_of pdstn (owners P') = None /\
    reg_globalTkos_ P' = reg_globalTkos_ P /\
    (forall k, k <> host pdstn ->
       StringMap.find k (trackers_ P') = StringMap.find k (trackers_ P)) /\
    (forall b, b <> a -> heap P' b = heap P b) /\
    if held a (without_owner pdstn (owners P))
    then StringMap.find (host pdstn) (trackers_ P') = Some a /\
         heap P' a = heap P a
    else StringMap.find (host pdstn) (trackers_ P') = None /\
         heap P' a = None.
Proof.
  intros host pdstn a P Hwf Hold P'. subst P'.
  destruct (release_explicit host pdstn a P Hwf Hold) as (o & Ho & Hk & ->).
  destruct Hwf as (Hreg & _).
  assert (Hgone : tracker_of pdstn (without_owner pdstn (owners P)) = None).
  { destruct (tracker_of pdstn (without_owner pdstn (owners P))) as [b|] eqn:E;
      [|reflexivity].
    apply tracker_of_in, in_without_owner in E. tauto. }
  destruct (held a (without_owner pdstn (owners P))).
  - unfold set_owners. cbn [owners reg_globalTkos_ trackers_ heap].
    split; [exact Hgone|]. split; [reflexivity|].
    split; [reflexivity|]. split; [reflexivity|].
    split; [|reflexivity]. rewrite <- Hk. apply Hreg. exact Ho.
  - cbn [owners reg_globalTkos_ trackers_ heap].
    split; [exact Hgone|]. split; [reflexivity|].
    split; [intros k Hne; apply StringMapFacts.remove_neq_o; congruence|].
    split; [intros b Hb; apply heap_update_other; exact Hb|].
    split; [apply StringMapFacts.remove_eq_o; reflexivity|].
    apply heap_update_same.
Qed.

Lemma registry_step_report (host : Z -> String.string) (c : Call)
    (P : Process) (a : address) (o : TrackerObject) (r : bool)
    (s' : TkoTracker) :
  tracker_of (call_pdstn c) (owners P) = Some a ->
  heap P a = Some o ->
  call c (tracker_view (reg_globalTkos_ P) o) = Some (r, s') ->
  registry_step host (Report c) P
  = Some (mkProcess (trackers_ P) (globalTkos_ s')
            (heap_update a (Some (object_of s' (key_ o))) (heap P))
            (next_address P) (owners P)).
Proof.
  intros Hd Ho Hcall. cbn [registry_step]. rewrite Hd. unfold on_tracker.
  rewrite Ho, Hcall. reflexivity.
Qed.

Lemma first_tracker (host : Z -> String.string) (d t : Z) :
  let P := updateTracker host d t empty_process in
  owners P = [(d, O)] /\
  heap P = heap_update O (Some (mkTrackerObject t 0 0 (host d))) (fun _ => None) /\
  (forall k, StringMap.find k (trackers_ P)
             = StringMap.find k (StringMap.add (host d) O
                                   (StringMap.empty address))) /\
  reg_globalTkos_ P = fresh_counters /\
  next_address P = 1%nat.
Proof.
  apply (updateTracker_new_explicit host d t empty_process).
  - unfold find_live, empty_process. cbn [trackers_].
    rewrite StringMapFacts.empty_o. reflexivity.
  - reflexivity.
Qed.

(** The destructor gives nothing back to the global counters.  A
    destination gets the first tracker of an empty registry, enters hard TKO
    and releases the tracker: the tracker is destroyed and its entry erased,
    yet [hard_tkos] still counts it.  When [removeDestination] is called
    before the release, the counters are back to zero. *)
Theorem destroyed_tracker_keeps_its_tko_count :
  forall (host : Z -> String.string) (t d : Z) (n m : nat),
    0 <= t ->
    valid_token t d ->
    (exists P,
       run_registry host
         [UpdateTracker d t; Report (RecordHardFailure d n); Release d]
         empty_process = Some P /\
       (forall k, StringMap.find k (trackers_ P) = None) /\
       heap P O = None /\
       reg_globalTkos_ P = mkTkoCounters 0 1) /\
    (exists P,
       run_registry host
         [UpdateTracker d t; Report (RecordHardFailure d n);
          Report (RemoveDestination d m); Release d]
         empty_process = Some P /\
       (forall k, StringMap.find k (trackers_ P) = None) /\
       heap P O = None /\
       reg_globalTkos_ P = mkTkoCounters 0 0).
Proof.
  intros host t d n m Ht (He & Hd).
  destruct (first_tracker host d t) as (Eown & Eheap & Emap & Eg & Enext).
  set (P1 := updateTracker host d t empty_process) in *.
  set (key := host d) in *.
  (* the hard failure *)
  assert (Hhard : recordHardFailure d n (fresh t)
                  = Some (true,
                          mkTkoTracker t (Z.lor d 1) 1 (mkTkoCounters 0 1))).
  { rewrite recordHardFailure_enters.
    - reflexivity.
    - apply isTko_false. fields. exact Ht.
    - unfold isResponsible. fields. rewrite Z.land_0_l. apply Z.eqb_neq. lia. }
  set (s2 := mkTkoTracker t (Z.lor d 1) 1 (mkTkoCounters 0 1)) in *.
  set (P2 := mkProcess (trackers_ P1) (globalTkos_ s2)
               (heap_update O (Some (object_of s2 key)) (heap P1))
               (next_address P1) (owners P1)).
  assert (Hstep2 : registry_step host (Report (RecordHardFailure d n)) P1
                   = Some P2).
  { apply (registry_step_report host (RecordHardFailure d n) P1 O
             (mkTrackerObject t 0 0 key) true s2).
    - cbn [call_pdstn]. rewrite Eown. unfold tracker_of. cbn [find fst snd].
      rewrite Z.eqb_refl. reflexivity.
    - rewrite Eheap. apply heap_update_same.
    - rewrite Eg. exact Hhard. }
  (* the removal *)
  assert (Hlor : Z.lor d 1 = d + 1) by (apply lor_one_even; [lia|exact He]).
  pose proof (even_mod2 d He) as Hmod.
  assert (Hresp : isResponsible d s2 = true).
  { apply isResponsible_true; subst s2; fields; rewrite Hlor; word_lia. }
  assert (Hremove : removeDestination d m s2
                    = Some (true, mkTkoTracker t 0 0 (mkTkoCounters 0 0))).
  { rewrite removeDestination_responsible by exact Hresp.
    rewrite recordSuccess_responsible; [|exact Hresp|].
    - assert (Hh : isHardTko s2 = true).
      { apply isHardTko_true. subst s2. fields. rewrite Hlor. word_lia. }
      rewrite Hh, (hard_excludes_soft s2 Hh). reflexivity.
    - intros Hs. assert (Hh : isHardTko s2 = true).
      { apply isHardTko_true. subst s2. fields. rewrite Hlor. word_lia. }
      rewrite (hard_excludes_soft s2 Hh) in Hs. discriminate. }
  set (s3 := mkTkoTracker t 0 0 (mkTkoCounters 0 0)) in *.
  set (P3 := mkProcess (trackers_ P2) (globalTkos_ s3)
               (heap_update O (Some (object_of s3 key)) (heap P2))
               (next_address P2) (owners P2)).
  assert (Hstep3 : registry_step host (Report (RemoveDestination d m)) P2
                   = Some P3).
  { apply (registry_step_report host (RemoveDestination d m) P2 O
             (object_of s2 key) true s3).
    - cbn [call_pdstn]. subst P2. cbn [owners]. rewrite Eown.
      unfold tracker_of. cbn [find fst snd]. rewrite Z.eqb_refl. reflexivity.
    - subst P2. cbn [heap]. apply heap_update_same.
    - exact Hremove. }
  (* the release of a process whose only tracker is held by [d] alone *)
  assert (Hrelease : forall P,
            owners P = [(d, O)] ->
            (exists o, heap P O = Some o /\ key_ o = key) ->
            (forall k, StringMap.find k (trackers_ P)
                       = StringMap.find k (StringMap.add key O
                                             (StringMap.empty address))) ->
            (forall k, StringMap.find k (trackers_ (release d P)) = None) /\
            heap (release d P) O = None /\
            reg_globalTkos_ (release d P) = reg_globalTkos_ P).
  { intros P Ho (o & Hobj & Hk) Hm. unfold release. rewrite Ho.
    unfold tracker_of, without_owner. cbn [find filter fst snd].
    rewrite Z.eqb_refl. cbn [negb].
    unfold drop_reference, set_owners. cbn [owners held existsb].
    unfold destroy. cbn [heap snd]. rewrite Hobj. unfold removeTracker.
    cbn [trackers_]. rewrite Hk, Hm, StringMapFacts.add_eq_o by reflexivity.
    unfold set_heap, set_trackers. cbn [trackers_ heap reg_globalTkos_].
    split; [|split; [apply heap_update_same|reflexivity]].
    intros k. rewrite StringMapFacts.remove_o.
    destruct (OrderedTypeEx.String_as_OT.eq_dec key k) as [|Hne];
      [reflexivity|].
    rewrite Hm, StringMapFacts.add_neq_o by exact Hne.
    apply StringMapFacts.empty_o. }
  split.
  - exists (release d P2). cbn [run_registry].
    change (registry_step host (UpdateTracker d t) empty_process)
      with (Some P1).
    cbv iota. rewrite Hstep2. cbn [registry_step]. split; [reflexivity|].
    apply Hrelease.
    + exact Eown.
    + subst P2. cbn [heap]. rewrite heap_update_same. eexists.
      split; reflexivity.
    + exact Emap.
  - exists (release d P3). cbn [run_registry].
    change (registry_step host (UpdateTracker d t) empty_process)
      with (Some P1).
    cbv iota. rewrite Hstep2, Hstep3. cbn [registry_step].
    split; [reflexivity|].
    apply Hrelease.
    + exact Eown.
    + subst P3. cbn [heap]. rewrite heap_update_same. eexists.
      split; reflexivity.
    + exact Emap.
Qed.

(** * Several trackers on the same counters *)

Section Among.

Variables bs bh t : Z.
Hypothesis Ht : 1 <= t < word_modulus.
Hypothesis Hbs : 0 <= bs /\ bs + 1 < word_modulus.
Hypothesis Hbh : 0 <= bh /\ bh + 1 < word_modulus.

Lemma represents_alone (ph : Phase) (s : TkoTracker) :
  represents_among bs bh t ph s -> represents t ph (alone ph s).
Proof using Type.
  intros (Et & Es & Hc & Hph & _). unfold represents, alone.
  cbn [tkoThreshold_ sumFailures_ consecutiveFailureCount_ globalTkos_].
  destruct ph; cbn [soft_of hard_of]; auto.
Qed.

Ltac among_finish :=
  unfold represents_among; fields;
  repeat match goal with
         | H : globalTkos_ _ = _ |- _ => rewrite H
         | H : sumFailures_ _ = _ |- _ => rewrite H
         end;
  fields; cbn [encode soft_of hard_of];
  rewrite ?Z.add_0_r;
  repeat match goal with
         | |- context [wrap ?z] =>
             lazymatch z with
             | context [consecutiveFailureCount_] => fail
             | _ => rewrite (wrap_small z)
                      by (unfold is_word, valid_token in *; lia)
             end
         end;
  repeat split; auto; try apply wrap_is_word;
  unfold is_word, valid_token in *;
  try (f_equal; lia); intuition lia.

Lemma call_simulates_among (c : Call) (ph : Phase) (s : TkoTracker) :
  represents_among bs bh t ph s ->
  valid_token t (call_pdstn c) ->
  exists s',
    call c s = Some (fst (phase_step t c ph), s') /\
    represents_among bs bh t (snd (phase_step t c ph)) s'.
Proof using Ht Hbs Hbh.
  intros Hamong Hval.
  pose proof (represents_alone ph s Hamong) as Hrep.
  destruct Hamong as (Et & Es & Hc & Hph & Hg).
  destruct ph as [k|o|o].
  - destruct (counting_observed t Ht k _ Hrep) as (Htko & _ & _ & Hresp).
    change (isTko (alone (Counting k) s)) with (isTko s) in Htko.
    assert (Hresp' : forall p, valid_token t p -> isResponsible p s = false)
      by exact Hresp.
    cbn [encode] in Es.
    destruct c as [p n|p n|p n|p n]; cbn [call call_pdstn phase_step] in *.
    + destruct (Z.eqb_spec k (t - 1)) as [Ek|Ek]; cbn [fst snd];
        eexists; (split; [|shelve]).
      * apply recordSoftFailure_enters; [exact Htko| |unfold valid_token in *; lia].
        rewrite Et, Es, Ek. symmetry. apply wrap_small. word_lia.
      * apply recordSoftFailure_counts;
          [exact Htko| |unfold valid_token in *; lia|].
        -- rewrite Et, Es. rewrite wrap_small by word_lia. exact Ek.
        -- rewrite Es. rewrite wrap_small by word_lia.
           unfold valid_token in *. lia.
      Unshelve. all: among_finish.
    + cbn [fst snd]. eexists. split.
      * apply recordHardFailure_enters; [exact Htko|apply Hresp'; exact Hval].
      * among_finish.
    + cbn [fst snd]. eexists. split.
      * apply recordSuccess_not_responsible. apply Hresp'. exact Hval.
      * rewrite Htko. cbn [negb]. rewrite andb_true_r.
        destruct (Z.eqb_spec (sumFailures_ s) 0) as [E0|E0]; cbn [negb].
        -- unfold represents_among. rewrite E0. cbn [encode soft_of hard_of].
           repeat split; auto; unfold is_word in *; lia.
        -- among_finish.
    + cbn [fst snd]. exists s. split.
      * apply removeDestination_not_responsible. apply Hresp'. exact Hval.
      * unfold represents_among. cbn [encode]. auto.
  - destruct (soft_observed t Ht o _ Hrep) as (Hsoft & Hhard & Htko & Hresp).
    change (isSoftTko (alone (SoftTko o) s)) with (isSoftTko s) in Hsoft.
    change (isHardTko (alone (SoftTko o) s)) with (isHardTko s) in Hhard.
    change (isTko (alone (SoftTko o) s)) with (isTko s) in Htko.
    assert (Hresp' : forall p, isResponsible p s = (o =? p)) by exact Hresp.
    cbn [encode] in Es. cbn [soft_of hard_of] in Hg.
    assert (Hsne : softTkos (globalTkos_ s) <> 0) by (rewrite Hg; cbn; lia).
    destruct c as [p n|p n|p n|p n]; cbn [call call_pdstn phase_step] in *.
    + cbn [fst snd]. eexists. split.
      * apply recordSoftFailure_when_tko. exact Htko.
      * among_finish.
    + destruct (Z.eqb_spec o p) as [Eop|Eop]; cbn [fst snd]; eexists;
        (split; [|shelve]).
      * apply recordHardFailure_upgrades; [exact Hhard| |exact Hsne].
        rewrite Hresp'. apply Z.eqb_eq. exact Eop.
      * apply recordHardFailure_refused; [exact Hsoft|].
        rewrite Hresp'. apply Z.eqb_neq. exact Eop.
      Unshelve.
      -- subst p. among_finish.
      -- among_finish.
    + destruct (Z.eqb_spec o p) as [Eop|Eop]; cbn [fst snd]; eexists;
        (split; [|shelve]).
      * apply recordSuccess_responsible; [|intros _; exact Hsne].
        rewrite Hresp'. apply Z.eqb_eq. exact Eop.
      * apply recordSuccess_not_responsible.
        rewrite Hresp'. apply Z.eqb_neq. exact Eop.
      Unshelve.
      -- rewrite Hsoft, Hhard. among_finish.
      -- rewrite Htko. cbn [negb]. rewrite andb_false_r.
         unfold represents_among. cbn [encode soft_of hard_of]. auto.
    + destruct (Z.eqb_spec o p) as [Eop|Eop]; cbn [fst snd]; eexists;
        (split; [|shelve]).
      * rewrite removeDestination_responsible
          by (rewrite Hresp'; apply Z.eqb_eq; exact Eop).
        apply recordSuccess_responsible; [|intros _; exact Hsne].
        rewrite Hresp'. apply Z.eqb_eq. exact Eop.
      * apply removeDestination_not_responsible.
        rewrite Hresp'. apply Z.eqb_neq. exact Eop.
      Unshelve.
      -- rewrite Hsoft, Hhard. among_finish.
      -- unfold represents_among. cbn [encode soft_of hard_of]. auto.
  - destruct (hard_observed t Ht o _ Hrep) as (Hhard & Hsoft & Htko & Hresp).
    change (isSoftTko (alone (HardTko o) s)) with (isSoftTko s) in Hsoft.
    change (isHardTko (alone (HardTko o) s)) with (isHardTko s) in Hhard.
    change (isTko (alone (HardTko o) s)) with (isTko s) in Htko.
    assert (Hresp' : forall p, isResponsible p s = (o =? p)) by exact Hresp.
    cbn [encode] in Es. cbn [soft_of hard_of] in Hg.
    destruct c as [p n|p n|p n|p n]; cbn [call call_pdstn phase_step] in *.
    + cbn [fst snd]. eexists. split.
      * apply recordSoftFailure_when_tko. exact Htko.
      * among_finish.
    + cbn [fst snd]. eexists. split.
      * apply recordHardFailure_when_hard. exact Hhard.
      * among_finish.
    + destruct (Z.eqb_spec o p) as [Eop|Eop]; cbn [fst snd]; eexists;
        (split; [|shelve]).
      * apply recordSuccess_responsible;
          [|rewrite Hsoft; discriminate].
        rewrite Hresp'. apply Z.eqb_eq. exact Eop.
      * apply recordSuccess_not_responsible.
        rewrite Hresp'. apply Z.eqb_neq. exact Eop.
      Unshelve.
      -- rewrite Hsoft, Hhard. among_finish.
      -- rewrite Htko. cbn [negb]. rewrite andb_false_r.
         unfold represents_among. cbn [encode soft_of hard_of]. auto.
    + destruct (Z.eqb_spec o p) as [Eop|Eop]; cbn [fst snd]; eexists;
        (split; [|shelve]).
      * rewrite removeDestination_responsible
          by (rewrite Hresp'; apply Z.eqb_eq; exact Eop).
        apply recordSuccess_responsible;
          [|rewrite Hsoft; discriminate].
        rewrite Hresp'. apply Z.eqb_eq. exact Eop.
      * apply removeDestination_not_responsible.
        rewrite Hresp'. apply Z.eqb_neq. exact Eop.
      Unshelve.
      -- rewrite Hsoft, Hhard. among_finish.
      -- unfold represents_among. cbn [encode soft_of hard_of]. auto.
Qed.

End Among.

Lemma count_upto_ext (f g : address -> Z) (n : nat) :
  (forall a, (a < n)%nat -> f a = g a) -> count_upto f n = count_upto g n.
Proof.
  induction n as [|n IH]; intros H; cbn [count_upto]; [reflexivity|].
  rewrite IH by (intros a Ha; apply H; lia). rewrite H by lia. reflexivity.
Qed.

Lemma count_upto_update (f g : address -> Z) (a : address) (n : nat) :
  (a < n)%nat ->
  (forall b, b <> a -> g b = f b) ->
  count_upto g n = count_upto f n - f a + g a.
Proof.
  induction n as [|n IH]; intros Ha H; cbn [count_upto]; [lia|].
  destruct (Nat.eq_dec a n) as [->|Hne].
  - rewrite (count_upto_ext g f) by (intros b Hb; apply H; lia). lia.
  - rewrite IH by (assumption || lia). rewrite (H n) by congruence. lia.
Qed.

Lemma count_upto_bounds (f : address -> Z) (n : nat) :
  (forall a, 0 <= f a <= 1) ->
  0 <= count_upto f n <= Z.of_nat n /\
  forall a, (a < n)%nat -> f a <= count_upto f n.
Proof.
  intros Hf. induction n as [|n [IH1 IH2]]; cbn [count_upto].
  - split; [lia|]. intros a Ha. lia.
  - pose proof (Hf n). split; [lia|]. intros a Ha.
    destruct (Nat.eq_dec a n) as [->|Hne]; [lia|].
    specialize (IH2 a ltac:(lia)). lia.
Qed.

Lemma indicator_bounds (pred : TkoTracker -> bool) (g : TkoCounters)
    (v : option TrackerObject) :
  0 <= indicator pred g v <= 1.
Proof.
  unfold indicator. destruct v as [o|]; [|lia].
  destruct (pred (tracker_view g o)); lia.
Qed.

Lemma object_view_among (tmax bs bh : Z) (o : TrackerObject) (ph : Phase) :
  object_in_phase tmax o ph ->
  represents_among bs bh (obj_tkoThreshold_ o) ph
    (tracker_view (mkTkoCounters (bs + soft_of ph) (bh + hard_of ph)) o).
Proof.
  intros (_ & Es & Hc & Hph). unfold represents_among, tracker_view.
  cbn [tkoThreshold_ sumFailures_ consecutiveFailureCount_ globalTkos_].
  auto.
Qed.

Lemma among_indicators (bs bh t : Z) (ph : Phase) (s : TkoTracker)
    (key : String.string) (g : TkoCounters) :
  1 <= t < word_modulus ->
  represents_among bs bh t ph s ->
  indicator isSoftTko g (Some (object_of s key)) = soft_of ph /\
  indicator isHardTko g (Some (object_of s key)) = hard_of ph.
Proof.
  intros Ht Hamong. pose proof (represents_alone bs bh t ph s Hamong) as Hrep.
  unfold indicator.
  change (isSoftTko (tracker_view g (object_of s key))) with (isSoftTko s).
  change (isHardTko (tracker_view g (object_of s key))) with (isHardTko s).
  destruct ph as [k|d|d]; cbn [soft_of hard_of].
  - destruct (counting_observed t Ht k _ Hrep) as (_ & Hh & Hs & _).
    change (isSoftTko (alone (Counting k) s)) with (isSoftTko s) in Hs.
    change (isHardTko (alone (Counting k) s)) with (isHardTko s) in Hh.
    rewrite Hs, Hh. auto.
  - destruct (soft_observed t Ht d _ Hrep) as (Hs & Hh & _).
    change (isSoftTko (alone (SoftTko d) s)) with (isSoftTko s) in Hs.
    change (isHardTko (alone (SoftTko d) s)) with (isHardTko s) in Hh.
    rewrite Hs, Hh. auto.
  - destruct (hard_observed t Ht d _ Hrep) as (Hh & Hs & _).
    change (isSoftTko (alone (HardTko d) s)) with (isSoftTko s) in Hs.
    change (isHardTko (alone (HardTko d) s)) with (isHardTko s) in Hh.
    rewrite Hs, Hh. auto.
Qed.

Lemma object_indicators (tmax : Z) (o : TrackerObject) (ph : Phase)
    (g : TkoCounters) :
  tmax < word_modulus ->
  object_in_phase tmax o ph ->
  indicator isSoftTko g (Some o) = soft_of ph /\
  indicator isHardTko g (Some o) = hard_of ph.
Proof.
  intros Htmax Hobj.
  pose proof (object_view_among tmax 0 0 o ph Hobj) as Hamong.
  destruct Hobj as (Ht & _).
  assert (Hrange : 1 <= obj_tkoThreshold_ o < word_modulus) by lia.
  destruct (among_indicators 0 0 _ ph _ (key_ o) g Hrange Hamong)
    as [Hs Hh].
  destruct o as [t w c k]. exact (conj Hs Hh).
Qed.

Lemma indicator_soft_counters (g g' : TkoCounters) (v : option TrackerObject) :
  indicator isSoftTko g' v = indicator isSoftTko g v.
Proof. destruct v; reflexivity. Qed.

Lemma indicator_hard_counters (g g' : TkoCounters) (v : option TrackerObject) :
  indicator isHardTko g' v = indicator isHardTko g v.
Proof. destruct v; reflexivity. Qed.

Lemma counters_wf_empty (host : Z -> String.string) (tmax : Z) :
  counters_wf host tmax empty_process.
Proof.
  split; [apply registry_wf_empty|]. split; [discriminate|].
  split; reflexivity.
Qed.

Section Counters.

Variable host : Z -> String.string.
Variable tmax : Z.
Hypothesis Htmax : tmax < word_modulus.

Lemma counters_wf_updateTracker (d t : Z) (P : Process) :
  counters_wf host tmax P ->
  1 <= t <= tmax ->
  counters_wf host tmax (updateTracker host d t P) /\
  (next_address (updateTracker host d t P) <= S (next_address P))%nat /\
  (forall d' a, In (d', a) (owners P) ->
     exists a', In (d', a') (owners (updateTracker host d t P))) /\
  exists a, In (d, a) (owners (updateTracker host d t P)).
Proof using Htmax.
  intros (Hwf & Hobj & Hsoft & Hhard) Ht.
  pose proof (registry_wf_updateTracker host d t P Hwf) as Hwf'.
  assert (Hkeep : forall l0 b d' a,
            In (d', a) l0 -> exists a', In (d', a') ((d, b) :: without_owner d l0)).
  { intros l0 b d' a Hin. destruct (Z.eq_dec d' d) as [->|Hne].
    - exists b. left. reflexivity.
    - exists a. right. apply in_without_owner. auto. }
  destruct (find_live (host d) P) as [a|] eqn:Hlive.
  - apply (find_live_some host _ _ _ Hwf) in Hlive.
    destruct (updateTracker_adopt_explicit host d t P a Hwf Hlive)
      as [E _].
    rewrite E in *. unfold set_owners. cbn [owners next_address].
    split; [|split; [lia|split; [apply Hkeep|exists a; left; reflexivity]]].
    split; [exact Hwf'|]. split; [exact Hobj|]. split; assumption.
  - destruct (registry_wf_no_tracker host d P Hwf Hlive) as [Hfind Hold].
    destruct (updateTracker_new_explicit host d t P Hlive Hold)
      as (Eown & Eheap & Emap & Eg & Enext).
    destruct Hwf as (_ & _ & _ & _ & _ & Hnext).
    rewrite Eown, Enext.
    split; [|split; [lia|split; [apply Hkeep|
                                 exists (next_address P); left; reflexivity]]].
    assert (Hnew : object_in_phase tmax
                     (mkTrackerObject t 0 0 (host d)) (Counting 0)).
    { unfold object_in_phase. cbn. unfold is_word, word_modulus. lia. }
    assert (Hcount : forall pred,
              (forall g, indicator pred g
                           (Some (mkTrackerObject t 0 0 (host d))) = 0) ->
              live_in pred (updateTracker host d t P) = live_in pred P).
    { intros pred Hzero. unfold live_in. rewrite Enext, Eheap, Eg.
      cbn [count_upto]. rewrite heap_update_same, Hzero, Z.add_0_r.
      apply count_upto_ext. intros a Ha.
      rewrite heap_update_other by lia. reflexivity. }
    split; [exact Hwf'|]. split; [|split].
    + intros a o. rewrite Eheap. unfold heap_update.
      destruct (Nat.eqb a (next_address P)).
      * intros [= <-]. exists (Counting 0). exact Hnew.
      * apply Hobj.
    + rewrite Eg, Hsoft. symmetry. apply Hcount. intros g.
      apply (object_indicators tmax _ (Counting 0) g Htmax Hnew).
    + rewrite Eg, Hhard. symmetry. apply Hcount. intros g.
      apply (object_indicators tmax _ (Counting 0) g Htmax Hnew).
Qed.

Lemma counters_wf_report (c : Call) (a : address) (P : Process) :
  counters_wf host tmax P ->
  In (call_pdstn c, a) (owners P) ->
  valid_token tmax (call_pdstn c) ->
  Z.of_nat (next_address P) + 1 < word_modulus ->
  exists r P',
    on_tracker a (call c) P = Some (r, P') /\
    counters_wf host tmax P' /\
    next_address P' = next_address P /\
    owners P' = owners P.
Proof using Htmax.
  intros (Hwf & Hobj & Hsoft & Hhard) Hin Hval Hsize.
  pose proof Hwf as (_ & _ & _ & Hown & _ & Hnext).
  destruct (Hown _ a Hin) as (o & Ho & Hk).
  destruct (Hobj a o Ho) as (ph & Hph).
  pose proof (Hnext a o Ho) as Ha.
  destruct (object_indicators tmax o ph (reg_globalTkos_ P) Htmax Hph)
    as [Hind_s Hind_h].
  set (fs := fun b => indicator isSoftTko (reg_globalTkos_ P) (heap P b)).
  set (fh := fun b => indicator isHardTko (reg_globalTkos_ P) (heap P b)).
  assert (Hb_s : 0 <= live_in isSoftTko P <= Z.of_nat (next_address P) /\
                 soft_of ph <= live_in isSoftTko P).
  { destruct (count_upto_bounds fs (next_address P)
                (fun b => indicator_bounds _ _ _)) as [H1 H2].
    split; [exact H1|]. specialize (H2 a Ha). unfold fs in H2 at 1.
    rewrite Ho, Hind_s in H2. exact H2. }
  assert (Hb_h : 0 <= live_in isHardTko P <= Z.of_nat (next_address P) /\
                 hard_of ph <= live_in isHardTko P).
  { destruct (count_upto_bounds fh (next_address P)
                (fun b => indicator_bounds _ _ _)) as [H1 H2].
    split; [exact H1|]. specialize (H2 a Ha). unfold fh in H2 at 1.
    rewrite Ho, Hind_h in H2. exact H2. }
  assert (Hph01 : 0 <= soft_of ph <= 1 /\ 0 <= hard_of ph <= 1)
    by (destruct ph; cbn; lia).
  set (bs := live_in isSoftTko P - soft_of ph).
  set (bh := live_in isHardTko P - hard_of ph).
  assert (Hg : reg_globalTkos_ P
               = mkTkoCounters (bs + soft_of ph) (bh + hard_of ph)).
  { destruct (reg_globalTkos_ P) as [gs gh]. cbn [softTkos hardTkos] in *.
    subst bs bh. f_equal; lia. }
  pose proof (object_view_among tmax bs bh o ph Hph) as Hamong.
  rewrite <- Hg in Hamong.
  assert (Ht : 1 <= obj_tkoThreshold_ o < word_modulus)
    by (destruct Hph as (H & _); lia).
  assert (Hval' : valid_token (obj_tkoThreshold_ o) (call_pdstn c)).
  { destruct Hph as (H & _). unfold valid_token in *. intuition lia. }
  destruct (call_simulates_among bs bh (obj_tkoThreshold_ o) Ht
              ltac:(subst bs; lia) ltac:(subst bh; lia) c ph _ Hamong Hval')
    as (s' & Hcall & Hamong').
  set (r := fst (phase_step (obj_tkoThreshold_ o) c ph)) in *.
  set (ph' := snd (phase_step (obj_tkoThreshold_ o) c ph)) in *.
  set (P' := mkProcess (trackers_ P) (globalTkos_ s')
               (heap_update a (Some (object_of s' (key_ o))) (heap P))
               (next_address P) (owners P)).
  assert (Hon : on_tracker a (call c) P = Some (r, P')).
  { unfold on_tracker. rewrite Ho, Hcall. reflexivity. }
  exists r, P'. split; [exact Hon|]. split; [|split; reflexivity].
  destruct (among_indicators bs bh _ ph' s' (key_ o) (globalTkos_ s') Ht Hamong')
    as [Hind_s' Hind_h'].
  pose proof Hamong' as (Et' & Es' & Hc' & Hph' & Hg').
  split; [eapply registry_wf_on_tracker; eassumption|].
  split; [|split].
  - intros b ob. subst P'. cbn [heap]. unfold heap_update.
    destruct (Nat.eqb b a).
    + intros [= <-]. exists ph'. unfold object_in_phase, object_of.
      cbn [obj_tkoThreshold_ obj_sumFailures_ obj_consecutiveFailureCount_].
      rewrite Et'. destruct Hph as (H & _). auto.
    + apply Hobj.
  - subst P'. unfold live_in. cbn [reg_globalTkos_ heap next_address].
    rewrite (count_upto_update fs _ a) by
      (exact Ha || (intros b Hb; rewrite heap_update_other by exact Hb;
                    apply indicator_soft_counters)).
    rewrite heap_update_same, Hind_s', Hg'. cbn [softTkos].
    unfold fs at 2. rewrite Ho, Hind_s.
    subst bs fs. reflexivity.
  - subst P'. unfold live_in. cbn [reg_globalTkos_ heap next_address].
    rewrite (count_upto_update fh _ a) by
      (exact Ha || (intros b Hb; rewrite heap_update_other by exact Hb;
                    apply indicator_hard_counters)).
    rewrite heap_update_same, Hind_h', Hg'. cbn [hardTkos].
    unfold fh at 2. rewrite Ho, Hind_h.
    subst bh fh. reflexivity.
Qed.

Lemma run_registry_counters (ops : list RegistryOp) :
  forall (P : Process) (seen : list Z),
    counters_wf host tmax P ->
    (forall d, In d seen -> exists a, In (d, a) (owners P)) ->
    Forall (op_valid tmax) ops ->
    scoped seen ops = true ->
    Z.of_nat (next_address P) + Z.of_nat (length ops) + 1 < word_modulus ->
    exists P',
      run_registry host ops P = Some P' /\ counters_wf host tmax P'.
Proof using Htmax.
  induction ops as [|op ops IH]; intros P seen Hcw Hseen Hall Hsc Hsize.
  - exists P. split; [reflexivity|exact Hcw].
  - pose proof (Forall_inv Hall) as Hop.
    pose proof (Forall_inv_tail Hall) as Hrest.
    cbn [length] in Hsize. rewrite Nat2Z.inj_succ in Hsize.
    destruct op as [d t|d|c]; cbn [scoped op_valid] in *.
    + destruct Hop as [Ht Hd].
      destruct (counters_wf_updateTracker d t P Hcw Ht)
        as (Hcw' & Hnext & Hkeep & Hnew).
      cbn [run_registry registry_step].
      apply (IH _ (d :: seen)); [exact Hcw'| |exact Hrest|exact Hsc|lia].
      intros d' [<-|Hin]; [exact Hnew|].
      destruct (Hseen d' Hin) as (a & Ha). exact (Hkeep d' a Ha).
    + discriminate.
    + apply andb_true_iff in Hsc. destruct Hsc as [Hin Hsc].
      apply existsb_exists in Hin. destruct Hin as (d & Hin & Heq).
      apply Z.eqb_eq in Heq. subst d.
      destruct (Hseen _ Hin) as (a & Ha).
      destruct (counters_wf_report c a P Hcw Ha Hop ltac:(lia))
        as (r & P' & Hon & Hcw' & Enext & Eown).
      cbn [run_registry registry_step].
      pose proof Hcw as ((_ & _ & Hnd & _) & _).
      rewrite (in_tracker_of _ _ _ Hnd Ha), Hon.
      apply (IH _ seen); [exact Hcw'| |exact Hrest|exact Hsc|lia].
      rewrite Eown. exact Hseen.
Qed.

End Counters.

(** The global counters count the trackers.  After every sequence of
    [updateTracker] calls and reports by destinations that have a tracker,
    with thresholds between 1 and [tmax] and destination addresses that are
    valid tokens above [tmax], no assertion fails and [soft_tkos] and
    [hard_tkos] are the numbers of live trackers in soft and in hard TKO. *)
Theorem global_counters_count_trackers :
  forall (host : Z -> String.string) (tmax : Z) (ops : list RegistryOp),
    tmax < word_modulus ->
    Forall (op_valid tmax) ops ->
    scoped [] ops = true ->
    Z.of_nat (length ops) + 1 < word_modulus ->
    exists P,
      run_registry host ops empty_process = Some P /\
      softTkos (reg_globalTkos_ P) = live_in isSoftTko P /\
      hardTkos (reg_globalTkos_ P) = live_in isHardTko P.
Proof.
  intros host tmax ops Htmax Hall Hsc Hsize.
  assert (Hsize' : Z.of_nat (next_address empty_process)
                   + Z.of_nat (length ops) + 1 < word_modulus)
    by (cbn [empty_process next_address Z.of_nat]; lia).
  assert (Hseen : forall d, In d [] ->
                            exists a, In (d, a) (owners empty_process))
    by (intros d []).
  destruct (run_registry_counters host tmax Htmax ops empty_process []
              (counters_wf_empty host tmax) Hseen Hall Hsc Hsize')
    as (P & Hrun & _ & _ & Hsoft & Hhard).
  exists P. auto.
Qed.

(** * Scenarios of the registry *)

Lemma registry_of_A_wf : registry_wf scenario_host registry_of_A.
Proof. apply registry_wf_updateTracker, registry_wf_empty. Qed.

Lemma valid_token_upto_seven (d : Z) :
  d = token_A \/ d = token_B \/ d = token_C -> valid_token 7 d.
Proof.
  unfold valid_token, token_A, token_B, token_C, word_modulus.
  intros [->| [->| ->]]; (split; [reflexivity|lia]).
Qed.

(** One of the two hosts of [registry_with_suspect] is a suspect. *)
Lemma scenario_one_suspect :
  getSuspectServersCount registry_with_suspect
  = Z.of_nat (StringMap.cardinal (getSuspectServers registry_with_suspect)) /\
  getSuspectServersCount registry_with_suspect = 1.
Proof.
  split; [|vm_compute; reflexivity].
  apply (getSuspectServersCount_is_cardinal registry_with_suspect).
  vm_compute. reflexivity.
Defined.

(** [B] joins the tracker that [A] created, threshold 4 and not 7. *)
Lemma scenario_B_adopts_tracker_of_A :
  let P' := updateTracker scenario_host token_B 7 registry_of_A in
  tracker_of token_B (owners P') = Some O /\
  trackers_ P' = trackers_ registry_of_A /\
  heap P' = heap registry_of_A /\
  reg_globalTkos_ P' = reg_globalTkos_ registry_of_A /\
  next_address P' = next_address registry_of_A /\
  (forall d, d <> token_B ->
     tracker_of d (owners P') = tracker_of d (owners registry_of_A)).
Proof.
  apply (updateTracker_adopts_live_tracker scenario_host token_B 7
           registry_of_A O).
  - exact registry_of_A_wf.
  - vm_compute. reflexivity.
Defined.

(** The first destination of a process gets the tracker at address 0. *)
Lemma scenario_first_tracker :
  let P' := updateTracker scenario_host token_A 4 empty_process in
  tracker_of token_A (owners P') = Some (next_address empty_process) /\
  StringMap.find (scenario_host token_A) (trackers_ P')
  = Some (next_address empty_process) /\
  heap P' (next_address empty_process)
  = Some (mkTrackerObject 4 0 0 (scenario_host token_A)) /\
  (forall k, k <> scenario_host token_A ->
     StringMap.find k (trackers_ P')
     = StringMap.find k (trackers_ empty_process)) /\
  (forall a, a <> next_address empty_process ->
     heap P' a = heap empty_process a) /\
  reg_globalTkos_ P' = reg_globalTkos_ empty_process /\
  next_address P' = S (next_address empty_process).
Proof.
  apply (updateTracker_registers_new_tracker scenario_host token_A 4
           empty_process); reflexivity.
Defined.

(** [A] and [B], of one host, hold one tracker. *)
Lemma scenario_A_and_B_share :
  StringMap.find (scenario_host token_A) (trackers_ registry_of_A_and_B)
  = Some O /\ O = O.
Proof.
  apply (same_host_same_tracker scenario_host
           [UpdateTracker token_A 4; UpdateTracker token_B 7]
           registry_of_A_and_B token_A token_B O O);
    vm_compute; reflexivity.
Defined.

(** The entry of the host of [A] and [B] is alive and held. *)
Lemma scenario_entry_is_live_and_held :
  (forall a,
     StringMap.find "cache1:11211"%string (trackers_ registry_of_A_and_B)
     = Some a ->
     exists o d,
       heap registry_of_A_and_B a = Some o /\
       key_ o = "cache1:11211"%string /\
       tracker_of d (owners registry_of_A_and_B) = Some a /\
       scenario_host d = "cache1:11211"%string) /\
  ((forall d, scenario_host d = "cache1:11211"%string ->
      tracker_of d (owners registry_of_A_and_B) = None) ->
   StringMap.find "cache1:11211"%string (trackers_ registry_of_A_and_B)
   = None).
Proof.
  apply (entries_are_live_and_held scenario_host
           [UpdateTracker token_A 4; UpdateTracker token_B 7]
           registry_of_A_and_B "cache1:11211"%string).
  reflexivity.
Defined.

(** [A], the only holder, gives up its tracker: the entry goes. *)
Lemma scenario_last_holder_releases :
  let P' := release token_A registry_of_A in
  tracker_of token_A (owners P') = None /\
  reg_globalTkos_ P' = reg_globalTkos_ registry_of_A /\
  (forall k, k <> scenario_host token_A ->
     StringMap.find k (trackers_ P')
     = StringMap.find k (trackers_ registry_of_A)) /\
  (forall b, b <> O -> heap P' b = heap registry_of_A b) /\
  if held O (without_owner token_A (owners registry_of_A))
  then StringMap.find (scenario_host token_A) (trackers_ P') = Some O /\
       heap P' O = heap registry_of_A O
  else StringMap.find (scenario_host token_A) (trackers_ P') = None /\
       heap P' O = None.
Proof.
  apply (release_last_holder_erases_entry scenario_host token_A O
           registry_of_A).
  - exact registry_of_A_wf.
  - vm_compute. reflexivity.
Defined.

(** [A] is destroyed in hard TKO, with and without [removeDestination]. *)
Lemma scenario_destroyed_in_hard_tko :
  (exists P,
     run_registry scenario_host
       [UpdateTracker token_A 4; Report (RecordHardFailure token_A 0);
        Release token_A]
       empty_process = Some P /\
     (forall k, StringMap.find k (trackers_ P) = None) /\
     heap P O = None /\
     reg_globalTkos_ P = mkTkoCounters 0 1) /\
  (exists P,
     run_registry scenario_host
       [UpdateTracker token_A 4; Report (RecordHardFailure token_A 0);
        Report (RemoveDestination token_A 0); Release token_A]
       empty_process = Some P /\
     (forall k, StringMap.find k (trackers_ P) = None) /\
     heap P O = None /\
     reg_globalTkos_ P = mkTkoCounters 0 0).
Proof.
  apply (destroyed_tracker_keeps_its_tko_count scenario_host 4 token_A O O).
  - lia.
  - exact valid_token_A.
Defined.

(** The counters of [scenario_two_hosts] count its trackers. *)
Lemma scenario_two_hosts_counters :
  exists P,
    run_registry scenario_host scenario_two_hosts empty_process = Some P /\
    softTkos (reg_globalTkos_ P) = live_in isSoftTko P /\
    hardTkos (reg_globalTkos_ P) = live_in isHardTko P.
Proof.
  apply (global_counters_count_trackers scenario_host 7 scenario_two_hosts).
  - reflexivity.
  - unfold scenario_two_hosts.
    repeat (apply Forall_cons;
            [cbn [op_valid call_pdstn];
             first [apply valid_token_upto_seven; tauto
                   | split; [lia|apply valid_token_upto_seven; tauto]]|]).
    apply Forall_nil.
  - reflexivity.
  - vm_compute. reflexivity.
Defined.
